(** * bgpsec-sim: the AS graph, route propagation, hijack injection and
      reachability analysis of [bgpsecsim/asys.py] and [bgpsecsim/as_graph.py]

    Python objects are shared by reference: a [Route] holds the AS objects of
    its path, and those objects carry the mutable routing tables.  The
    embedding stores AS identifiers in paths and neighbor tables and resolves
    them through the graph's [asyss] dictionary (the store), which is threaded
    explicitly through every operation that mutates a routing table. *)

From Stdlib Require Import ZArith String Ascii.
From stdpp Require Import base decidable option list gmap.

#[local] Set Warnings "-clear-no-such-hyp".

Local Open Scope Z_scope.

(** ** Exceptions and results *)

Inductive exn :=
  | InvalidASRelFile (filename detail : string)
  | ValueError
  | KeyError
  | NetworkXError
  | UnknownAS.

(** [ValueError] is what the spec calls InvalidArgument.  [UnknownAS] has no
    Python counterpart: it marks the resolution of an AS identifier that the
    store does not hold, which object references cannot express.
    [OutOfFuel] marks a loop cut by the step bound of its model. *)
Inductive result (A : Type) :=
  | Ok (a : A)
  | Raise (e : exn)
  | OutOfFuel.
Arguments Ok {A} a.
Arguments Raise {A} e.
Arguments OutOfFuel {A}.

Definition rbind {A B} (m : result A) (f : A -> result B) : result B :=
  match m with
  | Ok a => f a
  | Raise e => Raise e
  | OutOfFuel => OutOfFuel
  end.

#[export] Instance result_ret : MRet result := fun A a => Ok a.
#[export] Instance result_bind : MBind result := fun A B f m => rbind m f.

Definition of_option {A} (e : exn) (o : option A) : result A :=
  match o with Some a => Ok a | None => Raise e end.

(** ** Insertion-ordered dictionaries

    A Python [dict] whose iteration order the code observes: keys are unique,
    assignment to a present key keeps its position, a new key is appended. *)

Section Dict.
Context {K V : Type} `{EqDecision K}.

Definition dict := list (K * V).

Fixpoint dget (k : K) (d : dict) : option V :=
  match d with
  | [] => None
  | (k', v) :: d' => if decide (k = k') then Some v else dget k d'
  end.

Fixpoint dset (k : K) (v : V) (d : dict) : dict :=
  match d with
  | [] => [(k, v)]
  | (k', v') :: d' =>
      if decide (k = k') then (k, v) :: d' else (k', v') :: dset k v d'
  end.

Definition dkeys (d : dict) : list K := map fst d.
Definition dvalues (d : dict) : list V := map snd d.
End Dict.
Arguments dict : clear implicits.

(** ** Relations, routes and AS nodes ([asys.py]) *)

Definition AS_ID := Z.

Inductive Relation := CUSTOMER | PEER | PROVIDER.

#[export] Instance Relation_eq_dec : EqDecision Relation.
Proof. solve_decision. Defined.

(** The enumeration value of a relation ([CUSTOMER = 1], [PEER = 2],
    [PROVIDER = 3]). *)
Definition Relation_value (r : Relation) : Z :=
  match r with CUSTOMER => 1 | PEER => 2 | PROVIDER => 3 end.

(** Iteration over the enumeration, in definition order. *)
Definition Relation_members : list Relation := [CUSTOMER; PEER; PROVIDER].

Record Route := mkRoute {
  dest : AS_ID;
  path : list AS_ID;
  origin_invalid : bool;
  path_end_invalid : bool;
  authenticated : bool;
}.

#[export] Instance Route_eq_dec : EqDecision Route.
Proof. solve_decision. Defined.

Definition route_length (r : Route) : Z := Z.of_nat (length (path r)).

(** [path[0]], [path[-2]] and [path[-1]]: absent where Python raises
    [IndexError]. *)
Definition origin (r : Route) : option AS_ID := head (path r).
Definition first_hop (r : Route) : option AS_ID :=
  last (removelast (path r)).
Definition final (r : Route) : option AS_ID := last (path r).

(** [len(self.path) != len(set(self.path))] *)
Definition contains_cycle (r : Route) : bool :=
  negb (length (path r) =? length (remove_dups (path r)))%nat.

(** The class [AS].  Its [policy] slot, which [ASGraph.__init__] fills with
    one object shared by every AS, is kept once, on the graph. *)
Record AS := mkAS {
  as_id : AS_ID;
  neighbors : dict AS_ID Relation;
  publishes_rpki : bool;
  publishes_path_end : bool;
  bgp_sec_enabled : bool;
  routing_table : gmap AS_ID Route;
}.

Definition with_neighbors (a : AS) (n : dict AS_ID Relation) : AS :=
  mkAS (as_id a) n (publishes_rpki a) (publishes_path_end a)
       (bgp_sec_enabled a) (routing_table a).

Definition with_routing_table (a : AS) (t : gmap AS_ID Route) : AS :=
  mkAS (as_id a) (neighbors a) (publishes_rpki a) (publishes_path_end a)
       (bgp_sec_enabled a) t.

Definition with_bgp_sec_enabled (a : AS) (b : bool) : AS :=
  mkAS (as_id a) (neighbors a) (publishes_rpki a) (publishes_path_end a)
       b (routing_table a).

(** The store: the graph's [asyss] dictionary, through which every AS
    reference is resolved. *)
Definition Store := dict AS_ID AS.

(** The abstract class [RoutingPolicy].  A policy receives routes whose path
    holds AS objects, so it can read whatever those objects hold; here it
    receives the store next to the route. *)
Record RoutingPolicy := mkPolicy {
  accept_route : Store -> Route -> bool;
  prefer_route : Store -> Route -> Route -> bool;
  forward_to : Store -> Route -> Relation -> bool;
}.

Definition add_peer (self : AS) (asys : AS_ID) : AS :=
  with_neighbors self (dset asys PEER (neighbors self)).

Definition add_customer (self : AS) (asys : AS_ID) : AS :=
  with_neighbors self (dset asys CUSTOMER (neighbors self)).

Definition add_provider (self : AS) (asys : AS_ID) : AS :=
  with_neighbors self (dset asys PROVIDER (neighbors self)).

Definition get_relation (self : AS) (asys : AS_ID) : option Relation :=
  dget asys (neighbors self).

Definition get_route (self : AS) (id : AS_ID) : option Route :=
  routing_table self !! id.

Definition get_providers (self : AS) : list AS_ID :=
  dkeys (List.filter (fun kv => bool_decide (kv.2 = PROVIDER)) (neighbors self)).

Definition reset_routing_table (self : AS) : AS :=
  with_routing_table self
    (<[as_id self := mkRoute (as_id self) [as_id self] false false true]> ∅).

(** [AS.__init__] with its default arguments, as [ASGraph.__init__] calls it. *)
Definition AS_init (id : AS_ID) : AS :=
  reset_routing_table (mkAS id [] false false false ∅).

Definition originate_route (self : AS) (next_hop : AS_ID) : Route :=
  mkRoute (as_id self) [as_id self; next_hop] false false (bgp_sec_enabled self).

Definition forward_route (route : Route) (next_hop : AS) : Route :=
  mkRoute (dest route) (path route ++ [as_id next_hop])
          (origin_invalid route) (path_end_invalid route)
          (authenticated route && bgp_sec_enabled next_hop).

(** [learn_route]: [self] is the AS object the caller holds; the assignment
    to its routing table is written back to the store under its identifier,
    and the export decision is taken on the updated store. *)
Definition learn_route (pol : RoutingPolicy) (s : Store) (self : AS)
    (route : Route) : Store * list AS_ID :=
  if decide (dest route = as_id self) then (s, [])
  else if negb (accept_route pol s route) then (s, [])
  else if match routing_table self !! dest route with
          | Some current => negb (prefer_route pol s current route)
          | None => false
          end then (s, [])
  else
    let self' := with_routing_table self
                   (<[dest route := route]> (routing_table self)) in
    let s' := dset (as_id self) self' s in
    let forward_to_relations :=
      List.filter (fun relation => forward_to pol s' route relation)
                  Relation_members in
    (s', dkeys (List.filter
                  (fun kv => bool_decide (kv.2 ∈ forward_to_relations))
                  (neighbors self'))).

(** ** The relationship graph and its loader ([as_graph.py])

    The [networkx.Graph] the loader builds: the node dictionary and the
    adjacency dictionary, both insertion ordered.  An undirected edge is held
    under both endpoints with one shared attribute dictionary, of which the
    code only uses ['customer'] ([None] or an AS number). *)

Record nx_Graph := mkGraph {
  nx_nodes : list AS_ID;
  nx_adj : dict AS_ID (dict AS_ID (option AS_ID));
}.

Definition nx_empty : nx_Graph := mkGraph [] [].

Definition nx_contains (g : nx_Graph) (n : AS_ID) : bool :=
  bool_decide (n ∈ nx_nodes g).

Definition add_node (n : AS_ID) (g : nx_Graph) : nx_Graph :=
  if nx_contains g n then g
  else mkGraph (nx_nodes g ++ [n]) (dset n [] (nx_adj g)).

Definition set_adj (u v : AS_ID) (c : option AS_ID)
    (adj : dict AS_ID (dict AS_ID (option AS_ID))) :=
  dset u (dset v c (default [] (dget u adj))) adj.

Definition add_edge (u v : AS_ID) (customer : option AS_ID) (g : nx_Graph)
    : nx_Graph :=
  let g := add_node v (add_node u g) in
  mkGraph (nx_nodes g) (set_adj v u customer (set_adj u v customer (nx_adj g))).

(** Iteration over [graph.edges]: every node in turn with its neighbors,
    skipping the neighbors whose own turn is over. *)
Fixpoint nx_edges_from (adj : dict AS_ID (dict AS_ID (option AS_ID)))
    (seen : list AS_ID) : list (AS_ID * AS_ID) :=
  match adj with
  | [] => []
  | (n, nbrs) :: adj' =>
      map (fun nbr => (n, nbr))
          (List.filter (fun nbr => bool_decide (nbr ∉ seen)) (dkeys nbrs))
      ++ nx_edges_from adj' (n :: seen)
  end.

Definition nx_edges (g : nx_Graph) : list (AS_ID * AS_ID) :=
  nx_edges_from (nx_adj g) [].

(** [graph.edges[(u, v)]['customer']] *)
Definition edge_customer (g : nx_Graph) (u v : AS_ID) : option (option AS_ID) :=
  nbrs ← dget u (nx_adj g); dget v nbrs.

(** *** Python string operations used by the loader

    A line is a [str] of ASCII characters (codes below 128), which is what a
    relationship file holds; characters outside ASCII are not represented. *)

Definition startswith_hash (line : string) : bool :=
  match line with
  | String c _ => bool_decide (c = "#"%char)
  | EmptyString => false
  end.

(** [s.split(sep)] for a one-character separator. *)
Fixpoint split (sep : ascii) (s : string) : list string :=
  match s with
  | EmptyString => [EmptyString]
  | String c s' =>
      if decide (c = sep) then EmptyString :: split sep s'
      else match split sep s' with
           | [] => [String c EmptyString]
           | f :: fs => String c f :: fs
           end
  end.

(** The whitespace [int] skips around the digits of an ASCII string: tab,
    line feed, vertical tab, form feed, carriage return and blank. *)
Definition is_space (c : ascii) : bool :=
  let n := nat_of_ascii c in
  ((9 <=? n) && (n <=? 13) || (n =? 32))%nat.

Definition is_digit (c : ascii) : bool :=
  let n := nat_of_ascii c in ((48 <=? n) && (n <=? 57))%nat.

Fixpoint lstrip (s : string) : string :=
  match s with
  | String c s' => if is_space c then lstrip s' else s
  | EmptyString => EmptyString
  end.

Fixpoint rstrip (s : string) : string :=
  match s with
  | String c s' =>
      match rstrip s' with
      | EmptyString => if is_space c then EmptyString else String c EmptyString
      | r => String c r
      end
  | EmptyString => EmptyString
  end.

(** Decimal digits with single underscores between them. *)
Fixpoint int_digits (s : string) (acc : Z) (after_digit : bool) : option Z :=
  match s with
  | EmptyString => if after_digit then Some acc else None
  | String c s' =>
      if is_digit c
      then int_digits s' (10 * acc + (Z.of_nat (nat_of_ascii c) - 48)) true
      else if decide (c = "_"%char)
           then (if after_digit then int_digits s' acc false else None)
           else None
  end.

(** [int(s)] on an ASCII string: surrounding whitespace, an optional sign,
    decimal digits; [None] where Python raises [ValueError]. *)
Definition int (s : string) : option Z :=
  match rstrip (lstrip s) with
  | String "-"%char ds => Z.opp <$> int_digits ds 0 false
  | String "+"%char ds => int_digits ds 0 false
  | ds => int_digits ds 0 false
  end.

Definition parse_line (filename line : string) (graph : nx_Graph)
    : result nx_Graph :=
  if startswith_hash line then Ok graph
  else
    let items := split "|"%char line in
    if negb (length items =? 3)%nat
    then Raise (InvalidASRelFile filename ("bad line: " ++ line))
    else
      match int <$> items with
      | [Some as1; Some as2; Some rel] =>
          let graph := if nx_contains graph as1 then graph else add_node as1 graph in
          let graph := if nx_contains graph as2 then graph else add_node as2 graph in
          let customer := if decide (rel = -1) then Some as2 else None in
          Ok (add_edge as1 as2 customer graph)
      | _ => Raise ValueError
      end.

(** [parse_as_rel_file]: the file is given as the lines the iteration over it
    yields (each with its line terminator). *)
Fixpoint parse_lines (filename : string) (lines : list string)
    (graph : nx_Graph) : result nx_Graph :=
  match lines with
  | [] => Ok graph
  | line :: rest =>
      graph' ← parse_line filename line graph; parse_lines filename rest graph'
  end.

Definition parse_as_rel_file (filename : string) (lines : list string)
    : result nx_Graph :=
  parse_lines filename lines nx_empty.

(** ** The AS graph *)

Record ASGraph := mkASGraph {
  asyss : Store;
  policy : RoutingPolicy;
}.

(** In-place mutation of the AS object held under [k]. *)
Definition mutate (k : AS_ID) (f : AS -> AS) (s : Store) : Store :=
  match dget k s with
  | Some a => dset k (f a) s
  | None => s
  end.

Definition init_edge (graph : nx_Graph) (s : Store) (e : AS_ID * AS_ID)
    : option Store :=
  let '(as_id1, as_id2) := e in
  _ ← dget as_id1 s;
  _ ← dget as_id2 s;
  customer ← edge_customer graph as_id1 as_id2;
  match customer with
  | None =>
      Some (mutate as_id2 (fun as2 => add_peer as2 as_id1)
             (mutate as_id1 (fun as1 => add_peer as1 as_id2) s))
  | Some c =>
      if decide (c = as_id1) then
        Some (mutate as_id2 (fun as2 => add_customer as2 as_id1)
               (mutate as_id1 (fun as1 => add_provider as1 as_id2) s))
      else if decide (c = as_id2) then
        Some (mutate as_id2 (fun as2 => add_provider as2 as_id1)
               (mutate as_id1 (fun as1 => add_customer as1 as_id2) s))
      else Some s
  end.

Fixpoint init_edges (graph : nx_Graph) (s : Store) (es : list (AS_ID * AS_ID))
    : option Store :=
  match es with
  | [] => Some s
  | e :: es' => s' ← init_edge graph s e; init_edges graph s' es'
  end.

Definition init_nodes (nodes : list AS_ID) : Store :=
  fold_left (fun s id => dset id (AS_init id) s) nodes [].

(** [ASGraph.__init__]; [None] where a dictionary lookup raises [KeyError]. *)
Definition ASGraph_init (graph : nx_Graph) (pol : RoutingPolicy)
    : option ASGraph :=
  s ← init_edges graph (init_nodes (nx_nodes graph)) (nx_edges graph);
  Some (mkASGraph s pol).

Definition get_asys (g : ASGraph) (id : AS_ID) : option AS := dget id (asyss g).

Definition clear_routing_tables (g : ASGraph) : ASGraph :=
  mkASGraph (map (fun kv => (kv.1, reset_routing_table kv.2)) (asyss g))
            (policy g).

(** Assignment to the [bgp_sec_enabled] attribute of an AS of the graph, as
    the callers of the library do to configure a deployment. *)
Definition set_bgp_sec_enabled (id : AS_ID) (b : bool) (g : ASGraph) : ASGraph :=
  mkASGraph (mutate id (fun a => with_bgp_sec_enabled a b) (asyss g)) (policy g).

(** The work-queue loop shared by [find_routes_to] and [hijack_n_hops]:
    [while routes: ...].  The store is returned next to the outcome, since
    the tables written before an exception stay written. *)
Fixpoint propagate (fuel : nat) (pol : RoutingPolicy) (s : Store)
    (routes : list Route) : result () * Store :=
  match routes with
  | [] => (Ok (), s)
  | route :: rest =>
      match fuel with
      | O => (OutOfFuel, s)
      | S fuel' =>
          match final route ≫= (fun id => dget id s) with
          | None => (Raise UnknownAS, s)
          | Some asys =>
              let '(s', nbs) := learn_route pol s asys route in
              match mapM (fun id => dget id s') nbs with
              | None => (Raise UnknownAS, s')
              | Some hops =>
                  propagate fuel' pol s' (rest ++ map (forward_route route) hops)
              end
          end
      end
  end.

Definition find_routes_to (fuel : nat) (g : ASGraph) (target : AS_ID)
    : result () * ASGraph :=
  match dget target (asyss g) with
  | None => (Raise UnknownAS, g)
  | Some t =>
      let routes := map (originate_route t) (dkeys (neighbors t)) in
      let '(r, s') := propagate fuel (policy g) (asyss g) routes in
      (r, mkASGraph s' (policy g))
  end.

(** [random.sample(population, k)]: [k] elements drawn without replacement;
    the generator is a stream of draws, the [i]-th one choosing among what is
    left.  [ValueError] when the sample is larger than the population. *)
Fixpoint draw {A} (rng : nat -> nat) (i : nat) (pool : list A) (k : nat)
    : list A :=
  match k with
  | O => []
  | S k' =>
      let j := (rng i mod length pool)%nat in
      match pool !! j with
      | Some x => x :: draw rng (S i) (delete j pool) k'
      | None => []
      end
  end.

Definition random_sample {A} (rng : nat -> nat) (population : list A) (k : nat)
    : result (list A) :=
  if (length population <? k)%nat then Raise ValueError
  else Ok (draw rng 0 population k).

(** [list(set(self.asyss.values()) - set([victim, attacker]))] *)
Definition hijack_population (s : Store) (victim attacker : AS_ID)
    : list AS_ID :=
  List.filter (fun a => bool_decide (a ∉ [victim; attacker]))
              (remove_dups (dkeys s)).

(** The first half of [hijack_n_hops]: the forged path and [bad_route]. *)
Definition hijack_path (rng : nat -> nat) (s : Store)
    (victim attacker : AS_ID) (n : Z) : result (list AS_ID) :=
  if decide (n < 0) then Raise ValueError
  else if decide (n = 0) then Ok [attacker]
  else if decide (n = 1) then Ok [victim; attacker]
  else
    middle ← random_sample rng (hijack_population s victim attacker)
                           (Z.to_nat (n - 1));
    Ok ([victim] ++ middle ++ [attacker]).

Definition hijack_route (rng : nat -> nat) (s : Store)
    (victim attacker : AS_ID) (n : Z) : result Route :=
  path ← hijack_path rng s victim attacker n;
  Ok (mkRoute victim path (bool_decide (n = 0)) (bool_decide (n <= 1)) false).

Definition hijack_n_hops (fuel : nat) (rng : nat -> nat) (g : ASGraph)
    (victim attacker : AS_ID) (n : Z) : result () * ASGraph :=
  match hijack_route rng (asyss g) victim attacker n with
  | Raise e => (Raise e, g)
  | OutOfFuel => (OutOfFuel, g)
  | Ok bad_route =>
      match dget attacker (asyss g) with
      | None => (Raise UnknownAS, g)
      | Some att =>
          match mapM (fun id => dget id (asyss g)) (dkeys (neighbors att)) with
          | None => (Raise UnknownAS, g)
          | Some hops =>
              let routes := map (forward_route bad_route) hops in
              let '(r, s') := propagate fuel (policy g) (asyss g) routes in
              (r, mkASGraph s' (policy g))
          end
      end
  end.

(** ** The default policy *)

(** Modelled from the spec: [bgpsecsim/routing_policy.py], which defines
    [DefaultPolicy], is not part of the sources at hand.  This is the
    relation under which the receiving AS learned a route: its relation to
    the route's [first_hop], the "next hop" of the spec's tie-break. *)
Definition learned_from (s : Store) (r : Route) : option Relation :=
  asys ← final r ≫= (fun id => dget id s);
  hop ← first_hop r;
  get_relation asys hop.

(** Modelled from the spec: the relation preference of the missing
    [DefaultPolicy], customer over peer over provider, as the enumeration
    values order them; a route with no such relation ranks last. *)
Definition relation_rank (rel : option Relation) : Z :=
  match rel with Some r => Relation_value r | None => 4 end.

(** Modelled from the spec: the missing [DefaultPolicy].  The spec requires
    of it: accepted routes are loop free (decided here with
    [Route.contains_cycle]); a shorter path is preferred, then the better
    relation to the next hop, then the lower next-hop number; a route learned
    from a customer is exported to every neighbor, any other route to
    customers only. *)
Definition DefaultPolicy : RoutingPolicy := {|
  accept_route := fun _ r => negb (contains_cycle r);
  prefer_route := fun s current new =>
    if decide (route_length new < route_length current) then true
    else if decide (route_length current < route_length new) then false
    else
      let rc := relation_rank (learned_from s current) in
      let rn := relation_rank (learned_from s new) in
      if decide (rn < rc) then true
      else if decide (rc < rn) then false
      else match first_hop new, first_hop current with
           | Some hn, Some hc => bool_decide (hn < hc)
           | _, _ => false
           end;
  forward_to := fun s r relation =>
    bool_decide (learned_from s r = Some CUSTOMER)
    || bool_decide (relation = CUSTOMER);
|}.

(** ** States of a graph under its public operations *)

(** Every state an [ASGraph] built from [graph] can be observed in: after
    construction, after any sequence of the public operations and of flag
    assignments, and also in the middle of a propagation (a run cut by its
    step bound) or after one that raised. *)
Inductive reachable (graph : nx_Graph) (pol : RoutingPolicy) : ASGraph -> Prop :=
  | reach_init g :
      ASGraph_init graph pol = Some g -> reachable graph pol g
  | reach_clear g :
      reachable graph pol g -> reachable graph pol (clear_routing_tables g)
  | reach_flag g id b :
      reachable graph pol g -> reachable graph pol (set_bgp_sec_enabled id b g)
  | reach_find g fuel target :
      reachable graph pol g ->
      reachable graph pol (find_routes_to fuel g target).2
  | reach_hijack g fuel rng victim attacker n :
      reachable graph pol g ->
      reachable graph pol (hijack_n_hops fuel rng g victim attacker n).2.

(** [a.neighbors[b]], absent when [a] is not in the store or has no such
    neighbor. *)
Definition nbr (s : Store) (a b : AS_ID) : option Relation :=
  asys ← dget a s; dget b (neighbors asys).

(** The part of the store no operation after construction writes to. *)
Definition links (s : Store) : dict AS_ID (AS_ID * dict AS_ID Relation) :=
  map (fun kv => (kv.1, (as_id kv.2, neighbors kv.2))) s.

(** Every AS object is held under its own number. *)
Definition keys_ok (s : Store) : Prop :=
  forall k a, dget k s = Some a -> as_id a = k.

(** The routing-table invariant of an AS graph. *)
Definition table_ok (s : Store) : Prop :=
  forall a asys d r,
    dget a s = Some asys -> routing_table asys !! d = Some r ->
    dest r = d /\ final r = Some a /\ NoDup (path r).

(** ** The neighbor links established by [ASGraph.__init__] *)

Definition mirror (r : Relation) : Relation :=
  match r with CUSTOMER => PROVIDER | PEER => PEER | PROVIDER => CUSTOMER end.

Record links_wf (s : Store) : Prop := {
  wf_keys : keys_ok s;
  wf_nodup : NoDup (dkeys s);
  wf_closed : forall a b r, nbr s a b = Some r -> is_Some (dget b s);
  wf_mirror : forall a b r, a <> b -> nbr s a b = Some r -> nbr s b a = Some (mirror r);
  wf_self : forall a, nbr s a a <> Some PROVIDER;
  wf_nbr_nodup : forall a asys, dget a s = Some asys -> NoDup (dkeys (neighbors asys));
}.

(** Both assignments of one branch of [__init__]: [as1.neighbors[as2] = r1]
    followed by [as2.neighbors[as1] = r2]. *)
Definition link (u v : AS_ID) (r1 r2 : Relation) (s : Store) : Store :=
  mutate v (fun as2 => with_neighbors as2 (dset u r2 (neighbors as2)))
    (mutate u (fun as1 => with_neighbors as1 (dset v r1 (neighbors as1))) s).

(** ** Scenarios *)

(** The line terminator the file iteration leaves on each line. *)
Definition nl : string := String (ascii_of_nat 10) EmptyString.

(** The format of a relationship line in the words of the spec:
    [\d+|\d+|(-1|0)], on the line without its terminator.  These two
    definitions follow the spec, not the loader. *)
Definition all_digits (s : string) : bool :=
  negb (bool_decide (s = EmptyString))
  && forallb is_digit (list_ascii_of_string s).

Definition spec_line_format (line : string) : bool :=
  match split "|"%char (rstrip line) with
  | [a; b; k] =>
      all_digits a && all_digits b
      && (bool_decide (k = "-1"%string) || bool_decide (k = "0"%string))
  | _ => false
  end.

(** Loading a file and building the graph with a policy. *)
Definition load (lines : list string) (pol : RoutingPolicy) : option ASGraph :=
  match parse_as_rel_file "as-rel.txt" lines with
  | Ok graph => ASGraph_init graph pol
  | _ => None
  end.

Definition or_empty (o : option ASGraph) : ASGraph :=
  default (mkASGraph [] DefaultPolicy) o.

(** The chain: 1 is a customer of 2, 2 is a customer of 3. *)
Definition chain_lines : list string :=
  [("2|1|-1" ++ nl)%string; ("3|2|-1" ++ nl)%string].

Definition chain_graph : nx_Graph :=
  match parse_as_rel_file "as-rel.txt" chain_lines with
  | Ok graph => graph
  | _ => nx_empty
  end.

Definition chain : ASGraph := or_empty (ASGraph_init chain_graph DefaultPolicy).

(** The chain with a fourth AS, a peer of 3. *)
Definition chain4_graph : nx_Graph :=
  match parse_as_rel_file "as-rel.txt"
          (chain_lines ++ [("3|4|0" ++ nl)%string]) with
  | Ok graph => graph
  | _ => nx_empty
  end.

Definition chain4 : ASGraph := or_empty (ASGraph_init chain4_graph DefaultPolicy).

(** A provider-to-customer line from an AS to itself. *)
Definition self_loop_graph : nx_Graph :=
  match parse_as_rel_file "as-rel.txt" [("5|5|-1" ++ nl)%string] with
  | Ok graph => graph
  | _ => nx_empty
  end.

(** The generator that always draws 0. *)
Definition rng0 : nat -> nat := fun _ => 0%nat.

(** The entry of [a]'s routing table for destination [d]. *)
Definition table_entry (g : ASGraph) (a d : AS_ID) : option Route :=
  asys ← get_asys g a; get_route asys d.

(** The chain with BGPsec enabled on 1 and 3, and not on 2. *)
Definition chain_bgpsec_1_3 : ASGraph :=
  set_bgp_sec_enabled 3 true (set_bgp_sec_enabled 1 true chain).

(** Policies under which accepted routes are loop free, as the route record
    requires of accepted routes. *)
Definition rejects_cycles (pol : RoutingPolicy) : Prop :=
  forall s r, accept_route pol s r = true -> contains_cycle r = false.

(** The loop invariant of a hijack of [victim] over [n] hops that starts
    from the store [s0]: every entry for the victim is the entry the same AS
    held in [s0], or is longer than the forged path. *)
Definition hop_inv (victim : AS_ID) (n : Z) (s0 s : Store) : Prop :=
  forall a asys r,
    dget a s = Some asys -> routing_table asys !! victim = Some r ->
    (asys0 ← dget a s0; routing_table asys0 !! victim) = Some r
    \/ n + 2 <= route_length r.

(** ** Directed graphs ([networkx.DiGraph])

    The nodes in insertion order, the ['reachable_from'] attribute of the
    nodes that carry one, and the successors of each node in insertion
    order.  Adding a node or an edge a second time changes nothing. *)

Section DiGraph.
Context {N : Type} `{Countable N}.

Record DiGraph := mkDiGraph {
  dg_nodes : list N;
  dg_attr : gmap N Z;
  dg_succ : gmap N (list N);
}.

Definition dg_empty : DiGraph := mkDiGraph [] ∅ ∅.

Definition successors (G : DiGraph) (n : N) : list N :=
  default [] (dg_succ G !! n).

Definition dg_add_node (n : N) (attr : option Z) (G : DiGraph) : DiGraph :=
  mkDiGraph
    (if bool_decide (n ∈ dg_nodes G) then dg_nodes G else dg_nodes G ++ [n])
    (match attr with Some a => <[n := a]> (dg_attr G) | None => dg_attr G end)
    (dg_succ G).

Definition dg_add_edge (u v : N) (G : DiGraph) : DiGraph :=
  let G := dg_add_node v None (dg_add_node u None G) in
  mkDiGraph (dg_nodes G) (dg_attr G)
    (<[u := if bool_decide (v ∈ successors G u) then successors G u
            else successors G u ++ [v]]> (dg_succ G)).

Definition edge (G : DiGraph) (x y : N) : Prop := y ∈ successors G x.

Definition in_degree (G : DiGraph) (n : N) : Z :=
  Z.of_nat (length (filter (fun m => n ∈ successors G m) (dg_nodes G))).

(** A path of at most [fuel] edges from [x] to [y]. *)
Fixpoint reaches (G : DiGraph) (fuel : nat) (x y : N) : bool :=
  bool_decide (x = y)
  || match fuel with
     | O => false
     | S fuel' => existsb (fun z => reaches G fuel' z y) (successors G x)
     end.

(** [networkx.ancestors(G, source)]: the nodes with a path to [source],
    [source] itself left out; [NetworkXError] when [source] is no node. *)
Definition ancestors (G : DiGraph) (source : N) : result (list N) :=
  if bool_decide (source ∈ dg_nodes G)
  then Ok (filter (fun n => n <> source /\ reaches G (length (dg_nodes G)) n source)
                  (dg_nodes G))
  else Raise NetworkXError.

(** [networkx.is_directed_acyclic_graph(G)]: no node lies on a cycle. *)
Definition is_directed_acyclic_graph (G : DiGraph) : bool :=
  forallb (fun x =>
      forallb (fun z => negb (reaches G (length (dg_nodes G)) z x))
              (successors G x))
    (dg_nodes G).

(** *** The topological traversal of [determine_reachability_all] *)

Record traversal := mkTraversal {
  reachable_from : gmap N Z;
  remaining_edges : gmap N Z;
  queue : list N;
}.

(** [for node in graph: remaining_edges[node] = graph.in_degree(node) ...] *)
Fixpoint count_in_edges (G : DiGraph) (nodes : list N)
    (remaining : gmap N Z) (q : list N) : gmap N Z * list N :=
  match nodes with
  | [] => (remaining, q)
  | node :: rest =>
      let remaining := <[node := in_degree G node]> remaining in
      if decide (remaining !! node = Some 0)
      then count_in_edges G rest (delete node remaining) (q ++ [node])
      else count_in_edges G rest remaining q
  end.

(** [for next_node in graph.successors(node): ...] *)
Fixpoint relax (node : N) (succs : list N) (t : traversal) : result traversal :=
  match succs with
  | [] => Ok t
  | next_node :: rest =>
      a ← of_option KeyError (reachable_from t !! next_node);
      b ← of_option KeyError (reachable_from t !! node);
      let attr := <[next_node := Z.lor a b]> (reachable_from t) in
      c ← of_option KeyError (remaining_edges t !! next_node);
      let remaining := <[next_node := c - 1]> (remaining_edges t) in
      if decide (remaining !! next_node = Some 0)
      then relax node rest
             (mkTraversal attr (delete next_node remaining) (queue t ++ [next_node]))
      else relax node rest (mkTraversal attr remaining (queue t))
  end.

(** [while queue: node = queue.popleft(); ...] *)
Fixpoint traverse (G : DiGraph) (fuel : nat) (t : traversal) : result traversal :=
  match queue t with
  | [] => Ok t
  | node :: q =>
      match fuel with
      | O => OutOfFuel
      | S fuel' =>
          t' ← relax node (successors G node)
                 (mkTraversal (reachable_from t) (remaining_edges t) q);
          traverse G fuel' t'
      end
  end.

(** The traversal from its initial state; every node is popped at most
    once, which bounds the loop by the number of nodes. *)
Definition topological_propagate (G : DiGraph) : result (gmap N Z) :=
  let '(remaining, q) := count_in_edges G (dg_nodes G) ∅ [] in
  t ← traverse G (length (dg_nodes G)) (mkTraversal (dg_attr G) remaining q);
  Ok (reachable_from t).

(** *** Paths, well-formed graphs and the traversal invariant *)

(** A walk from [x] to [y] through the nodes [l] ([y] last, [x] left out). *)
Fixpoint walk (G : DiGraph) (x : N) (l : list N) (y : N) : Prop :=
  match l with
  | [] => x = y
  | z :: l' => edge G x z /\ walk G z l' y
  end.

Definition wf_digraph (G : DiGraph) : Prop :=
  NoDup (dg_nodes G)
  /\ (forall x y, edge G x y -> x ∈ dg_nodes G /\ y ∈ dg_nodes G)
  /\ (forall x, NoDup (successors G x)).

Definition attr_total (G : DiGraph) : Prop :=
  forall x, x ∈ dg_nodes G -> is_Some (dg_attr G !! x).

Definition acyclic (G : DiGraph) : Prop := forall x, ~ tc (edge G) x x.

(** Bit [i] is set in the initial attribute of [x]. *)
Definition seed (G : DiGraph) (x : N) (i : Z) : Prop :=
  exists a, dg_attr G !! x = Some a /\ Z.testbit a i = true.

(** Bit [i] is set in the initial attribute of a node with a path to [x]. *)
Definition origins (G : DiGraph) (x : N) (i : Z) : Prop :=
  exists y, seed G y i /\ rtc (edge G) y x.

(** The in-edges of [x] from nodes outside [P]. *)
Definition pending (G : DiGraph) (P : list N) (x : N) : Z :=
  Z.of_nat (length (filter (fun m => x ∈ successors G m /\ m ∉ P) (dg_nodes G))).

(** The state of the traversal once the nodes [P] have been popped and
    their out-edges followed. *)
Record traversal_inv (G : DiGraph) (P : list N) (t : traversal) : Prop := {
  ti_nodup : NoDup (P ++ queue t);
  ti_nodes : forall x, x ∈ P ++ queue t -> x ∈ dg_nodes G;
  ti_queued : forall x,
    x ∈ dg_nodes G -> x ∈ P ++ queue t -> remaining_edges t !! x = None;
  ti_remaining : forall x,
    x ∈ dg_nodes G -> x ∉ P ++ queue t ->
    remaining_edges t !! x = Some (pending G P x) /\ 1 <= pending G P x;
  ti_preds : forall x p, x ∈ P ++ queue t -> edge G p x -> p ∈ P;
  ti_attr : forall x,
    x ∈ dg_nodes G ->
    exists a, reachable_from t !! x = Some a
      /\ forall i, Z.testbit a i = true <->
           seed G x i \/ exists p, p ∈ P /\ edge G p x /\ origins G p i;
}.
End DiGraph.
Arguments DiGraph N {_ _}.
Arguments traversal N {_ _}.

(** ** Reachability analysis *)

(** The sides ['l'] and ['r'] of the auxiliary graph. *)
Inductive Side := L | R.

#[export] Instance Side_eq_dec : EqDecision Side.
Proof. solve_decision. Defined.

#[export] Instance Side_countable : Countable Side :=
  inj_countable' (fun s => match s with L => false | R => true end)
                 (fun b : bool => if b then R else L)
                 (fun s => match s with L => eq_refl | R => eq_refl end).

Abbreviation Node := (Side * AS_ID)%type.

(** [1 << k]; a negative shift count raises [ValueError]. *)
Definition lshift1 (k : Z) : result Z :=
  if decide (k < 0) then Raise ValueError else Ok (Z.shiftl 1 k).

(** The first loop of [_build_reachability_graph]. *)
Fixpoint reachability_nodes (values : list AS) (graph : DiGraph Node)
    : result (DiGraph Node) :=
  match values with
  | [] => Ok graph
  | asys :: rest =>
      bit ← lshift1 (as_id asys);
      let graph := dg_add_node (L, as_id asys) (Some bit) graph in
      let graph := dg_add_node (R, as_id asys) (Some 0) graph in
      let graph := dg_add_edge (L, as_id asys) (R, as_id asys) graph in
      reachability_nodes rest graph
  end.

(** The edge one neighbor entry of [asys] adds. *)
Definition reachability_edge (asys : AS) (entry : AS_ID * Relation)
    : Node * Node :=
  match entry.2 with
  | CUSTOMER => ((R, as_id asys), (R, entry.1))
  | PEER => ((L, as_id asys), (R, entry.1))
  | PROVIDER => ((L, as_id asys), (L, entry.1))
  end.

(** The second loop of [_build_reachability_graph]. *)
Definition reachability_edges (values : list AS) (graph : DiGraph Node)
    : DiGraph Node :=
  fold_left (fun graph asys =>
      fold_left (fun graph entry =>
          let e := reachability_edge asys entry in dg_add_edge e.1 e.2 graph)
        (neighbors asys) graph)
    values graph.

Definition _build_reachability_graph (s : Store) : result (DiGraph Node) :=
  graph ← reachability_nodes (dvalues s) dg_empty;
  Ok (reachability_edges (dvalues s) graph).

(** [bin(x)] and [str.count]. *)
Fixpoint bin_digits (p : positive) : string :=
  match p with
  | xH => "1"
  | xO p' => bin_digits p' ++ "0"
  | xI p' => bin_digits p' ++ "1"
  end.

Definition bin (x : Z) : string :=
  match x with
  | Z0 => "0b0"
  | Zpos p => "0b" ++ bin_digits p
  | Zneg p => "-0b" ++ bin_digits p
  end.

Fixpoint count (c : ascii) (s : string) : Z :=
  match s with
  | EmptyString => 0
  | String c' s' => (if decide (c' = c) then 1 else 0) + count c s'
  end.

Definition bit_count (bitfield : Z) : Z := count "1"%char (bin bitfield).

Definition determine_reachability_one (g : ASGraph) (id : AS_ID) : result Z :=
  graph ← _build_reachability_graph (asyss g);
  anc ← ancestors graph (R, id);
  Ok (Z.of_nat (length (filter (fun n : Node => n.1 = L) anc))).

(** The dictionary comprehension that ends [determine_reachability_all]. *)
Fixpoint reachability_counts (attr : gmap Node Z) (ids : list AS_ID)
    (counts : dict AS_ID Z) : result (dict AS_ID Z) :=
  match ids with
  | [] => Ok counts
  | id :: rest =>
      bits ← of_option KeyError (attr !! (R, id));
      reachability_counts attr rest (dset id (bit_count bits) counts)
  end.

Definition determine_reachability_all (g : ASGraph) : result (dict AS_ID Z) :=
  graph ← _build_reachability_graph (asyss g);
  attr ← topological_propagate graph;
  reachability_counts attr (dkeys (asyss g)) [].

(** The customer graph of [any_customer_provider_cycles]. *)
Definition customer_graph (s : Store) : DiGraph AS_ID :=
  let graph :=
    fold_left (fun graph asys => dg_add_node (as_id asys) None graph)
              (dvalues s) dg_empty in
  fold_left (fun graph asys =>
      fold_left (fun graph entry =>
          if decide (entry.2 = CUSTOMER)
          then dg_add_edge (as_id asys) entry.1 graph else graph)
        (neighbors asys) graph)
    (dvalues s) graph.

Definition any_customer_provider_cycles (g : ASGraph) : bool :=
  negb (is_directed_acyclic_graph (customer_graph (asyss g))).

(** The customer-provider cycle 1 -> 2 -> 3 -> 1. *)
Definition cycle_graph : nx_Graph :=
  match parse_as_rel_file "as-rel.txt"
          [("1|2|-1" ++ nl)%string; ("2|3|-1" ++ nl)%string;
           ("3|1|-1" ++ nl)%string] with
  | Ok graph => graph
  | _ => nx_empty
  end.

Definition cycle3 : ASGraph := or_empty (ASGraph_init cycle_graph DefaultPolicy).

(** The edges of the auxiliary graph, read off the store. *)
Definition reach_edge (s : Store) (x y : Node) : Prop :=
  (exists a, a ∈ dkeys s /\ x = (L, a) /\ y = (R, a))
  \/ (exists a b, nbr s a b = Some CUSTOMER /\ x = (R, a) /\ y = (R, b))
  \/ (exists a b, nbr s a b = Some PEER /\ x = (L, a) /\ y = (R, b))
  \/ (exists a b, nbr s a b = Some PROVIDER /\ x = (L, a) /\ y = (L, b)).

(** The two nodes of an AS, in the order they are added. *)
Definition side_nodes (a : AS_ID) : list Node := [(L, a); (R, a)].

(** The positions of the digits ['1'] of [bin_digits p], counted from the
    right. *)
Fixpoint set_bits (p : positive) : list Z :=
  match p with
  | xH => [0]
  | xO p' => Z.succ <$> set_bits p'
  | xI p' => 0 :: (Z.succ <$> set_bits p')
  end.

From Stdlib Require Import Sorted.

(** ** Further operations and predicates *)

(** A path that follows neighbor links: every AS on it has the next one in
    its neighbor table. *)
Fixpoint linked (s : Store) (p : list AS_ID) : Prop :=
  match p with
  | x :: p' => match p' with
               | y :: _ => is_Some (nbr s x y) /\ linked s p'
               | [] => True end
  | [] => True
  end.

(** A route as an honest origin announces it and honest ASes forward it:
    it starts at the AS that owns the destination, carries no invalidity
    flag and follows neighbor links. *)
Definition legit (s : Store) (r : Route) : Prop :=
  origin r = Some (dest r) /\ origin_invalid r = false
  /\ path_end_invalid r = false /\ linked s (path r).

Definition tables_legit (g : ASGraph) : Prop :=
  forall a d r, table_entry g a d = Some r -> legit (asyss g) r.

(** The pairs the reachability analysis counts: from [u] up through
    providers, across at most one peer link, down through customers to
    [v]. *)
Definition valley_free (s : Store) (u v : AS_ID) : Prop :=
  exists a b,
    rtc (fun x y => nbr s x y = Some PROVIDER) u a
    /\ (a = b \/ nbr s a b = Some PEER)
    /\ rtc (fun x y => nbr s x y = Some CUSTOMER) b v.

(** What networkx keeps true of a [Graph] (one adjacency entry per node,
    every edge held under both endpoints with the same attribute), and the
    loader of the ['customer'] attribute (an endpoint of the edge). *)
Record nx_wf (G : nx_Graph) : Prop := {
  nx_keys : dkeys (nx_adj G) = nx_nodes G;
  nx_nodup : NoDup (nx_nodes G);
  nx_closed : forall a b, is_Some (edge_customer G a b) -> b ∈ nx_nodes G;
  nx_sym : forall a b, edge_customer G a b = edge_customer G b a;
  nx_cust : forall a b c, edge_customer G a b = Some (Some c) -> c = a \/ c = b;
  nx_inner : forall a nbrs, dget a (nx_adj G) = Some nbrs -> NoDup (dkeys nbrs);
}.

(** The relation under which [ASGraph.__init__] enters [b] in the neighbor
    table of the other endpoint of an edge with attribute [customer]. *)
Definition relation_of (b : AS_ID) (customer : option AS_ID) : Relation :=
  match customer with
  | None => PEER
  | Some c => if decide (c = b) then CUSTOMER else PROVIDER
  end.

(** The three integers of a relationship line, as the loader reads them. *)
Definition line_fields (line : string) : option (AS_ID * AS_ID * Z) :=
  if startswith_hash line then None
  else match int <$> split "|"%char line with
       | [Some as1; Some as2; Some rel] => Some (as1, as2, rel)
       | _ => None
       end.

(** The AS numbers of the relationship lines of a file, in the order in
    which the file names them. *)
Definition line_numbers (lines : list string) : list AS_ID :=
  flat_map (fun line => match line_fields line with
                        | Some (as1, as2, _) => [as1; as2]
                        | None => []
                        end)
           lines.

(** A list without its repetitions, every element where it first appears. *)
Fixpoint first_appearances (l : list AS_ID) : list AS_ID :=
  match l with
  | [] => []
  | a :: l' => a :: filter (fun x => x <> a) (first_appearances l')
  end.

(** The line is a relationship line for the pair [a], [b], in either order. *)
Definition names (a b : AS_ID) (line : string) : Prop :=
  exists as1 as2 rel,
    line_fields line = Some (as1, as2, rel)
    /\ ((as1 = a /\ as2 = b) \/ (as1 = b /\ as2 = a)).

(** ** Neighbor counts, providers and top ISPs *)

(** The loop of [AS.neighbor_counts_by_relation]: [counts[relation] += 1]. *)
Fixpoint count_relations (relations : list Relation) (counts : dict Relation Z)
    : result (dict Relation Z) :=
  match relations with
  | [] => Ok counts
  | relation :: rest =>
      c ← of_option KeyError (dget relation counts);
      count_relations rest (dset relation (c + 1) counts)
  end.

Definition neighbor_counts_by_relation (self : AS) : result (dict Relation Z) :=
  count_relations (dvalues (neighbors self))
                  (map (fun relation => (relation, 0)) Relation_members).

(** The loop of [ASGraph.get_providers]. *)
Fixpoint collect_providers (s : Store) (ids : list AS_ID)
    (providers : gset AS_ID) : result (gset AS_ID) :=
  match ids with
  | [] => Ok providers
  | id :: rest =>
      asys ← of_option KeyError (dget id s);
      collect_providers s rest
        (fold_left (fun providers p_id => providers ∪ {[p_id]})
                   (get_providers asys) providers)
  end.

(** [ASGraph.get_providers]: the set [providers]; the list the method
    makes of it enumerates the set in an order Python does not specify. *)
Definition ASGraph_get_providers (g : ASGraph) (ids : list AS_ID)
    : result (gset AS_ID) :=
  collect_providers (asyss g) ids ∅.

(** [list.sort(key=...)]: a stable sort by ascending key. *)
Fixpoint insert_by {A} (key : A -> Z) (x : A) (l : list A) : list A :=
  match l with
  | [] => [x]
  | y :: l' => if decide (key x <= key y) then x :: l else y :: insert_by key x l'
  end.

Definition sort_by {A} (key : A -> Z) (l : list A) : list A :=
  foldr (insert_by key) [] l.

(** The slice [l[:n]]: a negative [n] counts from the end. *)
Definition slice_to {A} (n : Z) (l : list A) : list A :=
  if decide (0 <= n) then take (Z.to_nat n) l
  else take (length l - Z.to_nat (- n)) l.

(** [ASGraph.identify_top_isps]: each AS is paired with its counts, the
    sort key of a pair is computed once, and the pairs are sorted on it. *)
Definition identify_top_isps (g : ASGraph) (n : Z) : result (list AS) :=
  isps ← mapM (fun asys => counts ← neighbor_counts_by_relation asys;
                           Ok (asys, counts))
              (dvalues (asyss g));
  keyed ← mapM (fun pair => c ← of_option KeyError (dget CUSTOMER pair.2);
                            Ok (pair, - c))
               isps;
  Ok (map (fun kp => kp.1.1) (slice_to n (sort_by snd keyed))).

(** The sum of [asyss_by_customer_count] for one node. *)
Definition customer_count (graph : nx_Graph) (node : AS_ID) : result Z :=
  nbrs ← of_option KeyError (dget node (nx_adj graph));
  Ok (Z.of_nat (length (List.filter (fun kv => bool_decide (kv.2 = Some kv.1))
                                    nbrs))).

(** [asyss_by_customer_count]: the nodes the generator yields, in order,
    when it is run to its end; [KeyError] where a lookup in the graph would
    raise on the way. *)
Fixpoint select_by_customer_count (graph : nx_Graph) (nodes : list AS_ID)
    (min_count : Z) (max_count : option Z) : result (list AS_ID) :=
  match nodes with
  | [] => Ok []
  | node :: rest =>
      c ← customer_count graph node;
      yielded ← select_by_customer_count graph rest min_count max_count;
      Ok (if (min_count <=? c)
             && match max_count with None => true | Some m => m >=? c end
          then node :: yielded else yielded)
  end.

Definition asyss_by_customer_count (graph : nx_Graph) (min_count : Z)
    (max_count : option Z) : result (list AS_ID) :=
  select_by_customer_count graph (nx_nodes graph) min_count max_count.

(** The number of neighbors an AS holds under a relation. *)
Definition count_relation (rel : Relation) (d : dict AS_ID Relation) : Z :=
  Z.of_nat (length (List.filter (fun kv => bool_decide (kv.2 = rel)) d)).

Definition customers (asys : AS) : Z := count_relation CUSTOMER (neighbors asys).

(** ** Further scenarios *)

(** A file with a negative AS number: 3 is a customer of -5. *)
Definition negative_graph : nx_Graph :=
  match parse_as_rel_file "as-rel.txt" [("-5|3|-1" ++ nl)%string] with
  | Ok graph => graph
  | _ => nx_empty
  end.

Definition negative : ASGraph :=
  or_empty (ASGraph_init negative_graph DefaultPolicy).

(** ** Valley-free routing *)

(** The export rule of valley-free routing: only a route learned from a
    customer is exported to a peer or a provider. *)
Definition exports_valley_free (pol : RoutingPolicy) : Prop :=
  forall s r rel,
    forward_to pol s r rel = true ->
    learned_from s r = Some CUSTOMER \/ rel = CUSTOMER.

(** The hops of a path are all of one kind: every AS after the first holds
    the AS before it, from which it learned the route, under [rel]. *)
Fixpoint hops (s : Store) (rel : Relation) (p : list AS_ID) : Prop :=
  match p with
  | x :: p' => match p' with
               | y :: _ => nbr s y x = Some rel /\ hops s rel p'
               | [] => True end
  | [] => True
  end.

(** A valley-free path, read from the origin to the AS that holds the
    route: a part that only climbs (every AS learned the route from a
    customer), then a part that only descends (every AS learned it from a
    provider), the two joined by a hop across a peer link or by a hop
    down. *)
Definition valley_free_path (s : Store) (p : list AS_ID) : Prop :=
  exists up down,
    p = up ++ down /\ hops s CUSTOMER up /\ hops s PROVIDER down
    /\ match last up, head down with
       | Some x, Some y => nbr s y x = Some PEER \/ nbr s y x = Some PROVIDER
       | _, _ => True
       end.

(** The tables hold valley-free routes only: the path of every entry runs
    from the AS of the destination to the AS that holds the entry and is
    valley-free. *)
Definition tables_valley_free (g : ASGraph) : Prop :=
  forall a d r,
    table_entry g a d = Some r ->
    origin r = Some d /\ final r = Some a /\ valley_free_path (asyss g) (path r).

(** A queued route, if loop free, starts at the AS of its destination and
    is valley-free; one that its last AS learned from a customer has only
    climbed. *)
Definition route_valley_free (s : Store) (r : Route) : Prop :=
  NoDup (path r) ->
  origin r = Some (dest r)
  /\ valley_free_path s (path r)
  /\ (learned_from s r = Some CUSTOMER -> hops s CUSTOMER (path r)).

(** ** Termination of the propagation *)

(** A ranking of the routes of a policy on a graph: among the routes
    through ASes of the graph, one that the policy accepts ranks below
    [bound], and one that it prefers to another ranks below that one. *)
Definition ranked (pol : RoutingPolicy) (s : Store) (rank : Route -> nat)
    (bound : nat) : Prop :=
  forall s' current new,
    links s' = links s -> path new ⊆ dkeys s ->
    accept_route pol s' new = true ->
    (rank new < bound)%nat
    /\ (prefer_route pol s' current new = true -> (rank new < rank current)%nat).

(** The rank of the entry an AS holds for [target]; no entry ranks as
    [bound]. *)
Definition entry_rank (rank : Route -> nat) (bound : nat) (target : AS_ID)
    (asys : AS) : nat :=
  match routing_table asys !! target with
  | Some r => rank r
  | None => bound
  end.

Definition potential (rank : Route -> nat) (bound : nat) (target : AS_ID)
    (s : Store) : nat :=
  sum_list_with (fun kv => entry_rank rank bound target kv.2) s.

Definition degree_sum (s : Store) : nat :=
  sum_list_with (fun kv => length (neighbors kv.2)) s.

(** The routes the loop of [find_routes_to(target)] holds in its queue. *)
Definition queued (s : Store) (target : AS_ID) (r : Route) : Prop :=
  dest r = target /\ path r ⊆ dkeys s /\ is_Some (final r).

(** The number of ASes of the graph with a number below that of [h]. *)
Definition before (s : Store) (h : option AS_ID) : nat :=
  match h with
  | Some h => length (filter (fun k => k < h) (dkeys s))
  | None => 0
  end.

(** A ranking for [DefaultPolicy]: by length, then by the relation to the
    next hop, then by the next hop's number. *)
Definition DefaultPolicy_rank (s : Store) (r : Route) : nat :=
  (length (path r) * (4 * S (length (dkeys s)))
   + Z.to_nat (relation_rank (learned_from s r) - 1) * S (length (dkeys s))
   + before s (first_hop r))%nat.

(** * Properties *)

(** ** Dictionaries *)

Section DictFacts.
Context {K V : Type} `{EqDecision K}.
Implicit Types (k : K) (v : V) (d : dict K V).

Lemma dget_dset_eq k v d : dget k (dset k v d) = Some v.
Proof.
  induction d as [|[k' v'] d IH]; simpl.
  - by rewrite decide_True.
  - destruct (decide (k = k')); simpl.
    + by rewrite decide_True.
    + by rewrite decide_False.
Qed.

Lemma dget_dset_ne k k' v d : k <> k' -> dget k' (dset k v d) = dget k' d.
Proof.
  intros Hne. induction d as [|[k0 v0] d IH]; simpl.
  - by rewrite decide_False.
  - destruct (decide (k = k0)) as [->|]; simpl.
    + by rewrite !decide_False.
    + destruct (decide (k' = k0)); done.
Qed.

Lemma dget_dset k k' v d :
  dget k' (dset k v d) = if decide (k = k') then Some v else dget k' d.
Proof.
  destruct (decide (k = k')) as [->|].
  - apply dget_dset_eq.
  - by apply dget_dset_ne.
Qed.

Lemma dget_Some_keys k v d : dget k d = Some v -> k ∈ dkeys d.
Proof.
  induction d as [|[k' v'] d IH]; simpl; [done|].
  destruct (decide (k = k')) as [->|]; intros.
  - left.
  - right. auto.
Qed.

Lemma dget_Some_elem k v d : dget k d = Some v -> (k, v) ∈ d.
Proof.
  induction d as [|[k' v'] d IH]; simpl; [done|].
  destruct (decide (k = k')) as [->|]; intros.
  - simplify_eq. left.
  - right. auto.
Qed.

Lemma dkeys_dget k d : k ∈ dkeys d -> is_Some (dget k d).
Proof.
  induction d as [|[k' v'] d IH]; simpl.
  - by intros ?%elem_of_nil.
  - intros [->|Hin]%elem_of_cons.
    + rewrite decide_True; eauto.
    + destruct (decide (k = k')); eauto.
Qed.

Lemma dget_None_keys k d : dget k d = None <-> k ∉ dkeys d.
Proof.
  split.
  - intros Hn Hin. apply dkeys_dget in Hin as [v Hv]. congruence.
  - intros Hn. destruct (dget k d) eqn:E; [|done].
    by apply dget_Some_keys in E.
Qed.

Lemma dkeys_dset_present k v d :
  k ∈ dkeys d -> dkeys (dset k v d) = dkeys d.
Proof.
  induction d as [|[k' v'] d IH]; simpl.
  - by intros ?%elem_of_nil.
  - intros Hin. destruct (decide (k = k')) as [->|]; simpl; [done|].
    f_equal. apply IH. apply elem_of_cons in Hin as [?|?]; done.
Qed.

Lemma dkeys_dset_absent k v d :
  k ∉ dkeys d -> dkeys (dset k v d) = dkeys d ++ [k].
Proof.
  induction d as [|[k' v'] d IH]; simpl; [done|].
  intros Hn. apply not_elem_of_cons in Hn as [? ?].
  rewrite decide_False by done. simpl. f_equal. auto.
Qed.

Lemma elem_of_dkeys_dset k k' v d :
  k' ∈ dkeys (dset k v d) <-> k' = k \/ k' ∈ dkeys d.
Proof.
  destruct (decide (k ∈ dkeys d)) as [Hin|Hn].
  - rewrite dkeys_dset_present by done. split; [auto|].
    intros [->|?]; done.
  - rewrite dkeys_dset_absent, elem_of_app, list_elem_of_singleton by done.
    tauto.
Qed.

Lemma NoDup_dkeys_dset k v d : NoDup (dkeys d) -> NoDup (dkeys (dset k v d)).
Proof.
  intros Hnd. destruct (decide (k ∈ dkeys d)) as [Hin|Hn].
  - by rewrite dkeys_dset_present.
  - rewrite dkeys_dset_absent by done. apply NoDup_app. split; [done|].
    split; [|apply NoDup_singleton].
    intros x Hx ->%list_elem_of_singleton. done.
Qed.

Lemma dget_elem_NoDup k v d : NoDup (dkeys d) -> (k, v) ∈ d -> dget k d = Some v.
Proof.
  induction d as [|[k' v'] d IH]; simpl.
  - by intros _ ?%elem_of_nil.
  - intros [Hn Hnd]%NoDup_cons [Heq|Hin]%elem_of_cons.
    + simplify_eq. by rewrite decide_True.
    + destruct (decide (k = k')) as [->|]; [|auto].
      exfalso. apply Hn. apply list_elem_of_fmap. by exists (k', v).
Qed.
End DictFacts.

(** ** The store under the operations *)

Section StoreFacts.
Implicit Types (s : Store) (k : AS_ID).

Lemma dget_links k s :
  dget k (links s) = (fun a => (as_id a, neighbors a)) <$> dget k s.
Proof.
  induction s as [|[k' a'] s IH]; simpl; [done|].
  destruct (decide (k = k')); done.
Qed.

Lemma dkeys_links s : dkeys (links s) = dkeys s.
Proof. unfold dkeys, links. rewrite map_map. done. Qed.

Lemma links_dset k a a' s :
  dget k s = Some a -> as_id a' = as_id a -> neighbors a' = neighbors a ->
  links (dset k a' s) = links s.
Proof.
  intros Hget Hid Hn. induction s as [|[k0 a0] s IH]; simpl in *; [done|].
  destruct (decide (k = k0)) as [->|]; simpl.
  - simplify_eq. by rewrite Hid, Hn.
  - f_equal. auto.
Qed.

Lemma links_mutate k f s :
  (forall a, as_id (f a) = as_id a /\ neighbors (f a) = neighbors a) ->
  links (mutate k f s) = links s.
Proof.
  intros Hf. unfold mutate. destruct (dget k s) as [a|] eqn:E; [|done].
  eapply links_dset; [done|apply Hf..].
Qed.

Lemma nbr_links s s' a b : links s = links s' -> nbr s a b = nbr s' a b.
Proof.
  intros Hl. unfold nbr.
  pose proof (dget_links a s) as H1. pose proof (dget_links a s') as H2.
  rewrite Hl in H1. rewrite H1 in H2.
  destruct (dget a s), (dget a s'); simpl in *; simplify_eq; congruence.
Qed.

Lemma keys_ok_links s s' : links s = links s' -> keys_ok s -> keys_ok s'.
Proof.
  intros Hl Hk k a Hget.
  pose proof (dget_links k s) as H1. pose proof (dget_links k s') as H2.
  rewrite Hl in H1. rewrite H1, Hget in H2.
  destruct (dget k s) as [a0|] eqn:E; simpl in *; simplify_eq.
  rewrite <- (Hk _ _ E). congruence.
Qed.

Lemma dkeys_eq_links s s' : links s = links s' -> dkeys s = dkeys s'.
Proof. intros Hl. by rewrite <- (dkeys_links s), Hl, dkeys_links. Qed.

Lemma dget_mutate k k' f s :
  dget k' (mutate k f s) = if decide (k = k') then f <$> dget k' s else dget k' s.
Proof.
  unfold mutate. destruct (decide (k = k')) as [->|Hne].
  - destruct (dget k' s) eqn:E; simpl; [apply dget_dset_eq|done].
  - destruct (dget k s); [by apply dget_dset_ne|done].
Qed.

Lemma dget_map_values (f : AS -> AS) k s :
  dget k (map (fun kv => (kv.1, f kv.2)) s) = f <$> dget k s.
Proof.
  induction s as [|[k0 a0] s IH]; simpl; [done|].
  destruct (decide (k = k0)); done.
Qed.

Lemma links_map_values (f : AS -> AS) s :
  (forall a, as_id (f a) = as_id a /\ neighbors (f a) = neighbors a) ->
  links (map (fun kv => (kv.1, f kv.2)) s) = links s.
Proof.
  intros Hf. unfold links. rewrite map_map. apply map_ext.
  intros [k a]; simpl. by destruct (Hf a) as [-> ->].
Qed.

(** What [learn_route] does to the store: nothing, or the installation of
    the route in the routing table of [self]. *)
Lemma learn_route_store pol s self route :
  (learn_route pol s self route).1 = s \/
  (dest route <> as_id self /\ accept_route pol s route = true /\
   (learn_route pol s self route).1 =
     dset (as_id self)
          (with_routing_table self (<[dest route := route]> (routing_table self)))
          s).
Proof.
  unfold learn_route.
  destruct (decide (dest route = as_id self)); [by left|].
  destruct (accept_route pol s route) eqn:Hacc; simpl; [|by left].
  destruct (match routing_table self !! dest route with
            | Some current => negb (prefer_route pol s current route)
            | None => false end); [by left|].
  right. done.
Qed.

Lemma learn_route_links pol s k self route :
  keys_ok s -> dget k s = Some self ->
  links (learn_route pol s self route).1 = links s.
Proof.
  intros Hk Hget.
  destruct (learn_route_store pol s self route) as [->|(_ & _ & ->)]; [done|].
  rewrite (Hk _ _ Hget). by eapply links_dset.
Qed.

Lemma propagate_links fuel pol : forall s routes,
  keys_ok s -> links (propagate fuel pol s routes).2 = links s.
Proof.
  induction fuel as [|fuel IH]; intros s routes Hk; destruct routes as [|route rest];
    simpl; try done.
  destruct (final route ≫= _) as [asys|] eqn:Hfin; [|done].
  apply bind_Some in Hfin as (k & _ & Hget).
  pose proof (learn_route_links pol s k asys route Hk Hget) as Hl.
  destruct (learn_route pol s asys route) as [s' nbs]; simpl in *.
  destruct (mapM _ nbs); simpl; [|done].
  rewrite IH; [done|]. by eapply keys_ok_links.
Qed.
End StoreFacts.

Lemma clear_links g : links (asyss (clear_routing_tables g)) = links (asyss g).
Proof. apply links_map_values. done. Qed.

Lemma flag_links id b g :
  links (asyss (set_bgp_sec_enabled id b g)) = links (asyss g).
Proof. apply links_mutate. done. Qed.

Lemma find_routes_to_links fuel g target :
  keys_ok (asyss g) -> links (asyss (find_routes_to fuel g target).2) = links (asyss g).
Proof.
  intros Hk. unfold find_routes_to. destruct (dget target (asyss g)); [|done].
  pose proof (propagate_links fuel (policy g) (asyss g)
    (map (originate_route a) (dkeys (neighbors a))) Hk) as Hl.
  destruct (propagate _ _ _ _); done.
Qed.

Lemma hijack_n_hops_links fuel rng g victim attacker n :
  keys_ok (asyss g) ->
  links (asyss (hijack_n_hops fuel rng g victim attacker n).2) = links (asyss g).
Proof.
  intros Hk. unfold hijack_n_hops.
  destruct (hijack_route _ _ _ _ _) as [bad| |]; try done.
  destruct (dget attacker (asyss g)); [|done].
  destruct (mapM _ _) as [hops|]; [|done].
  pose proof (propagate_links fuel (policy g) (asyss g)
    (map (forward_route bad) hops) Hk) as Hl.
  destruct (propagate _ _ _ _); done.
Qed.

Lemma policy_find fuel g target : policy (find_routes_to fuel g target).2 = policy g.
Proof.
  unfold find_routes_to. destruct (dget _ _); [|done].
  destruct (propagate _ _ _ _); done.
Qed.

Lemma policy_hijack fuel rng g v a n :
  policy (hijack_n_hops fuel rng g v a n).2 = policy g.
Proof.
  unfold hijack_n_hops. destruct (hijack_route _ _ _ _ _); try done.
  destruct (dget _ _); [|done]. destruct (mapM _ _); [|done].
  destruct (propagate _ _ _ _); done.
Qed.

(** ** Links after construction *)

Section InitFacts.
Implicit Types (s : Store).

Lemma nbr_mutate u v r s a b :
  is_Some (dget u s) ->
  nbr (mutate u (fun x => with_neighbors x (dset v r (neighbors x))) s) a b =
  if decide (a = u /\ b = v) then Some r else nbr s a b.
Proof.
  intros [x Hx]. unfold nbr. rewrite dget_mutate.
  destruct (decide (u = a)) as [->|Hne].
  - rewrite Hx. simpl. rewrite dget_dset.
    destruct (decide (v = b)) as [->|]; case_decide; naive_solver.
  - case_decide; naive_solver.
Qed.

Lemma dget_mutate_is_Some u f s k :
  is_Some (dget k (mutate u f s)) <-> is_Some (dget k s).
Proof.
  rewrite dget_mutate. case_decide; [|done].
  by rewrite fmap_is_Some.
Qed.

Lemma dkeys_mutate u f s : dkeys (mutate u f s) = dkeys s.
Proof.
  unfold mutate. destruct (dget u s) eqn:E; [|done].
  apply dkeys_dset_present. by eapply dget_Some_keys.
Qed.

Lemma nbr_link u v r1 r2 s a b :
  is_Some (dget u s) -> is_Some (dget v s) ->
  nbr (link u v r1 r2 s) a b =
  if decide (a = v /\ b = u) then Some r2
  else if decide (a = u /\ b = v) then Some r1 else nbr s a b.
Proof.
  intros Hu Hv. unfold link.
  rewrite nbr_mutate by (by apply dget_mutate_is_Some).
  by rewrite nbr_mutate.
Qed.

Lemma keys_ok_mutate u f s :
  (forall x, as_id (f x) = as_id x) -> keys_ok s -> keys_ok (mutate u f s).
Proof.
  intros Hf Hk k x. rewrite dget_mutate. case_decide; [|apply Hk].
  intros (y & Hy & ->)%fmap_Some. rewrite Hf. by apply Hk.
Qed.

Lemma links_wf_link u v r1 r2 s :
  is_Some (dget u s) -> is_Some (dget v s) ->
  r2 = mirror r1 -> (u = v -> r2 <> PROVIDER) ->
  links_wf s -> links_wf (link u v r1 r2 s).
Proof.
  intros Hu Hv Hm Hself [Hk Hnd Hcl Hmi Hse Hnn]. split.
  - unfold link. by do 2 (apply keys_ok_mutate; [done|]).
  - unfold link. by rewrite !dkeys_mutate.
  - intros a b r. rewrite nbr_link by done. unfold link.
    rewrite !dget_mutate_is_Some. repeat case_decide; naive_solver.
  - intros a b r Hne. rewrite !nbr_link by done.
    repeat case_decide; intros Heq; try (by apply Hmi);
      destruct_and?; simplify_eq; try (by destruct r1); naive_solver.
  - intros a. rewrite nbr_link by done.
    repeat case_decide; naive_solver.
  - intros a x. unfold link. rewrite !dget_mutate.
    assert (forall k (r : Relation) (y : AS), NoDup (dkeys (neighbors y)) ->
      NoDup (dkeys (neighbors (with_neighbors y (dset k r (neighbors y)))))) as Hstep.
    { intros k r y Hy. simpl. by apply NoDup_dkeys_dset. }
    repeat case_decide; simplify_eq.
    + intros (y & (z & Hz & ->)%fmap_Some & ->)%fmap_Some.
      apply Hstep, Hstep. eauto.
    + intros (y & Hy & ->)%fmap_Some. apply Hstep. eauto.
    + intros (y & Hy & ->)%fmap_Some. apply Hstep. eauto.
    + eauto.
Qed.

Lemma links_wf_init_edge graph s e s' :
  init_edge graph s e = Some s' -> links_wf s -> links_wf s'.
Proof.
  destruct e as [u v]. unfold init_edge. intros Hinit Hwf.
  destruct (dget u s) as [x|] eqn:Hu; simpl in Hinit; [|done].
  destruct (dget v s) as [y|] eqn:Hv; simpl in Hinit; [|done].
  destruct (edge_customer graph u v) as [[c|]|]; simpl in Hinit; [| |done].
  - repeat case_decide; simplify_eq.
    + apply (links_wf_link u v PROVIDER CUSTOMER); eauto; done.
    + apply (links_wf_link u v CUSTOMER PROVIDER); eauto; done.
    + done.
  - simplify_eq. apply (links_wf_link u v PEER PEER); eauto; done.
Qed.

Lemma links_wf_init_edges graph es : forall s s',
  init_edges graph s es = Some s' -> links_wf s -> links_wf s'.
Proof.
  induction es as [|e es IH]; simpl; intros s s' Hinit Hwf.
  - by simplify_eq.
  - destruct (init_edge graph s e) as [s1|] eqn:He; simpl in Hinit; [|done].
    eapply IH; [done|]. by eapply links_wf_init_edge.
Qed.

Lemma links_wf_add_node id s :
  links_wf s -> (forall a b, nbr s a b = None) ->
  links_wf (dset id (AS_init id) s) /\
  (forall a b, nbr (dset id (AS_init id) s) a b = None).
Proof.
  intros [Hk Hnd Hcl Hmi Hse Hnn] Hnone.
  assert (forall a b, nbr (dset id (AS_init id) s) a b = None) as Hnone'.
  { intros a b. unfold nbr. rewrite dget_dset. case_decide; [done|].
    apply Hnone. }
  split; [|done]. split.
  - intros k x. rewrite dget_dset. case_decide; [|apply Hk].
    intros; by simplify_eq.
  - by apply NoDup_dkeys_dset.
  - intros a b r. by rewrite Hnone'.
  - intros a b r _. by rewrite Hnone'.
  - intros a. by rewrite Hnone'.
  - intros a x. rewrite dget_dset. case_decide; [|apply Hnn].
    intros; simplify_eq. simpl. apply NoDup_nil_2.
Qed.

Lemma links_wf_init_nodes nodes : links_wf (init_nodes nodes).
Proof.
  unfold init_nodes.
  enough (forall s, links_wf s -> (forall a b, nbr s a b = None) ->
    links_wf (fold_left (fun s id => dset id (AS_init id) s) nodes s)) as H.
  { apply H; [|done]. split; try done. apply NoDup_nil_2. }
  induction nodes as [|id nodes IH]; simpl; intros s Hwf Hnone; [done|].
  destruct (links_wf_add_node id s Hwf Hnone). by apply IH.
Qed.

Lemma ASGraph_init_wf graph pol g :
  ASGraph_init graph pol = Some g -> links_wf (asyss g) /\ policy g = pol.
Proof.
  unfold ASGraph_init. intros (s & Hs & ?)%bind_Some. simplify_eq. simpl.
  split; [|done]. eapply links_wf_init_edges; [done|].
  apply links_wf_init_nodes.
Qed.

Lemma links_wf_links s s' : links s = links s' -> links_wf s -> links_wf s'.
Proof.
  intros Hl [Hk Hnd Hcl Hmi Hse Hnn]. split.
  - by eapply keys_ok_links.
  - by rewrite <- (dkeys_eq_links _ _ Hl).
  - intros a b r. rewrite <- (nbr_links _ _ a b Hl). intros H%Hcl.
    destruct H as [x Hx]. pose proof (dget_links b s) as H1.
    rewrite Hl, dget_links, Hx in H1. destruct (dget b s'); [eauto|done].
  - intros a b r. rewrite <- !(nbr_links _ _ _ _ Hl). apply Hmi.
  - intros a. rewrite <- !(nbr_links _ _ _ _ Hl). apply Hse.
  - intros a x Hx. pose proof (dget_links a s) as H1.
    rewrite Hl, dget_links, Hx in H1.
    destruct (dget a s) as [y|] eqn:Hy; simpl in H1; [|done].
    injection H1 as _ ->. eauto.
Qed.
End InitFacts.

(** Every reachable state carries the links of the constructed graph, and its
    policy. *)
Lemma reachable_wf graph pol g :
  reachable graph pol g -> links_wf (asyss g) /\ policy g = pol.
Proof.
  induction 1 as [g Hinit|g _ [IH1 IH2]|g id b _ [IH1 IH2]
                 |g fuel target _ [IH1 IH2]|g fuel rng v a n _ [IH1 IH2]].
  - by apply (ASGraph_init_wf graph).
  - split; [|done]. eapply links_wf_links; [|done]. symmetry. apply clear_links.
  - split; [|done]. eapply links_wf_links; [|done]. symmetry. apply flag_links.
  - split; [|by rewrite policy_find].
    eapply links_wf_links; [|done]. symmetry. apply find_routes_to_links, IH1.
  - split; [|by rewrite policy_hijack].
    eapply links_wf_links; [|done]. symmetry. apply hijack_n_hops_links, IH1.
Qed.

(** ** Self-routes *)

(** C10: [reset_routing_table] leaves exactly the self-route in the table,
    with [authenticated = true] and both invalidity flags false; the
    [bgp_sec_enabled] flag of the AS is neither read nor changed, so the
    self-route of an AS without BGPsec reads as authenticated too. *)
Theorem reset_routing_table_self_route (a : AS) :
  routing_table (reset_routing_table a)
    = {[ as_id a := mkRoute (as_id a) [as_id a] false false true ]}
  /\ bgp_sec_enabled (reset_routing_table a) = bgp_sec_enabled a
  /\ (bgp_sec_enabled a = false ->
      authenticated <$> get_route (reset_routing_table a) (as_id a) = Some true).
Proof.
  split; [|split].
  - unfold reset_routing_table. simpl. apply insert_empty.
  - done.
  - intros _. unfold get_route, reset_routing_table. simpl.
    by rewrite lookup_insert_eq.
Qed.

Lemma reset_routing_table_self_route_witness :
  authenticated <$> get_route (reset_routing_table (AS_init 7)) 7 = Some true.
Proof.
  apply (reset_routing_table_self_route (AS_init 7)). reflexivity.
Defined.

(** ** The loader *)

Lemma parse_lines_app filename pre post graph :
  parse_lines filename (pre ++ post) graph =
  graph' ← parse_lines filename pre graph; parse_lines filename post graph'.
Proof.
  revert graph. induction pre as [|line pre IH]; intros graph; simpl; [done|].
  destruct (parse_line filename line graph); simpl; auto.
Qed.

(** C7, as the loader has it: a line that is no comment and does not split
    into exactly three fields fails with [InvalidASRelFile], carrying the
    file name and the line. *)
Theorem parse_malformed_line filename pre line post graph :
  parse_lines filename pre nx_empty = Ok graph ->
  startswith_hash line = false ->
  length (split "|"%char line) <> 3%nat ->
  parse_as_rel_file filename (pre ++ line :: post)
  = Raise (InvalidASRelFile filename ("bad line: " ++ line)).
Proof.
  intros Hpre Hhash Hlen. unfold parse_as_rel_file.
  rewrite parse_lines_app, Hpre. simpl. unfold parse_line. rewrite Hhash.
  apply Nat.eqb_neq in Hlen. rewrite Hlen. done.
Qed.

Lemma parse_malformed_line_witness :
  parse_as_rel_file "as-rel.txt" (chain_lines ++ [("1|2" ++ nl)%string])
  = Raise (InvalidASRelFile "as-rel.txt" ("bad line: " ++ ("1|2" ++ nl))).
Proof.
  apply (parse_malformed_line "as-rel.txt" chain_lines ("1|2" ++ nl) []
           chain_graph); [reflexivity|reflexivity|].
  vm_compute. lia.
Defined.

(** A line of three fields never fails with [InvalidASRelFile]: it fails
    with the [ValueError] of [int] when a field is no integer, and is loaded
    otherwise, whatever its relation code. *)
Lemma parse_three_fields filename line graph :
  startswith_hash line = false ->
  length (split "|"%char line) = 3%nat ->
  ((exists field, field ∈ split "|"%char line /\ int field = None) ->
   parse_line filename line graph = Raise ValueError)
  /\ ((forall field, field ∈ split "|"%char line -> is_Some (int field)) ->
      exists graph', parse_line filename line graph = Ok graph').
Proof.
  intros Hhash Hlen. unfold parse_line. rewrite Hhash, Hlen. simpl.
  destruct (split "|"%char line) as [|f1 [|f2 [|f3 [|]]]]; try done.
  simpl. split.
  - intros (field & Hin & Hint).
    apply elem_of_cons in Hin as [->|Hin]; [by rewrite Hint|].
    apply elem_of_cons in Hin as [->|Hin];
      [rewrite Hint; by destruct (int f1)|].
    apply list_elem_of_singleton in Hin as ->.
    rewrite Hint. by destruct (int f1), (int f2).
  - intros Hall.
    destruct (Hall f1) as [a1 ->]; [set_solver|].
    destruct (Hall f2) as [a2 ->]; [set_solver|].
    destruct (Hall f3) as [a3 ->]; [set_solver|].
    by eexists.
Qed.

(** C7 fails as stated: a line with relation code 5 is loaded as a peer
    edge, and a line with a field that is no integer raises [ValueError],
    not [InvalidASRelFile]. *)
Lemma parse_accepts_bad_relation :
  startswith_hash ("1|2|5" ++ nl) = false
  /\ spec_line_format ("1|2|5" ++ nl) = false
  /\ parse_as_rel_file "as-rel.txt" [("1|2|5" ++ nl)%string]
     = Ok (mkGraph [1; 2] [(1, [(2, None)]); (2, [(1, None)])])
  /\ spec_line_format ("1|x|0" ++ nl) = false
  /\ parse_as_rel_file "as-rel.txt" [("1|x|0" ++ nl)%string] = Raise ValueError.
Proof. repeat split; reflexivity. Qed.

(** ** Mirrored links *)

(** C8, for two different ASes: in every state of a constructed graph,
    [a.neighbors[b] == CUSTOMER] iff [b.neighbors[a] == PROVIDER], and
    [PEER] is mirrored as [PEER] (for any two ASes). *)
Theorem neighbors_mirrored graph pol g a b :
  reachable graph pol g ->
  (a <> b ->
   (nbr (asyss g) a b = Some CUSTOMER <-> nbr (asyss g) b a = Some PROVIDER))
  /\ (nbr (asyss g) a b = Some PEER <-> nbr (asyss g) b a = Some PEER).
Proof.
  intros [Hwf _]%reachable_wf. split.
  - intros Hne. split; intros H.
    + apply (wf_mirror _ Hwf a b CUSTOMER); done.
    + apply (wf_mirror _ Hwf b a PROVIDER); done.
  - destruct (decide (a = b)) as [->|Hne]; [done|].
    split; intros H.
    + apply (wf_mirror _ Hwf a b PEER); done.
    + apply (wf_mirror _ Hwf b a PEER); done.
Qed.

Lemma neighbors_mirrored_witness :
  (2 <> 1 ->
   (nbr (asyss (find_routes_to 100 chain 1).2) 2 1 = Some CUSTOMER
    <-> nbr (asyss (find_routes_to 100 chain 1).2) 1 2 = Some PROVIDER))
  /\ (nbr (asyss (find_routes_to 100 chain 1).2) 2 1 = Some PEER
      <-> nbr (asyss (find_routes_to 100 chain 1).2) 1 2 = Some PEER).
Proof.
  apply (neighbors_mirrored chain_graph DefaultPolicy).
  apply reach_find, reach_init. reflexivity.
Defined.

(** C8 fails as stated when an AS is linked to itself: after the line
    [5|5|-1], AS 5 holds itself as a CUSTOMER and not as a PROVIDER. *)
Lemma self_loop_not_mirrored :
  reachable self_loop_graph DefaultPolicy
    (or_empty (ASGraph_init self_loop_graph DefaultPolicy))
  /\ ~ (nbr (asyss (or_empty (ASGraph_init self_loop_graph DefaultPolicy))) 5 5
          = Some CUSTOMER
        <-> nbr (asyss (or_empty (ASGraph_init self_loop_graph DefaultPolicy))) 5 5
          = Some PROVIDER).
Proof.
  split.
  - apply reach_init. reflexivity.
  - intros [H _]. specialize (H eq_refl). discriminate H.
Qed.

(** ** The authenticated flag *)

(** C1, at the failing input: on the chain with BGPsec enabled on 1 and 3
    and not on 2, the route to 1 installed at 3 runs through 2 and is
    authenticated.  The flag of a route's second AS is never read: a route
    originated towards [h1] and forwarded to [h2] is authenticated iff the
    origin and [h2] have BGPsec enabled. *)
Theorem chain_authenticated_skips_first_hop :
  (find_routes_to 100 chain_bgpsec_1_3 1).1 = Ok ()
  /\ bgp_sec_enabled <$> get_asys chain_bgpsec_1_3 2 = Some false
  /\ table_entry (find_routes_to 100 chain_bgpsec_1_3 1).2 3 1
     = Some (mkRoute 1 [1; 2; 3] false false true)
  /\ forall o h1 h2,
       authenticated (forward_route (originate_route o (as_id h1)) h2)
       = bgp_sec_enabled o && bgp_sec_enabled h2.
Proof. repeat split; vm_compute; reflexivity. Qed.

(** ** Hijack injection *)

Section SampleFacts.
Context {A : Type}.
Implicit Types (pool : list A).

Lemma draw_length rng : forall k i pool,
  (k <= length pool)%nat -> length (draw rng i pool k) = k.
Proof.
  induction k as [|k IH]; intros i pool Hle; simpl; [done|].
  assert (rng i `mod` length pool < length pool)%nat as Hlt
    by (apply Nat.mod_upper_bound; lia).
  destruct (lookup_lt_is_Some_2 _ _ Hlt) as [x Hx]. rewrite Hx. simpl.
  rewrite IH; [done|]. rewrite length_delete by eauto. lia.
Qed.

Lemma draw_subseteq rng : forall k i pool x,
  x ∈ draw rng i pool k -> x ∈ pool.
Proof.
  induction k as [|k IH]; intros i pool x; simpl.
  - by intros ?%elem_of_nil.
  - destruct (pool !! _) as [y|] eqn:Hy; [|by intros ?%elem_of_nil].
    intros [->|Hin]%elem_of_cons.
    + by eapply list_elem_of_lookup_2.
    + apply IH in Hin. eapply elem_of_sublist; [done|apply sublist_delete].
Qed.

Lemma lookup_delete_NoDup pool j x :
  NoDup pool -> pool !! j = Some x -> x ∉ delete j pool.
Proof.
  intros Hnd Hj. apply list_elem_of_split_length in Hj as (l1 & l2 & -> & ->).
  rewrite delete_middle. apply NoDup_app in Hnd as (_ & Hd & Hnd2).
  apply NoDup_cons in Hnd2 as [Hx _]. intros [Hin|Hin]%elem_of_app; [|done].
  apply (Hd _ Hin). left.
Qed.

Lemma draw_NoDup rng : forall k i pool, NoDup pool -> NoDup (draw rng i pool k).
Proof.
  induction k as [|k IH]; intros i pool Hnd; simpl; [apply NoDup_nil_2|].
  destruct (pool !! _) as [y|] eqn:Hy; [|apply NoDup_nil_2].
  apply NoDup_cons. split.
  - intros Hin%draw_subseteq. by eapply lookup_delete_NoDup.
  - apply IH. eapply sublist_NoDup; [done|apply sublist_delete].
Qed.
End SampleFacts.

Lemma elem_of_filter_bool {A} (f : A -> bool) (l : list A) x :
  x ∈ List.filter f l <-> x ∈ l /\ f x = true.
Proof. rewrite !list_elem_of_In. apply filter_In. Qed.

Lemma NoDup_filter_bool {A} (f : A -> bool) (l : list A) :
  NoDup l -> NoDup (List.filter f l).
Proof. rewrite !NoDup_ListNoDup. apply List.NoDup_filter. Qed.

Lemma elem_of_hijack_population s victim attacker m :
  m ∈ hijack_population s victim attacker <->
  m ∈ dkeys s /\ m <> victim /\ m <> attacker.
Proof.
  unfold hijack_population.
  rewrite elem_of_filter_bool, elem_of_remove_dups, bool_decide_eq_true.
  set_solver.
Qed.

Lemma NoDup_hijack_population s victim attacker :
  NoDup (hijack_population s victim attacker).
Proof.
  apply NoDup_filter_bool, NoDup_remove_dups.
Qed.

(** The forged path has [n + 1] ASes. *)
Lemma hijack_route_length rng s victim attacker n r :
  hijack_route rng s victim attacker n = Ok r -> route_length r = n + 1.
Proof.
  unfold hijack_route, hijack_path, route_length. intros Hr.
  destruct (decide (n < 0)); [done|].
  destruct (decide (n = 0)) as [->|]; [by simplify_eq/=|].
  destruct (decide (n = 1)) as [->|]; [by simplify_eq/=|].
  unfold random_sample in Hr.
  destruct (length _ <? _)%nat eqn:Hlen; [done|].
  apply Nat.ltb_ge in Hlen. simplify_eq/=.
  rewrite length_app, draw_length by done. simpl. lia.
Qed.

(** C3: the forged route of [hijack_n_hops]. *)
Theorem hijack_route_forged rng s victim attacker n r :
  hijack_route rng s victim attacker n = Ok r ->
  dest r = victim /\ authenticated r = false
  /\ (n = 0 ->
      path r = [attacker] /\ origin_invalid r = true
      /\ path_end_invalid r = true)
  /\ (n = 1 ->
      path r = [victim; attacker] /\ origin_invalid r = false
      /\ path_end_invalid r = true)
  /\ (2 <= n ->
      exists middle,
        path r = victim :: middle ++ [attacker]
        /\ Z.of_nat (length middle) = n - 1
        /\ NoDup middle
        /\ (forall m, m ∈ middle -> m ∈ dkeys s /\ m <> victim /\ m <> attacker)
        /\ origin_invalid r = false /\ path_end_invalid r = false).
Proof.
  unfold hijack_route, hijack_path. intros Hr.
  destruct (decide (n < 0)); [done|].
  destruct (decide (n = 0)) as [->|]; [by simplify_eq/=|].
  destruct (decide (n = 1)) as [->|]; [by simplify_eq/=|].
  unfold random_sample in Hr.
  destruct (length _ <? _)%nat eqn:Hlen; [done|].
  apply Nat.ltb_ge in Hlen. simplify_eq/=.
  repeat split; try lia.
  intros _. eexists. split; [done|].
  split; [rewrite draw_length by done; lia|].
  split; [apply draw_NoDup, NoDup_hijack_population|].
  split; [|split; apply bool_decide_eq_false; lia].
  intros m Hm%draw_subseteq. by apply elem_of_hijack_population in Hm.
Qed.

Lemma hijack_route_forged_witness :
  hijack_route rng0 (asyss chain4) 1 2 3 = Ok (mkRoute 1 [1; 3; 4; 2] false false false)
  /\ (2 <= 3 ->
      exists middle,
        [1; 3; 4; 2] = 1 :: middle ++ [2]
        /\ Z.of_nat (length middle) = 3 - 1
        /\ NoDup middle
        /\ (forall m, m ∈ middle -> m ∈ dkeys (asyss chain4) /\ m <> 1 /\ m <> 2)
        /\ false = false /\ false = false).
Proof.
  split; [reflexivity|].
  apply (hijack_route_forged rng0 (asyss chain4) 1 2 3
           (mkRoute 1 [1; 3; 4; 2] false false false)).
  reflexivity.
Defined.

Lemma propagate_outcome fuel pol : forall s routes,
  (propagate fuel pol s routes).1 <> Raise ValueError.
Proof.
  induction fuel as [|fuel IH]; intros s [|route rest]; simpl; try done.
  destruct (final route ≫= _); [|done].
  destruct (learn_route pol s a route) as [s' nbs].
  destruct (mapM _ nbs); [apply IH|done].
Qed.

Lemma hijack_route_outcome rng s victim attacker n :
  match hijack_route rng s victim attacker n with
  | Ok _ =>
      ~ (n < 0 \/ Z.of_nat (length (hijack_population s victim attacker)) < n - 1)
  | Raise e =>
      e = ValueError
      /\ (n < 0 \/ Z.of_nat (length (hijack_population s victim attacker)) < n - 1)
  | OutOfFuel => False
  end.
Proof.
  unfold hijack_route, hijack_path.
  destruct (decide (n < 0)); simpl; [auto|].
  destruct (decide (n = 0)) as [->|]; simpl; [lia|].
  destruct (decide (n = 1)) as [->|]; simpl; [lia|].
  unfold random_sample.
  destruct (length _ <? _)%nat eqn:Hlen; simpl.
  - apply Nat.ltb_lt in Hlen. split; [done|]. right. lia.
  - apply Nat.ltb_ge in Hlen. lia.
Qed.

(** C4: [hijack_n_hops] raises [ValueError] exactly when the hop count is
    negative or fewer than [n - 1] ASes other than the victim and the
    attacker exist, and then it leaves the graph as it was. *)
Theorem hijack_n_hops_fails_iff fuel rng g victim attacker n :
  ((hijack_n_hops fuel rng g victim attacker n).1 = Raise ValueError
   <-> n < 0
       \/ Z.of_nat (length (hijack_population (asyss g) victim attacker)) < n - 1)
  /\ ((hijack_n_hops fuel rng g victim attacker n).1 = Raise ValueError ->
      (hijack_n_hops fuel rng g victim attacker n).2 = g).
Proof.
  unfold hijack_n_hops.
  pose proof (hijack_route_outcome rng (asyss g) victim attacker n) as Hr.
  destruct (hijack_route _ _ _ _ _) as [bad|e|]; simpl; [| |done].
  - assert (forall x : result () * ASGraph,
      x.1 <> Raise ValueError ->
      (x.1 = Raise ValueError <->
       n < 0 \/ Z.of_nat (length (hijack_population (asyss g) victim attacker)) < n - 1)
      /\ (x.1 = Raise ValueError -> x.2 = g)) as Hno by (intros; tauto).
    destruct (dget attacker (asyss g)); [|by apply Hno].
    destruct (mapM _ _) as [hops|]; [|by apply Hno].
    pose proof (propagate_outcome fuel (policy g) (asyss g)
                  (map (forward_route bad) hops)) as Hp.
    destruct (propagate _ _ _ _). by apply Hno.
  - destruct Hr as [-> Hr]. tauto.
Qed.

(** ** The routing-table invariant *)

Lemma length_remove_dups_le {A} `{EqDecision A} (l : list A) :
  (length (remove_dups l) <= length l)%nat.
Proof.
  induction l as [|x l IH]; simpl; [done|].
  destruct (decide_rel _ _ _); simpl; lia.
Qed.

Lemma contains_cycle_NoDup r : contains_cycle r = false <-> NoDup (path r).
Proof.
  unfold contains_cycle. rewrite negb_false_iff, Nat.eqb_eq.
  generalize (path r) as l. induction l as [|x l IH]; simpl.
  - split; [intros; apply NoDup_nil_2|done].
  - pose proof (length_remove_dups_le l).
    destruct (decide_rel _ _ _) as [Hin|Hin]; simpl.
    + split; [lia|]. by intros [? _]%NoDup_cons.
    + rewrite NoDup_cons. split.
      * intros Hlen. split; [done|]. apply IH. lia.
      * intros [_ Hnd]. f_equal. by apply IH.
Qed.

Section TableFacts.
Variable pol : RoutingPolicy.
Hypothesis Hpol : rejects_cycles pol.

Lemma table_ok_learn_route s k self route :
  keys_ok s -> dget k s = Some self -> final route = Some k ->
  table_ok s -> table_ok (learn_route pol s self route).1.
Proof.
  intros Hk Hget Hfin Hok.
  destruct (learn_route_store pol s self route) as [->|(Hd & Hacc & ->)]; [done|].
  rewrite (Hk _ _ Hget). intros a asys d r. rewrite dget_dset.
  case_decide; [|apply Hok]. intros ?; simplify_eq. simpl.
  rewrite lookup_insert. case_decide.
  - intros ?; simplify_eq. split; [done|]. split; [done|].
    by apply contains_cycle_NoDup, (Hpol s).
  - by apply Hok.
Qed.

Lemma table_ok_propagate fuel : forall s routes,
  keys_ok s -> table_ok s -> table_ok (propagate fuel pol s routes).2.
Proof.
  induction fuel as [|fuel IH]; intros s [|route rest] Hk Hok; simpl; try done.
  destruct (final route ≫= _) as [asys|] eqn:Hfin; [|done].
  apply bind_Some in Hfin as (k & Hfin & Hget).
  pose proof (table_ok_learn_route s k asys route Hk Hget Hfin Hok) as Hok'.
  pose proof (learn_route_links pol s k asys route Hk Hget) as Hl.
  destruct (learn_route pol s asys route) as [s' nbs]; simpl in *.
  destruct (mapM _ nbs); simpl; [|done].
  apply IH; [|done]. by eapply keys_ok_links.
Qed.
End TableFacts.

Lemma table_ok_mutate u f s :
  (forall x, routing_table (f x) = routing_table x) ->
  table_ok s -> table_ok (mutate u f s).
Proof.
  intros Hf Hok a asys d r. rewrite dget_mutate. case_decide; [|apply Hok].
  intros (y & Hy & ->)%fmap_Some. rewrite Hf. by apply Hok.
Qed.

Lemma table_ok_init_edges graph es : forall s s',
  init_edges graph s es = Some s' -> table_ok s -> table_ok s'.
Proof.
  induction es as [|e es IH]; simpl; intros s s' Hinit Hok.
  - by simplify_eq.
  - destruct (init_edge graph s e) as [s1|] eqn:He; simpl in Hinit; [|done].
    eapply IH; [done|]. destruct e as [u v]. unfold init_edge in He.
    destruct (dget u s); simpl in He; [|done].
    destruct (dget v s); simpl in He; [|done].
    destruct (edge_customer graph u v) as [[c|]|]; simpl in He; [| |done];
      repeat case_decide; simplify_eq; try done;
      by do 2 (apply table_ok_mutate; [done|]).
Qed.

Lemma table_ok_init_nodes nodes : table_ok (init_nodes nodes).
Proof.
  unfold init_nodes.
  enough (forall s, table_ok s ->
    table_ok (fold_left (fun s id => dset id (AS_init id) s) nodes s)) as H.
  { apply H. intros a asys d r. done. }
  induction nodes as [|id nodes IH]; simpl; intros s Hok; [done|].
  apply IH. intros a asys d r. rewrite dget_dset. case_decide; [|apply Hok].
  intros ?; simplify_eq. simpl. rewrite lookup_insert. case_decide; [|done].
  intros ?; simplify_eq. repeat split. apply NoDup_singleton.
Qed.

Lemma table_ok_clear g :
  keys_ok (asyss g) -> table_ok (asyss (clear_routing_tables g)).
Proof.
  intros Hk a asys d r. simpl. rewrite dget_map_values.
  intros (x & Hx & ->)%fmap_Some. simpl. rewrite lookup_insert.
  case_decide; [|done]. intros ?; simplify_eq.
  rewrite (Hk _ _ Hx). repeat split. apply NoDup_singleton.
Qed.

(** C2: in every state of a graph whose policy accepts loop-free routes
    only, every entry [(d, r)] of the routing table of an AS [a] has
    [r.dest == d], [a] as the last element of [r.path], and no AS twice in
    [r.path]. *)
Theorem routing_table_invariant graph pol g :
  rejects_cycles pol -> reachable graph pol g -> table_ok (asyss g).
Proof.
  intros Hpol. induction 1 as [g Hinit|g Hr IH|g id b Hr IH
                              |g fuel target Hr IH|g fuel rng v a n Hr IH].
  - unfold ASGraph_init in Hinit. apply bind_Some in Hinit as (s & Hs & ?).
    simplify_eq. simpl. eapply table_ok_init_edges; [done|].
    apply table_ok_init_nodes.
  - apply table_ok_clear. by apply (reachable_wf graph pol).
  - by apply table_ok_mutate.
  - destruct (reachable_wf graph pol g Hr) as [Hwf Hp].
    unfold find_routes_to. destruct (dget target (asyss g)); [|done].
    pose proof (table_ok_propagate pol Hpol fuel (asyss g)
      (map (originate_route a) (dkeys (neighbors a))) (wf_keys _ Hwf) IH) as Hok.
    rewrite Hp. destruct (propagate _ _ _ _). done.
  - destruct (reachable_wf graph pol g Hr) as [Hwf Hp].
    unfold hijack_n_hops. destruct (hijack_route _ _ _ _ _) as [bad| |]; try done.
    destruct (dget a (asyss g)); [|done].
    destruct (mapM _ _) as [hops|]; [|done].
    pose proof (table_ok_propagate pol Hpol fuel (asyss g)
      (map (forward_route bad) hops) (wf_keys _ Hwf) IH) as Hok.
    rewrite Hp. destruct (propagate _ _ _ _). done.
Qed.

Lemma DefaultPolicy_rejects_cycles : rejects_cycles DefaultPolicy.
Proof. intros s r. simpl. by destruct (contains_cycle r). Qed.

Lemma routing_table_invariant_witness :
  table_ok (asyss (hijack_n_hops 100 rng0 (find_routes_to 100 chain4 1).2 1 2 3).2).
Proof.
  apply (routing_table_invariant chain4_graph DefaultPolicy).
  - apply DefaultPolicy_rejects_cycles.
  - apply reach_hijack, reach_find, reach_init. reflexivity.
Defined.

(** ** Hop count of hijacked routes *)

Section HopCount.
Variables (pol : RoutingPolicy) (victim : AS_ID) (n : Z) (s0 : Store).

Lemma route_length_forward r hop :
  route_length (forward_route r hop) = route_length r + 1.
Proof. unfold route_length. simpl. rewrite length_app. simpl. lia. Qed.

Lemma hop_inv_learn_route s k self route :
  keys_ok s -> dget k s = Some self -> n + 2 <= route_length route ->
  hop_inv victim n s0 s ->
  hop_inv victim n s0 (learn_route pol s self route).1.
Proof.
  intros Hk Hget Hlen Hinv.
  destruct (learn_route_store pol s self route) as [->|(Hd & Hacc & ->)]; [done|].
  rewrite (Hk _ _ Hget).
  intros a asys r. rewrite dget_dset. case_decide; [|apply Hinv].
  intros ?; simplify_eq. simpl. rewrite lookup_insert. case_decide.
  - intros ?; simplify_eq. by right.
  - by apply (Hinv a).
Qed.

Lemma hop_inv_propagate fuel : forall s routes,
  keys_ok s ->
  Forall (fun r => n + 2 <= route_length r) routes ->
  hop_inv victim n s0 s ->
  hop_inv victim n s0 (propagate fuel pol s routes).2.
Proof.
  induction fuel as [|fuel IH]; intros s [|route rest] Hk Hq Hinv; simpl; try done.
  destruct (final route ≫= _) as [asys|] eqn:Hfin; [|done].
  apply bind_Some in Hfin as (k & Hfin & Hget).
  apply Forall_cons in Hq as [Hlen Hq].
  pose proof (hop_inv_learn_route s k asys route Hk Hget Hlen Hinv) as Hinv'.
  pose proof (learn_route_links pol s k asys route Hk Hget) as Hl.
  destruct (learn_route pol s asys route) as [s' nbs]; simpl in *.
  destruct (mapM _ nbs) as [hops|]; simpl; [|done].
  apply IH; [by eapply keys_ok_links|..|done]. apply Forall_app. split; [done|].
  apply Forall_forall. intros r (hop & -> & _)%list_elem_of_fmap.
  rewrite route_length_forward. lia.
Qed.
End HopCount.

(** C9, with the entries the call found exempt: in every state of a graph,
    after [hijack_n_hops(victim, attacker, n)] with [n >= 1], every
    routing-table entry for [victim.id] whose path contains the attacker
    either is the entry the same AS held before the call, or has a path of
    length at least [n + 1]. *)
Theorem hijack_hop_count graph pol fuel rng g victim attacker n :
  reachable graph pol g ->
  1 <= n ->
  forall a r,
    table_entry (hijack_n_hops fuel rng g victim attacker n).2 a victim = Some r ->
    attacker ∈ path r ->
    table_entry g a victim = Some r \/ n + 1 <= route_length r.
Proof.
  intros [Hwf _]%reachable_wf Hn. pose proof (wf_keys _ Hwf) as Hk.
  assert (hop_inv victim n (asyss g)
            (asyss (hijack_n_hops fuel rng g victim attacker n).2)) as Hpost.
  { assert (hop_inv victim n (asyss g) (asyss g)) as Hinv.
    { intros a asys r Hget Hr. left. by rewrite Hget. }
    unfold hijack_n_hops.
    destruct (hijack_route rng (asyss g) victim attacker n) as [bad| |] eqn:Hbad;
      try done.
    destruct (dget attacker (asyss g)); [|done].
    destruct (mapM _ _) as [hops|]; [|done].
    pose proof (hop_inv_propagate (policy g) victim n (asyss g) fuel (asyss g)
                  (map (forward_route bad) hops) Hk) as Hp.
    destruct (propagate _ _ _ _) as [out s']. apply Hp; [|done].
    apply Forall_forall. intros r (hop & -> & _)%list_elem_of_fmap.
    rewrite route_length_forward, (hijack_route_length _ _ _ _ _ _ Hbad). lia. }
  intros a r Hentry _. unfold table_entry, get_asys in Hentry.
  apply bind_Some in Hentry as (asys & Hget & Hr).
  destruct (Hpost a asys r Hget Hr) as [Hold|Hlen]; [by left|right; lia].
Qed.

Lemma hijack_hop_count_witness :
  table_entry (find_routes_to 100 chain4 4).2 2 4
    = Some (mkRoute 4 [4; 3; 2] false false false)
  /\ table_entry (hijack_n_hops 100 rng0 (find_routes_to 100 chain4 4).2 4 1 1).2 2 4
    = Some (mkRoute 4 [4; 1; 2] false true false)
  /\ (table_entry (find_routes_to 100 chain4 4).2 2 4
       = Some (mkRoute 4 [4; 1; 2] false true false)
      \/ 1 + 1 <= route_length (mkRoute 4 [4; 1; 2] false true false)).
Proof.
  split; [reflexivity|]. split; [reflexivity|].
  apply (hijack_hop_count chain4_graph DefaultPolicy 100 rng0
           (find_routes_to 100 chain4 4).2 4 1 1).
  - apply reach_find, reach_init. reflexivity.
  - lia.
  - reflexivity.
  - simpl. set_solver.
Defined.

(** C9 fails as stated when routes through the attacker are installed before
    the hijack: on the four-AS chain, after [find_routes_to(1)] and
    [hijack_n_hops(1, 2, 3)], AS 3 still holds the route [1, 2, 3], which
    runs through the attacker 2 and is shorter than [n + 1 = 4]. *)
Lemma hijack_keeps_short_route :
  (hijack_n_hops 100 rng0 (find_routes_to 100 chain4 1).2 1 2 3).1 = Ok ()
  /\ table_entry (hijack_n_hops 100 rng0 (find_routes_to 100 chain4 1).2 1 2 3).2 3 1
     = Some (mkRoute 1 [1; 2; 3] false false false)
  /\ 2 ∈ path (mkRoute 1 [1; 2; 3] false false false)
  /\ ~ (3 + 1 <= route_length (mkRoute 1 [1; 2; 3] false false false)).
Proof.
  split; [reflexivity|]. split; [reflexivity|]. split.
  - simpl. set_solver.
  - vm_compute. intros H. by apply H.
Qed.

(** ** Paths in directed graphs *)

Section Paths.
Context {N : Type} `{Countable N}.
Variable G : DiGraph N.
Implicit Types (x y z : N) (l : list N).

Lemma walk_rtc l : forall x y, walk G x l y -> rtc (edge G) x y.
Proof.
  induction l as [|z l IH]; simpl; intros x y.
  - intros ->. done.
  - intros [He Hw]. eapply rtc_l; [done|]. by apply IH.
Qed.

Lemma rtc_walk x y : rtc (edge G) x y -> exists l, walk G x l y.
Proof.
  induction 1 as [x|x z y He _ [l Hl]].
  - by exists [].
  - by exists (z :: l).
Qed.

Lemma walk_suffix l1 : forall x z l2 y,
  walk G x (l1 ++ z :: l2) y -> walk G z l2 y.
Proof.
  induction l1 as [|w l1 IH]; simpl; intros x z l2 y.
  - by intros [_ ?].
  - intros [_ Hw]. by eapply IH.
Qed.

Lemma walk_prefix l1 : forall x z l2 y,
  walk G x (l1 ++ z :: l2) y -> walk G x (l1 ++ [z]) z.
Proof.
  induction l1 as [|w l1 IH]; simpl; intros x z l2 y.
  - by intros [? _].
  - intros [He Hw]. split; [done|]. by eapply IH.
Qed.

Lemma walk_app l1 : forall x z l2 y,
  walk G x l1 z -> walk G z l2 y -> walk G x (l1 ++ l2) y.
Proof.
  induction l1 as [|w l1 IH]; simpl; intros x z l2 y.
  - by intros ->.
  - intros [He Hw] Hz. split; [done|]. by eapply IH.
Qed.

(** Every walk can be cut down to one that visits no node twice. *)
Lemma walk_simple l : forall x y,
  walk G x l y -> exists l', walk G x l' y /\ NoDup (x :: l') /\ l' ⊆ l.
Proof.
  induction l as [|z l IH]; simpl; intros x y.
  - intros ->. exists []. split; [done|]. split; [|done].
    apply NoDup_singleton.
  - intros [He Hw]. destruct (IH _ _ Hw) as (l' & Hw' & Hnd & Hsub).
    destruct (decide (x ∈ z :: l')) as [Hin|Hnin].
    + apply list_elem_of_split in Hin as (l1 & l2 & Heq).
      exists l2. split; [|split].
      * destruct l1 as [|w l1]; simplify_eq/=; [done|].
        by eapply walk_suffix.
      * rewrite Heq in Hnd. by apply NoDup_app in Hnd as (_ & _ & ?).
      * intros w Hw2. assert (w ∈ z :: l') as Hw3
          by (rewrite Heq; set_solver).
        set_solver.
    + exists (z :: l'). split; [done|]. split; [|set_solver].
      by apply NoDup_cons.
Qed.

Lemma walk_nodes l : forall x y,
  wf_digraph G -> walk G x l y -> forall z, z ∈ l -> z ∈ dg_nodes G.
Proof.
  intros x y (_ & Hcl & _). revert x.
  induction l as [|w l IH]; simpl; intros x Hw z Hz.
  - by apply elem_of_nil in Hz.
  - destruct Hw as [He Hw]. apply elem_of_cons in Hz as [->|Hz].
    + by apply (Hcl x).
    + by eapply IH.
Qed.

Lemma reaches_walk k : forall x y,
  reaches G k x y = true <-> exists l, (length l <= k)%nat /\ walk G x l y.
Proof.
  induction k as [|k IH]; intros x y; simpl.
  - rewrite orb_false_r, bool_decide_eq_true. split.
    + intros ->. exists []. done.
    + intros ([|z l] & Hlen & Hw); simpl in *; [done|lia].
  - rewrite orb_true_iff, bool_decide_eq_true, existsb_exists. split.
    + intros [->|(z & Hz & Hr)].
      * exists []. split; [simpl; lia|done].
      * apply IH in Hr as (l & Hlen & Hw). exists (z :: l).
        split; [simpl; lia|]. split; [|done]. by apply list_elem_of_In.
    + intros ([|z l] & Hlen & Hw); simpl in *; [by left|].
      right. destruct Hw as [He Hw]. exists z. split; [by apply list_elem_of_In|].
      apply IH. exists l. split; [lia|done].
Qed.

Lemma reaches_rtc k x y : reaches G k x y = true -> rtc (edge G) x y.
Proof. intros (l & _ & Hw)%reaches_walk. by eapply walk_rtc. Qed.

Lemma rtc_reaches x y :
  wf_digraph G -> x ∈ dg_nodes G -> rtc (edge G) x y ->
  reaches G (length (dg_nodes G)) x y = true.
Proof.
  intros Hwf Hx (l & Hw)%rtc_walk.
  destruct (walk_simple l x y Hw) as (l' & Hw' & Hnd & _).
  apply reaches_walk. exists l'. split; [|done].
  assert (x :: l' ⊆+ dg_nodes G) as Hsub.
  { apply NoDup_submseteq; [done|]. intros z [->|Hz]%elem_of_cons; [done|].
    by eapply walk_nodes. }
  apply submseteq_length in Hsub. simpl in Hsub. lia.
Qed.

Lemma tc_walk x y :
  tc (edge G) x y <-> exists z l, edge G x z /\ walk G z l y.
Proof.
  split.
  - intros Htc. apply tc_rtc in Htc as Hr. induction Htc as [x y He|x z y He Htc _].
    + exists y, []. done.
    + apply tc_rtc, rtc_walk in Htc as [l Hl]. by exists z, l.
  - intros (z & l & He & Hw). eapply tc_rtc_r; [by apply tc_once|].
    by eapply walk_rtc.
Qed.

(** The acyclicity test decides whether a node lies on a cycle. *)
Lemma is_directed_acyclic_graph_acyclic :
  wf_digraph G -> is_directed_acyclic_graph G = true -> acyclic G.
Proof.
  intros Hwf Hdag x (z & l & He & Hw)%tc_walk.
  unfold is_directed_acyclic_graph in Hdag.
  rewrite forallb_forall in Hdag.
  assert (x ∈ dg_nodes G /\ z ∈ dg_nodes G) as [Hx Hz]
    by (destruct Hwf as (_ & Hcl & _); by apply Hcl).
  specialize (Hdag x (proj1 (list_elem_of_In _ _) Hx)).
  rewrite forallb_forall in Hdag.
  specialize (Hdag z (proj1 (list_elem_of_In _ _) He)).
  apply negb_true_iff in Hdag.
  rewrite rtc_reaches in Hdag; [done..|]. by eapply walk_rtc.
Qed.
End Paths.

(** ** The topological traversal *)

Lemma filter_ext_in {A} (P Q : A -> Prop) `{!forall x, Decision (P x)}
    `{!forall x, Decision (Q x)} (l : list A) :
  (forall x, x ∈ l -> P x <-> Q x) -> filter P l = filter Q l.
Proof.
  induction l as [|x l IH]; intros Hext; [done|].
  rewrite !filter_cons. rewrite IH by (intros; apply Hext; by right).
  destruct (decide (P x)) as [HP|HP], (decide (Q x)) as [HQ|HQ]; try done.
  - exfalso. apply HQ, Hext; [left|done].
  - exfalso. apply HP, Hext; [left|done].
Qed.

Lemma length_filter_remove {A} `{EqDecision A} (P Q : A -> Prop)
    `{!forall x, Decision (P x)} `{!forall x, Decision (Q x)} (l : list A) n :
  NoDup l -> n ∈ l -> P n -> ~ Q n ->
  (forall x, x <> n -> P x <-> Q x) ->
  length (filter P l) = S (length (filter Q l)).
Proof.
  intros Hnd Hin HP HQ Hext. induction l as [|x l IH]; [by apply elem_of_nil in Hin|].
  apply NoDup_cons in Hnd as [Hx Hnd]. rewrite !filter_cons.
  destruct (decide (x = n)) as [->|Hne].
  - rewrite decide_True, decide_False by done. simpl. f_equal. f_equal.
    apply filter_ext_in. intros y Hy. apply Hext. by intros ->.
  - apply elem_of_cons in Hin as [?|Hin]; [done|].
    specialize (IH Hnd Hin).
    destruct (decide (P x)) as [HPx|HPx], (decide (Q x)) as [HQx|HQx]; simpl;
      try lia; exfalso.
    + by apply HQx, Hext.
    + by apply HPx, Hext.
Qed.

Section Traversal.
Context {N : Type} `{Countable N}.
Variable G : DiGraph N.
Hypothesis Hwf : wf_digraph G.
Implicit Types (x y n : N) (P : list N) (t : traversal N).

Lemma pending_nil x : pending G [] x = in_degree G x.
Proof.
  unfold pending, in_degree. f_equal. f_equal. apply list_filter_iff.
  intros m. set_solver.
Qed.

Lemma pending_snoc P n x :
  n ∈ dg_nodes G -> n ∉ P -> edge G n x ->
  pending G (P ++ [n]) x = pending G P x - 1.
Proof.
  intros Hn HnP He. unfold pending.
  rewrite (length_filter_remove
             (fun m => x ∈ successors G m /\ m ∉ P)
             (fun m => x ∈ successors G m /\ m ∉ P ++ [n]) (dg_nodes G) n);
    [lia|apply Hwf|done|done|set_solver|set_solver].
Qed.

Lemma pending_snoc_ne P n x :
  ~ edge G n x -> pending G (P ++ [n]) x = pending G P x.
Proof.
  intros He. unfold pending. f_equal. f_equal. apply list_filter_iff.
  intros m. unfold edge in He. set_solver.
Qed.

Lemma pending_zero P x p :
  pending G P x = 0 -> edge G p x -> p ∈ P.
Proof.
  unfold pending. intros Hz He.
  assert (filter (fun m => x ∈ successors G m /\ m ∉ P) (dg_nodes G) = []) as Hnil
    by (apply length_zero_iff_nil; lia).
  destruct (decide (p ∈ P)) as [|Hp]; [done|]. exfalso.
  assert (p ∈ dg_nodes G) by (destruct Hwf as (_ & Hcl & _); by apply (Hcl p x)).
  assert (p ∈ filter (fun m => x ∈ successors G m /\ m ∉ P) (dg_nodes G)) as Hin
    by (apply list_elem_of_filter; done).
  rewrite Hnil in Hin. by apply elem_of_nil in Hin.
Qed.

Lemma count_in_edges_spec nodes : forall rem q,
  NoDup nodes ->
  (count_in_edges G nodes rem q).2
    = q ++ filter (fun x => in_degree G x = 0) nodes
  /\ forall x,
       (count_in_edges G nodes rem q).1 !! x
       = if decide (x ∈ nodes)
         then (if decide (in_degree G x = 0) then None else Some (in_degree G x))
         else rem !! x.
Proof.
  induction nodes as [|n nodes IH]; intros rem q Hnd; simpl.
  - rewrite filter_nil, app_nil_r. done.
  - apply NoDup_cons in Hnd as [Hn Hnd]. rewrite lookup_insert_eq, filter_cons.
    destruct (decide (Some (in_degree G n) = Some 0)) as [Hz|Hz].
    + injection Hz as Hz. destruct (IH (delete n (<[n:=in_degree G n]> rem)) (q ++ [n]) Hnd)
        as [-> Hrem]. rewrite decide_True by done.
      split; [by rewrite <- app_assoc|]. intros x. rewrite Hrem.
      destruct (decide (x = n)) as [->|Hne].
      * rewrite decide_False, decide_True, decide_True by set_solver.
        apply lookup_delete_eq.
      * rewrite lookup_delete_ne, lookup_insert_ne by done.
        repeat case_decide; set_solver.
    + assert (in_degree G n <> 0) as Hz' by congruence.
      destruct (IH (<[n:=in_degree G n]> rem) q Hnd) as [-> Hrem].
      rewrite decide_False by done. split; [done|]. intros x. rewrite Hrem.
      destruct (decide (x = n)) as [->|Hne].
      * rewrite decide_False, decide_True, decide_False by set_solver.
        apply lookup_insert_eq.
      * rewrite lookup_insert_ne by done. repeat case_decide; set_solver.
Qed.

Lemma relax_spec n b succs : forall t,
  NoDup succs ->
  (forall x, x ∈ succs ->
     is_Some (reachable_from t !! x) /\ is_Some (remaining_edges t !! x)) ->
  reachable_from t !! n = Some b ->
  exists t', relax n succs t = Ok t'
    /\ (forall x, reachable_from t' !! x
          = if decide (x ∈ succs)
            then (fun a => Z.lor a b) <$> reachable_from t !! x
            else reachable_from t !! x)
    /\ (forall x, remaining_edges t' !! x
          = if decide (x ∈ succs)
            then c ← remaining_edges t !! x;
                 if decide (c = 1) then None else Some (c - 1)
            else remaining_edges t !! x)
    /\ queue t' = queue t ++ filter (fun x => remaining_edges t !! x = Some 1) succs.
Proof.
  induction succs as [|s succs IH]; intros t Hnd Hdef Hb; simpl.
  - exists t. rewrite filter_nil, app_nil_r. done.
  - apply NoDup_cons in Hnd as [Hs Hnd].
    destruct (Hdef s) as [[a Ha] [c Hc]]; [left|].
    rewrite Ha, Hb, Hc. simpl. rewrite lookup_insert_eq.
    set (attr := <[s:=Z.lor a b]> (reachable_from t)).
    assert (attr !! n = Some b) as Hb'.
    { unfold attr. destruct (decide (s = n)) as [->|Hne].
      - rewrite lookup_insert_eq. rewrite Ha in Hb. simplify_eq.
        by rewrite Z.lor_diag.
      - by rewrite lookup_insert_ne. }
    assert (forall rem q, (forall x, x <> s -> rem !! x = remaining_edges t !! x) ->
      forall x, x ∈ succs ->
        is_Some (reachable_from (mkTraversal attr rem q) !! x)
        /\ is_Some (remaining_edges (mkTraversal attr rem q) !! x)) as Hdef'.
    { intros rem q Hrem x Hx. assert (x <> s) by (by intros ->). simpl.
      unfold attr. rewrite lookup_insert_ne, Hrem by done.
      apply Hdef. by right. }
    rewrite filter_cons.
    destruct (decide (Some (c - 1) = Some 0)) as [Hz|Hz].
    + assert (c = 1) as -> by (injection Hz; lia).
      edestruct (IH (mkTraversal attr (delete s (<[s:=1 - 1]> (remaining_edges t)))
                       (queue t ++ [s])) Hnd)
        as (t' & Ht' & Hattr & Hrem & Hq); [|done|].
      { apply Hdef'. intros x Hx. by rewrite lookup_delete_ne, lookup_insert_ne. }
      exists t'. split; [done|]. simpl in *. split; [|split].
      * intros x. rewrite Hattr. unfold attr.
        destruct (decide (x = s)) as [->|Hne].
        -- rewrite decide_False, decide_True, lookup_insert_eq, Ha by set_solver.
           done.
        -- rewrite lookup_insert_ne by done. repeat case_decide; set_solver.
      * intros x. rewrite Hrem.
        destruct (decide (x = s)) as [->|Hne].
        -- rewrite decide_False, decide_True, lookup_delete_eq, Hc by set_solver.
           simpl. by repeat case_decide.
        -- rewrite lookup_delete_ne, lookup_insert_ne by done.
           repeat case_decide; set_solver.
      * rewrite Hq, decide_True, <- app_assoc by done. simpl. do 2 f_equal.
        apply filter_ext_in. intros x Hx. assert (x <> s) by (by intros ->).
        by rewrite lookup_delete_ne, lookup_insert_ne.
    + assert (c <> 1) as Hc1 by (intros ->; done).
      edestruct (IH (mkTraversal attr (<[s:=c - 1]> (remaining_edges t)) (queue t)) Hnd)
        as (t' & Ht' & Hattr & Hrem & Hq); [|done|].
      { apply Hdef'. intros x Hx. by rewrite lookup_insert_ne. }
      exists t'. split; [done|]. simpl in *. split; [|split].
      * intros x. rewrite Hattr. unfold attr.
        destruct (decide (x = s)) as [->|Hne].
        -- rewrite decide_False, decide_True, lookup_insert_eq, Ha by set_solver.
           done.
        -- rewrite lookup_insert_ne by done. repeat case_decide; set_solver.
      * intros x. rewrite Hrem.
        destruct (decide (x = s)) as [->|Hne].
        -- rewrite decide_False, decide_True, lookup_insert_eq, Hc by set_solver.
           simpl. by repeat case_decide.
        -- rewrite lookup_insert_ne by done. repeat case_decide; set_solver.
      * rewrite Hq, decide_False by congruence. f_equal.
        apply filter_ext_in. intros x Hx. assert (x <> s) by (by intros ->).
        by rewrite lookup_insert_ne.
Qed.

Lemma inv_attr_final P t x a i :
  traversal_inv G P t -> x ∈ P ++ queue t -> reachable_from t !! x = Some a ->
  Z.testbit a i = true <-> origins G x i.
Proof.
  intros Hinv Hx Ha.
  destruct (ti_attr _ _ _ Hinv x (ti_nodes _ _ _ Hinv x Hx)) as (a' & Ha' & Hbits).
  rewrite Ha in Ha'. simplify_eq. rewrite Hbits. split.
  - intros [Hs|(p & Hp & He & y & Hy & Hr)].
    + exists x. done.
    + exists y. split; [done|]. by eapply rtc_r.
  - intros (y & Hy & Hr). apply rtc_inv_r in Hr as [->|(p & Hr & He)]; [by left|].
    right. exists p. split; [by eapply (ti_preds _ _ _ Hinv)|].
    split; [done|]. by exists y.
Qed.

Lemma traversal_step P attr rem n q :
  traversal_inv G P (mkTraversal attr rem (n :: q)) ->
  exists t', relax n (successors G n) (mkTraversal attr rem q) = Ok t'
    /\ traversal_inv G (P ++ [n]) t'.
Proof.
  intros Hinv. destruct Hwf as (Hnd & Hcl & Hsnd).
  pose proof (ti_nodup _ _ _ Hinv) as Hnd1. simpl in Hnd1.
  assert (n ∈ P ++ n :: q) as HnPq by set_solver.
  assert (n ∈ dg_nodes G) as Hn by (by apply (ti_nodes _ _ _ Hinv)).
  assert (n ∉ P) as HnP.
  { apply NoDup_app in Hnd1 as (_ & Hd & _). intros Hin. apply (Hd _ Hin). left. }
  destruct (ti_attr _ _ _ Hinv n Hn) as (b & Hb & _). simpl in Hb.
  assert (forall x, x ∈ successors G n -> x ∈ dg_nodes G /\ x ∉ P ++ n :: q) as Hsucc.
  { intros x Hx. split; [by apply (Hcl n x)|]. intros Hin.
    by apply (ti_preds _ _ _ Hinv x n) in Hin. }
  assert (forall x, x ∈ successors G n ->
            rem !! x = Some (pending G P x) /\ 1 <= pending G P x) as Hrem0.
  { intros x Hx. destruct (Hsucc x Hx). by apply (ti_remaining _ _ _ Hinv x). }
  destruct (relax_spec n b (successors G n) (mkTraversal attr rem q) (Hsnd n))
    as (t' & Ht' & Hattr & Hrem & Hq); [|done|].
  { intros x Hx. destruct (Hsucc x Hx) as [Hx1 Hx2]. simpl. split.
    - destruct (ti_attr _ _ _ Hinv x Hx1) as (a & Ha & _). simpl in Ha.
      rewrite Ha. eauto.
    - destruct (Hrem0 x Hx) as [-> _]. eauto. }
  simpl in *. exists t'. split; [done|].
  assert (forall x, x ∈ (P ++ [n]) ++ queue t' <->
            x ∈ P ++ n :: q \/ (x ∈ successors G n /\ pending G P x = 1)) as Hmem.
  { intros x. rewrite Hq, !elem_of_app, list_elem_of_filter, !elem_of_cons,
      elem_of_nil. split.
    - intros [[?|[?|[]]]|[?|[Hp Hx]]]; auto. right. split; [done|].
      destruct (Hrem0 x Hx) as [Hr _]. congruence.
    - intros [[?|[?|?]]|[Hx Hp]]; auto. right. right. split; [|done].
      destruct (Hrem0 x Hx) as [-> _]. by f_equal. }
  split.
  - rewrite Hq, app_assoc. apply NoDup_app. split; [|split].
    + by rewrite <- app_assoc.
    + intros x Hx [_ Hx2]%list_elem_of_filter. rewrite <- app_assoc in Hx.
      by destruct (Hsucc x Hx2).
    + by apply NoDup_filter.
  - intros x [Hx|[Hx _]]%Hmem; [by apply (ti_nodes _ _ _ Hinv)|].
    by apply Hsucc.
  - intros x Hx Hin%Hmem. rewrite Hrem. destruct Hin as [Hin|[Hs Hp]].
    + rewrite decide_False; [by apply (ti_queued _ _ _ Hinv)|].
      intros Hs. by destruct (Hsucc x Hs).
    + rewrite decide_True by done. destruct (Hrem0 x Hs) as [-> _]. simpl.
      by rewrite decide_True.
  - intros x Hx Hnin. rewrite Hmem in Hnin. rewrite Hrem.
    destruct (decide (x ∈ successors G n)) as [Hs|Hs].
    + destruct (Hrem0 x Hs) as [-> Hge]. simpl.
      rewrite pending_snoc by done.
      rewrite decide_False by (intros Hp; apply Hnin; auto).
      split; [done|]. assert (pending G P x <> 1) by (intros Hp; apply Hnin; auto).
      lia.
    + rewrite pending_snoc_ne by done.
      apply (ti_remaining _ _ _ Hinv x Hx). intros Hin. apply Hnin. auto.
  - intros x p [Hin|[Hs Hp]]%Hmem He.
    + apply elem_of_app. left. by apply (ti_preds _ _ _ Hinv x p).
    + apply (pending_zero _ x); [|done]. rewrite pending_snoc by done. lia.
  - intros x Hx. destruct (ti_attr _ _ _ Hinv x Hx) as (a & Ha & Hbits).
    simpl in Ha. rewrite Hattr, Ha.
    assert (forall i, Z.testbit b i = true <-> origins G n i) as Hbn.
    { intros i. by apply (inv_attr_final P (mkTraversal attr rem (n :: q))). }
    destruct (decide (x ∈ successors G n)) as [Hs|Hs]; simpl.
    + eexists. split; [done|]. intros i.
      rewrite Z.lor_spec, orb_true_iff, Hbits, Hbn. split.
      * intros [[?|(p & Hp & He & Ho)]|Ho]; [by left| |].
        -- right. exists p. split; [set_solver|done].
        -- right. exists n. split; [set_solver|done].
      * intros [?|(p & [Hp| ->%list_elem_of_singleton]%elem_of_app & He & Ho)];
          [by left; left| |by right].
        left. right. by exists p.
    + exists a. split; [done|]. intros i. rewrite Hbits. split.
      * intros [?|(p & Hp & He & Ho)]; [by left|].
        right. exists p. split; [set_solver|done].
      * intros [?|(p & [Hp| ->%list_elem_of_singleton]%elem_of_app & He & Ho)];
          [by left| |done].
        right. by exists p.
Qed.

Lemma traverse_spec fuel : forall P t,
  traversal_inv G P t ->
  (length (dg_nodes G) <= fuel + length P)%nat ->
  exists P' t', traverse G fuel t = Ok t' /\ traversal_inv G P' t' /\ queue t' = [].
Proof.
  induction fuel as [|fuel IH]; intros P [attr rem [|n q]] Hinv Hlen; simpl.
  - by exists P, (mkTraversal attr rem []).
  - exfalso. pose proof (ti_nodup _ _ _ Hinv) as Hnd. simpl in Hnd.
    assert (P ++ n :: q ⊆+ dg_nodes G) as Hsub.
    { apply NoDup_submseteq; [done|]. apply (ti_nodes _ _ _ Hinv). }
    apply submseteq_length in Hsub. rewrite length_app in Hsub. simpl in Hsub. lia.
  - by exists P, (mkTraversal attr rem []).
  - destruct (traversal_step P attr rem n q Hinv) as (t' & -> & Hinv').
    simpl. apply (IH (P ++ [n])); [done|]. rewrite length_app. simpl. lia.
Qed.

Lemma traversal_init :
  attr_total G ->
  traversal_inv G []
    (mkTraversal (dg_attr G) (count_in_edges G (dg_nodes G) ∅ []).1
                 (count_in_edges G (dg_nodes G) ∅ []).2).
Proof.
  intros Htot. destruct Hwf as (Hnd & Hcl & Hsnd).
  destruct (count_in_edges_spec (dg_nodes G) ∅ [] Hnd) as [Hq Hrem].
  simpl in Hq. split; simpl; rewrite ?Hq.
  - by apply NoDup_filter.
  - by intros x [_ ?]%list_elem_of_filter.
  - intros x Hx [Hz _]%list_elem_of_filter. rewrite Hrem.
    by rewrite !decide_True.
  - intros x Hx Hnin. rewrite Hrem, decide_True by done.
    rewrite pending_nil.
    assert (in_degree G x <> 0) as Hz.
    { intros Hz. apply Hnin. by apply list_elem_of_filter. }
    rewrite decide_False by done. split; [done|]. unfold in_degree in *. lia.
  - intros x p [Hz _]%list_elem_of_filter He.
    apply (pending_zero [] x p); [|done]. by rewrite pending_nil.
  - intros x Hx. destruct (Htot x Hx) as [a Ha]. exists a. split; [done|].
    intros i. split.
    + intros Hb. left. by exists a.
    + intros [(a' & Ha' & Hb)|(p & Hp & _)]; [congruence|].
      by apply elem_of_nil in Hp.
Qed.

Lemma acyclic_walk_NoDup l : forall y x,
  acyclic G -> walk G y l x -> NoDup (y :: l).
Proof.
  induction l as [|z l IH]; intros y x Hac Hw.
  - apply NoDup_singleton.
  - pose proof Hw as [He Hw']. apply NoDup_cons. split; [|by eapply IH].
    intros (l1 & l2 & Heq)%list_elem_of_split. rewrite Heq in Hw.
    apply walk_prefix in Hw. apply (Hac y). apply tc_walk.
    destruct l1 as [|w l1]; simpl in Hw.
    + exists y, []. by destruct Hw.
    + exists w, (l1 ++ [y]). done.
Qed.

Lemma traversal_complete P t :
  traversal_inv G P t -> queue t = [] -> acyclic G ->
  forall x, x ∈ dg_nodes G -> x ∈ P.
Proof.
  intros Hinv Hq Hac.
  assert (forall x, x ∈ dg_nodes G -> (x ∉ P) ->
            exists p, p ∈ dg_nodes G /\ (p ∉ P) /\ edge G p x) as Hpred.
  { intros x Hx HxP. destruct (ti_remaining _ _ _ Hinv x Hx) as [_ Hge].
    { by rewrite Hq, app_nil_r. }
    unfold pending in Hge.
    destruct (filter (fun m => x ∈ successors G m /\ m ∉ P) (dg_nodes G))
      as [|p ps] eqn:Hf; [simpl in Hge; lia|].
    assert (p ∈ filter (fun m => x ∈ successors G m /\ m ∉ P) (dg_nodes G)) as Hp.
    { rewrite Hf. left. }
    apply list_elem_of_filter in Hp as [[He Hp] Hn]. by exists p. }
  assert (forall k x, x ∈ dg_nodes G -> (x ∉ P) ->
            exists y l, walk G y l x /\ length l = k
                        /\ y ∈ dg_nodes G /\ y ∉ P) as Hchain.
  { induction k as [|k IH]; intros x Hx HxP.
    - by exists x, [].
    - destruct (IH x Hx HxP) as (y & l & Hw & Hlen & Hy & HyP).
      destruct (Hpred y Hy HyP) as (p & Hp & HpP & He).
      exists p, (y :: l). simpl. split; [done|]. split; [lia|done]. }
  intros x Hx. destruct (decide (x ∈ P)) as [|HxP]; [done|]. exfalso.
  destruct (Hchain (length (dg_nodes G)) x Hx HxP) as (y & l & Hw & Hlen & Hy & _).
  assert (y :: l ⊆+ dg_nodes G) as Hsub.
  { apply NoDup_submseteq; [by eapply acyclic_walk_NoDup|].
    intros z [->|Hz]%elem_of_cons; [done|]. by eapply walk_nodes. }
  apply submseteq_length in Hsub. simpl in Hsub. lia.
Qed.

(** The traversal returns, whatever the graph. *)
Lemma topological_propagate_total :
  attr_total G ->
  exists attr, topological_propagate G = Ok attr
    /\ forall x, x ∈ dg_nodes G -> is_Some (attr !! x).
Proof.
  intros Htot. unfold topological_propagate.
  pose proof (traversal_init Htot) as Hinit.
  destruct (count_in_edges G (dg_nodes G) ∅ []) as [rem q]. simpl in Hinit.
  destruct (traverse_spec (length (dg_nodes G)) [] _ Hinit) as (P & t & -> & Hinv & Hq);
    [simpl; lia|].
  simpl. exists (reachable_from t). split; [done|]. intros x Hx.
  destruct (ti_attr _ _ _ Hinv x Hx) as (a & -> & _). eauto.
Qed.

(** On an acyclic graph the traversal ends with, in the attribute of every
    node, the bits of the initial attributes of the nodes with a path to it. *)
Lemma topological_propagate_spec :
  attr_total G -> acyclic G ->
  exists attr, topological_propagate G = Ok attr
    /\ forall x, x ∈ dg_nodes G ->
         exists a, attr !! x = Some a
           /\ forall i, Z.testbit a i = true <-> origins G x i.
Proof.
  intros Htot Hac. unfold topological_propagate.
  pose proof (traversal_init Htot) as Hinit.
  destruct (count_in_edges G (dg_nodes G) ∅ []) as [rem q]. simpl in Hinit.
  destruct (traverse_spec (length (dg_nodes G)) [] _ Hinit) as (P & t & -> & Hinv & Hq);
    [simpl; lia|].
  simpl. exists (reachable_from t). split; [done|]. intros x Hx.
  destruct (ti_attr _ _ _ Hinv x Hx) as (a & Ha & _). exists a. split; [done|].
  intros i. apply (inv_attr_final P t); [done| |done].
  apply elem_of_app. left. by apply (traversal_complete P t).
Qed.
End Traversal.

(** ** Building directed graphs *)

Lemma fold_left_flat_map {A B C} (f : A -> C -> A) (g : B -> list C)
    (bs : list B) : forall acc,
  fold_left (fun acc b => fold_left f (g b) acc) bs acc
  = fold_left f (flat_map g bs) acc.
Proof.
  induction bs as [|b bs IH]; intros acc; simpl; [done|].
  by rewrite fold_left_app, IH.
Qed.

Section GraphBuild.
Context {N : Type} `{Countable N}.
Implicit Types (G : DiGraph N) (x y u v n : N).

Lemma successors_add_node n a G x :
  successors (dg_add_node n a G) x = successors G x.
Proof. done. Qed.

Lemma elem_of_nodes_add_node n a G x :
  x ∈ dg_nodes (dg_add_node n a G) <-> x = n \/ x ∈ dg_nodes G.
Proof.
  unfold dg_add_node. simpl. case_bool_decide; set_solver.
Qed.

Lemma nodes_add_node_present n a G :
  n ∈ dg_nodes G -> dg_nodes (dg_add_node n a G) = dg_nodes G.
Proof. intros Hn. unfold dg_add_node. simpl. by rewrite bool_decide_eq_true_2. Qed.

Lemma nodes_add_node_absent n a G :
  n ∉ dg_nodes G -> dg_nodes (dg_add_node n a G) = dg_nodes G ++ [n].
Proof. intros Hn. unfold dg_add_node. simpl. by rewrite bool_decide_eq_false_2. Qed.

Lemma NoDup_nodes_add_node n a G :
  NoDup (dg_nodes G) -> NoDup (dg_nodes (dg_add_node n a G)).
Proof.
  intros Hnd. unfold dg_add_node. simpl. case_bool_decide; [done|].
  apply NoDup_app. split; [done|]. split; [|apply NoDup_singleton].
  intros x Hx ->%list_elem_of_singleton. done.
Qed.

Lemma wf_add_node n a G : wf_digraph G -> wf_digraph (dg_add_node n a G).
Proof.
  intros (Hnd & Hcl & Hs). split; [by apply NoDup_nodes_add_node|]. split; [|done].
  intros x y He. rewrite !elem_of_nodes_add_node.
  destruct (Hcl x y He). auto.
Qed.

Lemma edge_add_edge u v G x y :
  edge (dg_add_edge u v G) x y <-> edge G x y \/ (x = u /\ y = v).
Proof.
  unfold edge, dg_add_edge, successors. simpl.
  destruct (decide (x = u)) as [->|Hne].
  - rewrite lookup_insert_eq. simpl. case_bool_decide; set_solver.
  - rewrite lookup_insert_ne by done. set_solver.
Qed.

Lemma elem_of_nodes_add_edge u v G x :
  x ∈ dg_nodes (dg_add_edge u v G) <-> x = u \/ x = v \/ x ∈ dg_nodes G.
Proof.
  unfold dg_add_edge. simpl.
  change (x ∈ dg_nodes (dg_add_node v None (dg_add_node u None G))
          <-> x = u \/ x = v \/ x ∈ dg_nodes G).
  rewrite !elem_of_nodes_add_node. tauto.
Qed.

Lemma nodes_add_edge_present u v G :
  u ∈ dg_nodes G -> v ∈ dg_nodes G -> dg_nodes (dg_add_edge u v G) = dg_nodes G.
Proof.
  intros Hu Hv. unfold dg_add_edge. simpl.
  change (dg_nodes (dg_add_node v None (dg_add_node u None G)) = dg_nodes G).
  rewrite nodes_add_node_present; by rewrite nodes_add_node_present.
Qed.

Lemma attr_add_edge u v G : dg_attr (dg_add_edge u v G) = dg_attr G.
Proof. done. Qed.

Lemma wf_add_edge u v G : wf_digraph G -> wf_digraph (dg_add_edge u v G).
Proof.
  intros (Hnd & Hcl & Hs). split; [|split].
  - change (NoDup (dg_nodes (dg_add_node v None (dg_add_node u None G)))).
    by do 2 apply NoDup_nodes_add_node.
  - intros x y. rewrite edge_add_edge, !elem_of_nodes_add_edge.
    intros [He|[-> ->]]; [|tauto]. destruct (Hcl x y He). tauto.
  - intros x. unfold dg_add_edge, successors. simpl.
    destruct (decide (x = u)) as [->|Hne].
    + rewrite lookup_insert_eq. simpl. specialize (Hs u). unfold successors in Hs.
      case_bool_decide; [done|]. apply NoDup_app. split; [done|].
      split; [|apply NoDup_singleton].
      intros z Hz ->%list_elem_of_singleton. done.
    + rewrite lookup_insert_ne by done. apply Hs.
Qed.

(** Adding edges between nodes the graph already has. *)
Lemma fold_add_edge es : forall G,
  wf_digraph G ->
  (forall e, e ∈ es -> e.1 ∈ dg_nodes G /\ e.2 ∈ dg_nodes G) ->
  let G' := fold_left (fun G e => dg_add_edge e.1 e.2 G) es G in
  dg_nodes G' = dg_nodes G /\ dg_attr G' = dg_attr G
  /\ (forall x y, edge G' x y <-> edge G x y \/ (x, y) ∈ es)
  /\ wf_digraph G'.
Proof.
  induction es as [|[u v] es IH]; intros G Hwf Hin; simpl.
  - split; [done|]. split; [done|]. split; [|done]. set_solver.
  - destruct (Hin (u, v)) as [Hu Hv]; [left|]. simpl in *.
    destruct (IH (dg_add_edge u v G)) as (Hn & Ha & He & Hwf').
    + by apply wf_add_edge.
    + intros e He. rewrite nodes_add_edge_present by done. apply Hin. by right.
    + rewrite Hn, Ha, nodes_add_edge_present by done.
      split; [done|]. split; [done|]. split; [|done].
      intros x y. rewrite He, edge_add_edge, elem_of_cons. 
      split; [intros [[?|[-> ->]]|?]|intros [?|[?|?]]]; simplify_eq; auto.
Qed.

End GraphBuild.

(** ** The auxiliary graph of the reachability analysis *)

Section ReachGraph.
Implicit Types (s : Store) (a b : AS_ID) (x y : Node).

Lemma as_id_dvalues s :
  keys_ok s -> NoDup (dkeys s) -> map as_id (dvalues s) = dkeys s.
Proof.
  induction s as [|[k v] s IH]; intros Hk Hnd; simpl; [done|].
  apply NoDup_cons in Hnd as [Hn Hnd]. f_equal.
  - apply Hk. simpl. by rewrite decide_True.
  - apply IH; [|done]. intros k' v' Hget. apply Hk. simpl.
    rewrite decide_False; [done|]. intros ->. by apply dget_Some_keys in Hget.
Qed.

Lemma elem_of_dvalues s asys :
  keys_ok s -> NoDup (dkeys s) ->
  asys ∈ dvalues s <-> dget (as_id asys) s = Some asys.
Proof.
  intros Hk Hnd. split.
  - unfold dvalues. intros (kv & -> & Hin)%(list_elem_of_fmap_1 snd).
    destruct kv as [k v]. simpl.
    apply dget_elem_NoDup in Hin as Hget; [|done].
    by rewrite (Hk _ _ Hget).
  - intros Hget%dget_Some_elem.
    by apply (list_elem_of_fmap_2 snd) in Hget.
Qed.

Lemma elem_of_neighbors s a asys b rel :
  links_wf s -> dget a s = Some asys ->
  (b, rel) ∈ neighbors asys <-> nbr s a b = Some rel.
Proof.
  intros Hwf Hget. unfold nbr. rewrite Hget. simpl. split.
  - apply dget_elem_NoDup. by eapply (wf_nbr_nodup _ Hwf).
  - apply dget_Some_elem.
Qed.

Lemma reachability_nodes_spec vals : forall G G',
  reachability_nodes vals G = Ok G' ->
  wf_digraph G -> NoDup (map as_id vals) ->
  (forall asys side, asys ∈ vals -> (side, as_id asys) ∉ dg_nodes G) ->
  dg_nodes G' = dg_nodes G ++ flat_map side_nodes (map as_id vals)
  /\ (forall a, a ∈ map as_id vals ->
        0 <= a /\ dg_attr G' !! (L, a) = Some (Z.shiftl 1 a)
        /\ dg_attr G' !! (R, a) = Some 0)
  /\ (forall x, x.2 ∉ map as_id vals -> dg_attr G' !! x = dg_attr G !! x)
  /\ (forall x y, edge G' x y <->
        edge G x y \/ exists a, a ∈ map as_id vals /\ x = (L, a) /\ y = (R, a))
  /\ wf_digraph G'.
Proof.
  induction vals as [|asys vals IH]; intros G G' Hb Hwf Hnd Hfresh; simpl in *.
  - simplify_eq. rewrite app_nil_r. split; [done|].
    split; [by intros a ?%elem_of_nil|]. split; [done|]. split; [|done].
    intros x y. split; [by left|]. intros [?|(a & ?%elem_of_nil & _)]; done.
  - unfold lshift1 in Hb. destruct (decide (as_id asys < 0)); [done|].
    simpl in Hb. apply NoDup_cons in Hnd as [Hn Hnd].
    set (a0 := as_id asys) in *.
    set (G1 := dg_add_edge (L, a0) (R, a0)
                 (dg_add_node (R, a0) (Some 0)
                    (dg_add_node (L, a0) (Some (Z.shiftl 1 a0)) G))) in *.
    assert (dg_nodes G1 = dg_nodes G ++ [(L, a0); (R, a0)]) as Hnodes1.
    { unfold G1. rewrite nodes_add_edge_present.
      - rewrite nodes_add_node_absent.
        + rewrite nodes_add_node_absent by (apply Hfresh; left).
          by rewrite <- app_assoc.
        + rewrite elem_of_nodes_add_node. intros [?|?]; [done|].
          by apply (Hfresh asys R); [left|].
      - rewrite !elem_of_nodes_add_node. auto.
      - rewrite !elem_of_nodes_add_node. auto. }
    assert (forall x, dg_attr G1 !! x =
              if decide (x = (R, a0)) then Some 0
              else if decide (x = (L, a0)) then Some (Z.shiftl 1 a0)
              else dg_attr G !! x) as Hattr1.
    { intros x. unfold G1. rewrite attr_add_edge. simpl.
      rewrite !lookup_insert. repeat case_decide; simplify_eq; done. }
    destruct (IH G1 G' Hb) as (Hnodes & Hattr & Hother & Hedge & Hwf'); [|done| |].
    { unfold G1. by apply wf_add_edge, wf_add_node, wf_add_node. }
    { intros asys' side Hin Hx. rewrite Hnodes1 in Hx.
      apply elem_of_app in Hx as [Hx|Hx].
      - by apply (Hfresh asys' side); [right|].
      - assert (as_id asys' = a0) by (destruct side; set_solver).
        apply Hn. apply list_elem_of_fmap. by exists asys'. }
    split; [|split; [|split; [|split]]]; [| | | |done].
    + rewrite Hnodes, Hnodes1, <- app_assoc. done.
    + intros a [->|Ha]%elem_of_cons; [|by apply Hattr].
      split; [lia|]. rewrite !Hother, !Hattr1 by done.
      by rewrite decide_False, decide_True, decide_True.
    + intros [side a] [Hne Hnin]%not_elem_of_cons. simpl in *.
      rewrite Hother, Hattr1 by done.
      rewrite !decide_False; [done| |]; intros ?; simplify_eq.
    + intros x y. rewrite Hedge. unfold G1. rewrite edge_add_edge.
      change (edge (dg_add_node (R, a0) (Some 0)
                (dg_add_node (L, a0) (Some (Z.shiftl 1 a0)) G)) x y)
        with (edge G x y).
      split.
      * intros [[?|[-> ->]]|(a & Ha & -> & ->)]; [by left| |].
        -- right. exists a0. split; [left|done].
        -- right. exists a. split; [by right|done].
      * intros [?|(a & [->|Ha]%elem_of_cons & -> & ->)]; [by left; left| |].
        -- left. by right.
        -- right. by exists a.
Qed.

Lemma reachability_edges_flat vals G :
  reachability_edges vals G
  = fold_left (fun G e => dg_add_edge e.1 e.2 G)
      (flat_map (fun asys => map (reachability_edge asys) (neighbors asys)) vals) G.
Proof.
  unfold reachability_edges. rewrite <- fold_left_flat_map.
  revert G. induction vals as [|asys vals IH]; intros G; simpl; [done|].
  rewrite IH. f_equal.
  generalize (neighbors asys). intros es. revert G.
  induction es as [|e es IHes]; intros G; simpl; [done|]. apply IHes.
Qed.

Lemma elem_of_side_nodes s x :
  x ∈ flat_map side_nodes (dkeys s) <-> x.2 ∈ dkeys s.
Proof.
  rewrite list_elem_of_In, in_flat_map. setoid_rewrite <- list_elem_of_In.
  unfold side_nodes. destruct x as [[] a]; simpl; split.
  - intros (b & Hb & Hx). set_solver.
  - intros Ha. exists a. set_solver.
  - intros (b & Hb & Hx). set_solver.
  - intros Ha. exists a. set_solver.
Qed.

(** The graph [_build_reachability_graph] returns. *)
Lemma build_reachability_graph_spec s G :
  links_wf s -> _build_reachability_graph s = Ok G ->
  dg_nodes G = flat_map side_nodes (dkeys s)
  /\ (forall a, a ∈ dkeys s ->
        0 <= a /\ dg_attr G !! (L, a) = Some (Z.shiftl 1 a)
        /\ dg_attr G !! (R, a) = Some 0)
  /\ (forall x, x.2 ∉ dkeys s -> dg_attr G !! x = None)
  /\ (forall x y, edge G x y <-> reach_edge s x y)
  /\ wf_digraph G.
Proof.
  intros Hwf. unfold _build_reachability_graph.
  destruct (reachability_nodes (dvalues s) dg_empty) as [G1| |] eqn:Hb; try done.
  simpl. intros [= <-].
  pose proof (as_id_dvalues s (wf_keys _ Hwf) (wf_nodup _ Hwf)) as Hids.
  destruct (reachability_nodes_spec _ _ _ Hb) as (Hnodes & Hattr & Hother & Hedge & Hwf1).
  { split; [apply NoDup_nil_2|]. split; [|intros; apply NoDup_nil_2].
    intros x y. unfold edge, successors. simpl. rewrite lookup_empty. simpl.
    by intros ?%elem_of_nil. }
  { rewrite Hids. apply (wf_nodup _ Hwf). }
  { intros asys side _. simpl. apply not_elem_of_nil. }
  rewrite Hids in *. simpl in Hnodes.
  rewrite reachability_edges_flat.
  destruct (fold_add_edge
              (flat_map (fun asys => map (reachability_edge asys) (neighbors asys))
                        (dvalues s)) G1 Hwf1) as (Hn2 & Ha2 & He2 & Hwf2).
  { intros e. rewrite list_elem_of_In, in_flat_map.
    intros (asys & Hasys%list_elem_of_In & He%list_elem_of_In).
    apply (list_elem_of_fmap_1 (reachability_edge asys)) in He as ([b rel] & -> & Hin).
    apply elem_of_dvalues in Hasys; [|apply Hwf..].
    apply (elem_of_neighbors s (as_id asys)) in Hin; [|done..].
    destruct (wf_closed _ Hwf _ _ _ Hin) as [asys' Hb'].
    apply dget_Some_keys in Hasys, Hb'.
    rewrite Hnodes, !elem_of_side_nodes. unfold reachability_edge.
    destruct rel; simpl; done. }
  rewrite Hn2, Ha2. split; [done|]. split; [done|]. split; [|split; [|done]].
  { intros x Hx. by rewrite Hother. }
  intros x y. rewrite He2, Hedge. unfold reach_edge. split.
  - intros [[He|?]|Hin]; [| by left |].
    + unfold edge, successors in He. simpl in He. rewrite lookup_empty in He.
      by apply elem_of_nil in He.
    + apply list_elem_of_In, in_flat_map in Hin
        as (asys & Hasys%list_elem_of_In & He%list_elem_of_In).
      apply (list_elem_of_fmap_1 (reachability_edge asys)) in He as ([b rel] & Heq & Hin).
      apply elem_of_dvalues in Hasys; [|apply Hwf..].
      apply (elem_of_neighbors s (as_id asys)) in Hin; [|done..].
      right. unfold reachability_edge in Heq. destruct rel; simpl in Heq; simplify_eq.
      * left. by exists (as_id asys), b.
      * right. left. by exists (as_id asys), b.
      * right. right. by exists (as_id asys), b.
  - assert (forall a b rel, nbr s a b = Some rel ->
              exists asys, asys ∈ dvalues s /\ as_id asys = a
                           /\ (b, rel) ∈ neighbors asys) as Hnbr.
    { intros a b rel Hn. unfold nbr in Hn.
      destruct (dget a s) as [asys|] eqn:Hget; [|done]. simpl in Hn.
      pose proof (wf_keys _ Hwf _ _ Hget) as Hid. exists asys.
      split; [apply elem_of_dvalues; [apply Hwf..|by rewrite Hid]|].
      split; [done|]. by apply dget_Some_elem. }
    assert (forall a b rel, nbr s a b = Some rel ->
              reachability_edge (mkAS a [] false false false ∅) (b, rel)
              ∈ flat_map (fun asys => map (reachability_edge asys) (neighbors asys))
                         (dvalues s)) as Hin.
    { intros a b rel (asys & Hasys & <- & Hbrel)%Hnbr.
      apply list_elem_of_In, in_flat_map. exists asys.
      split; [by apply list_elem_of_In|]. apply list_elem_of_In.
      by apply (list_elem_of_fmap_2 (reachability_edge asys)) in Hbrel. }
    intros [?|[(a & b & Hn & -> & ->)|[(a & b & Hn & -> & ->)|(a & b & Hn & -> & ->)]]].
    + left. by right.
    + right. apply (Hin a b CUSTOMER Hn).
    + right. apply (Hin a b PEER Hn).
    + right. apply (Hin a b PROVIDER Hn).
Qed.

Lemma fold_add_node (ids : list AS_ID) : forall (G : DiGraph AS_ID),
  wf_digraph G ->
  let G' := fold_left (fun G a => dg_add_node a None G) ids G in
  (forall a, a ∈ dg_nodes G' <-> a ∈ ids \/ a ∈ dg_nodes G)
  /\ (forall a b, edge G' a b <-> edge G a b)
  /\ wf_digraph G'.
Proof.
  induction ids as [|a0 ids IH]; intros G Hwf; simpl.
  - split; [set_solver|]. done.
  - destruct (IH (dg_add_node a0 None G)) as (Hn & He & Hwf');
      [by apply wf_add_node|].
    split; [|split; [|done]].
    + intros a. rewrite Hn, elem_of_nodes_add_node, elem_of_cons. tauto.
    + intros a b. by rewrite He.
Qed.

Lemma fold_customer_edges asys entries : forall (G : DiGraph AS_ID),
  fold_left (fun G (entry : AS_ID * Relation) =>
      if decide (entry.2 = CUSTOMER)
      then dg_add_edge (as_id asys) entry.1 G else G) entries G
  = fold_left (fun G e => dg_add_edge e.1 e.2 G)
      (map (fun entry : AS_ID * Relation => (as_id asys, entry.1))
           (filter (fun entry : AS_ID * Relation => entry.2 = CUSTOMER) entries)) G.
Proof.
  induction entries as [|e entries IH]; intros G; simpl; [done|].
  rewrite filter_cons. case_decide; simpl; by rewrite IH.
Qed.

(** The graph of [any_customer_provider_cycles]. *)
Lemma customer_graph_spec s :
  links_wf s ->
  wf_digraph (customer_graph s)
  /\ (forall a b, edge (customer_graph s) a b <-> nbr s a b = Some CUSTOMER).
Proof.
  intros Hwf. unfold customer_graph.
  pose proof (as_id_dvalues s (wf_keys _ Hwf) (wf_nodup _ Hwf)) as Hids.
  set (G1 := fold_left (fun graph asys => dg_add_node (as_id asys) None graph)
               (dvalues s) dg_empty).
  assert (G1 = fold_left (fun G a => dg_add_node a None G) (map as_id (dvalues s))
                 dg_empty) as HG1.
  { unfold G1. generalize (@dg_empty AS_ID _ _). generalize (dvalues s).
    induction l as [|v l IH]; intros G; simpl; [done|]. apply IH. }
  destruct (fold_add_node (map as_id (dvalues s)) dg_empty) as (Hn & He & Hwf1).
  { split; [apply NoDup_nil_2|]. split; [|intros; apply NoDup_nil_2].
    intros x y. unfold edge, successors. simpl. rewrite lookup_empty. simpl.
    by intros ?%elem_of_nil. }
  rewrite <- HG1, Hids in *. clear HG1.
  set (es := flat_map (fun asys =>
               map (fun entry : AS_ID * Relation => (as_id asys, entry.1))
                   (filter (fun entry : AS_ID * Relation => entry.2 = CUSTOMER)
                           (neighbors asys))) (dvalues s)).
  assert (forall G : DiGraph AS_ID,
    fold_left (fun graph asys =>
        fold_left (fun graph (entry : AS_ID * Relation) =>
            if decide (entry.2 = CUSTOMER)
            then dg_add_edge (as_id asys) entry.1 graph else graph)
          (neighbors asys) graph) (dvalues s) G
    = fold_left (fun G e => dg_add_edge e.1 e.2 G) es G) as ->.
  { intros G. unfold es. rewrite <- fold_left_flat_map.
    revert G. generalize (dvalues s).
    induction l as [|v l IH]; intros G; simpl; [done|].
    by rewrite IH, fold_customer_edges. }
  assert (forall a b, (a, b) ∈ es <-> nbr s a b = Some CUSTOMER) as Hes.
  { intros a b. unfold es. rewrite list_elem_of_In, in_flat_map. split.
    - intros (asys & Hasys%list_elem_of_In & He'%list_elem_of_In).
      apply list_elem_of_fmap_1 in He' as ([b' rel] & Heq & [Hrel Hin]%list_elem_of_filter).
      simpl in *. simplify_eq.
      apply elem_of_dvalues in Hasys; [|apply Hwf..].
      by apply (elem_of_neighbors s (as_id asys)) in Hin.
    - intros Hnbr. unfold nbr in Hnbr.
      destruct (dget a s) as [asys|] eqn:Hget; [|done]. simpl in Hnbr.
      pose proof (wf_keys _ Hwf _ _ Hget) as Hid. exists asys. split.
      + apply list_elem_of_In, elem_of_dvalues; [apply Hwf..|by rewrite Hid].
      + apply list_elem_of_In. rewrite <- Hid.
        apply (list_elem_of_fmap_2
                 (fun entry : AS_ID * Relation => (as_id asys, entry.1))
                 _ (b, CUSTOMER)).
        apply list_elem_of_filter. split; [done|]. by apply dget_Some_elem. }
  destruct (fold_add_edge es G1 Hwf1) as (_ & _ & He2 & Hwf2).
  { intros [a b] Hin%Hes. simpl. rewrite !Hn. split; left.
    - unfold nbr in Hin. destruct (dget a s) eqn:Hget; [|done].
      by eapply dget_Some_keys.
    - destruct (wf_closed _ Hwf _ _ _ Hin) as [asys' Hb'].
      by eapply dget_Some_keys. }
  split; [done|]. intros a b. rewrite He2, He, Hes. split; [|by right].
  intros [He'|?]; [|done]. unfold edge, successors in He'. simpl in He'.
  rewrite lookup_empty in He'. by apply elem_of_nil in He'.
Qed.

(** Paths of the auxiliary graph that start on the right side stay there
    and follow customer links; paths that end on the left side never left
    it and follow provider links. *)
Lemma rtc_from_R s G a y :
  (forall x y, edge G x y <-> reach_edge s x y) ->
  rtc (edge G) (R, a) y ->
  exists b, y = (R, b) /\ rtc (fun a b => nbr s a b = Some CUSTOMER) a b.
Proof.
  intros He Hr. remember (R, a) as x eqn:Hx. revert a Hx.
  induction Hr as [x|x z y Hxz _ IH]; intros a ->.
  - by exists a.
  - apply He in Hxz as [(a' & _ & ? & _)|[(a' & b & Hn & Heq & ->)
      |[(a' & b & _ & ? & _)|(a' & b & _ & ? & _)]]]; try discriminate.
    injection Heq as <-.
    destruct (IH b eq_refl) as (c & -> & Hr'). exists c. split; [done|].
    by eapply rtc_l.
Qed.

Lemma rtc_to_L s G x b :
  links_wf s ->
  (forall x y, edge G x y <-> reach_edge s x y) ->
  rtc (edge G) x (L, b) ->
  exists a, x = (L, a) /\ rtc (fun a b => nbr s a b = Some CUSTOMER) b a.
Proof.
  intros Hwf He Hr. remember (L, b) as y eqn:Hy. revert b Hy.
  induction Hr as [x|x z y Hxz _ IH]; intros b ->.
  - by exists b.
  - destruct (IH b eq_refl) as (c & -> & Hr').
    apply He in Hxz as [(a' & _ & _ & ?)|[(a' & b' & _ & _ & ?)
      |[(a' & b' & _ & _ & ?)|(a' & b' & Hn & -> & Heq)]]]; try discriminate.
    injection Heq as ->.
    exists a'. split; [done|]. eapply rtc_r; [done|].
    assert (a' <> b') as Hne by (intros ->; by apply (wf_self _ Hwf b')).
    apply (wf_mirror _ Hwf a' b' PROVIDER Hne Hn).
Qed.

Lemma reachability_graph_acyclic s G :
  links_wf s -> _build_reachability_graph s = Ok G ->
  is_directed_acyclic_graph (customer_graph s) = true ->
  acyclic G.
Proof.
  intros Hwf Hb Hdag.
  destruct (build_reachability_graph_spec s G Hwf Hb) as (_ & _ & _ & He & _).
  destruct (customer_graph_spec s Hwf) as [Hwfc Hec].
  pose proof (is_directed_acyclic_graph_acyclic _ Hwfc Hdag) as Hac.
  assert (forall a b, rtc (fun a b => nbr s a b = Some CUSTOMER) a b ->
            rtc (edge (customer_graph s)) a b) as Hrtc.
  { intros a b Hr. eapply rtc_subrel; [|done]. intros ? ? ?. by apply Hec. }
  assert (forall x y, tc (edge G) x y -> exists z, edge G x z /\ rtc (edge G) z y)
    as Hinv.
  { intros x y Htc. destruct Htc as [x y Hxy|x z y Hxz Hzy].
    - by exists y.
    - exists z. split; [done|]. by apply tc_rtc. }
  intros [[] a] (z & Hxz & Hr)%Hinv.
  - destruct (rtc_to_L s G z a Hwf He Hr) as (b & -> & Hr').
    apply He in Hxz as [(a' & _ & _ & ?)|[(a' & b' & _ & _ & ?)
      |[(a' & b' & _ & _ & ?)|(a' & b' & Hn & Heq1 & Heq2)]]]; try discriminate.
    injection Heq1 as <-. injection Heq2 as ->.
    assert (a <> b') as Hne by (intros ->; by apply (wf_self _ Hwf b')).
    apply (wf_mirror _ Hwf a b' PROVIDER Hne) in Hn. simpl in Hn.
    apply (Hac b'). eapply tc_rtc_r; [apply tc_once, Hec, Hn|]. by apply Hrtc.
  - apply He in Hxz as [(a' & _ & ? & _)|[(a' & b' & Hn & Heq & ->)
      |[(a' & b' & _ & ? & _)|(a' & b' & _ & ? & _)]]]; try discriminate.
    injection Heq as <-.
    destruct (rtc_from_R s G b' (R, a) He Hr) as (c & [= <-] & Hr').
    apply (Hac a). eapply tc_rtc_r; [apply tc_once, Hec, Hn|]. by apply Hrtc.
Qed.
End ReachGraph.

(** ** Counting bits *)

Lemma count_app c (s1 s2 : string) :
  count c (s1 ++ s2) = count c s1 + count c s2.
Proof. induction s1 as [|c' s1 IH]; simpl; [done|]. rewrite IH. lia. Qed.

Lemma count_bin_digits p :
  count "1"%char (bin_digits p) = Z.of_nat (length (set_bits p)).
Proof.
  induction p as [p IH|p IH|]; simpl; [| |done].
  - rewrite count_app, IH, length_fmap. simpl. lia.
  - rewrite count_app, IH, length_fmap. simpl. lia.
Qed.

Lemma set_bits_nonneg p i : i ∈ set_bits p -> 0 <= i.
Proof.
  revert i. induction p as [p IH|p IH|]; simpl; intros i.
  - intros [->|(j & -> & Hj)%list_elem_of_fmap_1]%elem_of_cons; [done|].
    apply IH in Hj. lia.
  - intros (j & -> & Hj)%list_elem_of_fmap_1. apply IH in Hj. lia.
  - intros ->%list_elem_of_singleton. done.
Qed.

Lemma elem_of_succ_set_bits p i :
  i ∈ Z.succ <$> set_bits p <-> 0 < i /\ Z.pred i ∈ set_bits p.
Proof.
  rewrite list_elem_of_fmap. split.
  - intros (j & -> & Hj). rewrite Z.pred_succ. split; [|done].
    apply set_bits_nonneg in Hj. lia.
  - intros [Hi Hp]. exists (Z.pred i). split; [lia|done].
Qed.

Lemma elem_of_set_bits p i : i ∈ set_bits p <-> Z.testbit (Zpos p) i = true.
Proof.
  revert i. induction p as [p IH|p IH|]; intros i; simpl set_bits.
  - rewrite elem_of_cons, elem_of_succ_set_bits, IH, Pos2Z.inj_xI.
    destruct (Z.lt_trichotomy i 0) as [Hi|[->|Hi]].
    + rewrite !Z.testbit_neg_r by lia. split; [|done]. intros [?|[? _]]; lia.
    + rewrite Z.testbit_odd_0. split; [done|]. by left.
    + assert (Z.testbit (2 * Z.pos p + 1) i = Z.testbit (Z.pos p) (Z.pred i)) as ->.
      { rewrite <- (Z.succ_pred i) at 1. apply Z.testbit_odd_succ. lia. }
      split; [|by right].
      intros [->|[_ ?]]; [lia|done].
  - rewrite elem_of_succ_set_bits, IH, Pos2Z.inj_xO.
    destruct (Z.lt_trichotomy i 0) as [Hi|[->|Hi]].
    + rewrite !Z.testbit_neg_r by lia. split; [|done]. intros [? _]; lia.
    + rewrite Z.testbit_even_0. split; [|done]. intros [? _]; lia.
    + assert (Z.testbit (2 * Z.pos p) i = Z.testbit (Z.pos p) (Z.pred i)) as ->.
      { rewrite <- (Z.succ_pred i) at 1. apply Z.testbit_even_succ. lia. }
      split; [|done]. by intros [_ ?].
  - rewrite list_elem_of_singleton.
    change (Z.pos 1) with (2 ^ 0). destruct (Z.lt_trichotomy i 0) as [Hi|[->|Hi]].
    + rewrite !Z.testbit_neg_r by lia. split; [lia|done].
    + done.
    + rewrite Z.pow2_bits_false by lia. split; [lia|done].
Qed.

Lemma NoDup_set_bits p : NoDup (set_bits p).
Proof.
  induction p as [p IH|p IH|]; simpl.
  - apply NoDup_cons. split.
    + intros [? _]%elem_of_succ_set_bits. lia.
    + apply NoDup_fmap; [|done]. intros ? ?. lia.
  - apply NoDup_fmap; [|done]. intros ? ?. lia.
  - apply NoDup_singleton.
Qed.

(** [bit_count] counts the set bits: on a non-negative number, the
    positions of a list without repetition that holds every set bit. *)
Lemma bit_count_filter (x : Z) (l : list Z) :
  0 <= x -> NoDup l -> (forall i, Z.testbit x i = true -> i ∈ l) ->
  bit_count x = Z.of_nat (length (filter (fun i => Z.testbit x i = true) l)).
Proof.
  intros Hx Hnd Hin. unfold bit_count. destruct x as [|p|p]; [| |lia].
  - assert (filter (fun i => Z.testbit 0 i = true) l = []) as ->; [|done].
    clear. induction l as [|i l IH]; [done|].
    rewrite filter_cons, decide_False; [done|]. by rewrite Z.bits_0.
  - change (bin (Z.pos p)) with ("0b" ++ bin_digits p)%string.
    rewrite count_app, count_bin_digits. simpl. rewrite !Z.add_0_l. f_equal.
    apply Permutation_length, NoDup_Permutation.
    + apply NoDup_set_bits.
    + by apply NoDup_filter.
    + intros i. rewrite elem_of_set_bits, list_elem_of_filter. split; [|by intros []].
      intros Hb. split; [done|]. by apply Hin.
Qed.

Lemma list_upper_bound (l : list Z) : exists m, forall k, k ∈ l -> k < m.
Proof.
  induction l as [|k0 l [m Hm]].
  - exists 0. by intros k ?%elem_of_nil.
  - exists (Z.max (k0 + 1) m). intros k [->|Hk%Hm]%elem_of_cons; lia.
Qed.

Lemma nonneg_of_bits (x : Z) (l : list Z) :
  (forall i, Z.testbit x i = true -> i ∈ l) -> 0 <= x.
Proof.
  intros Hin. destruct (decide (0 <= x)) as [|Hneg]; [done|]. exfalso.
  destruct (list_upper_bound l) as [m Hm].
  set (n := Z.max m (Z.log2 (Z.abs x) + 1)).
  assert (Z.testbit x n = true) as Hb.
  { apply Z.bits_iff_neg; lia. }
  apply Hin, Hm in Hb. lia.
Qed.

(** ** Reachability counts *)

Lemma reachability_counts_spec attr ids : forall acc,
  (forall a, a ∈ ids -> is_Some (attr !! (R, a))) ->
  exists counts, reachability_counts attr ids acc = Ok counts
    /\ forall v, dget v counts
         = if decide (v ∈ ids) then bit_count <$> attr !! (R, v) else dget v acc.
Proof.
  induction ids as [|a ids IH]; intros acc Hdef; simpl.
  - by exists acc.
  - destruct (Hdef a) as [bits Hbits]; [left|]. rewrite Hbits. simpl.
    destruct (IH (dset a (bit_count bits) acc)) as (counts & -> & Hc).
    { intros b Hb. apply Hdef. by right. }
    exists counts. split; [done|]. intros v. rewrite Hc, dget_dset.
    repeat case_decide; simplify_eq; try done; try set_solver.
    by rewrite Hbits.
Qed.

Lemma reachability_nodes_ok vals : forall G,
  (forall asys, asys ∈ vals -> 0 <= as_id asys) ->
  exists G', reachability_nodes vals G = Ok G'.
Proof.
  induction vals as [|asys vals IH]; intros G Hpos; simpl; [by eexists|].
  assert (0 <= as_id asys) by (apply Hpos; left).
  unfold lshift1. rewrite decide_False by lia.
  simpl. apply IH. intros asys' Hin. apply Hpos. by right.
Qed.

Lemma build_reachability_graph_ok s :
  links_wf s -> (forall a, a ∈ dkeys s -> 0 <= a) ->
  exists G, _build_reachability_graph s = Ok G.
Proof.
  intros Hwf Hpos. unfold _build_reachability_graph.
  destruct (reachability_nodes_ok (dvalues s) dg_empty) as [G1 ->]; [|by eexists].
  intros asys Hin. apply Hpos.
  rewrite <- (as_id_dvalues s (wf_keys _ Hwf) (wf_nodup _ Hwf)).
  by apply (list_elem_of_fmap_2 as_id).
Qed.

Lemma count_left_ancestors (G : DiGraph Node) k v keys :
  length (filter (fun n : Node => n.1 = L)
            (filter (fun n : Node => n <> (R, v) /\ reaches G k n (R, v))
                    (flat_map side_nodes keys)))
  = length (filter (fun u => reaches G k (L, u) (R, v)) keys).
Proof.
  induction keys as [|u keys IH]; [done|].
  simpl flat_map. rewrite !(filter_cons _ (L, u)), !(filter_cons _ (R, u)), !(filter_cons _ u).
  destruct (decide (Is_true (reaches G k (L, u) (R, v)))) as [Hr|Hr].
  - rewrite decide_True by done. rewrite filter_cons, decide_True by done.
    case_decide; [rewrite filter_cons, decide_False by (simpl; done)|];
      simpl; by rewrite IH.
  - rewrite decide_False by tauto.
    case_decide; [rewrite filter_cons, decide_False by (simpl; done)|];
      simpl; by rewrite IH.
Qed.

Section Reachability.
Variables (s : Store) (G : DiGraph Node).
Hypothesis Hwf : links_wf s.
Hypothesis Hbuild : _build_reachability_graph s = Ok G.

Lemma reach_graph_attr_total : attr_total G.
Proof.
  destruct (build_reachability_graph_spec s G Hwf Hbuild) as (Hn & Ha & _).
  intros [side a]. rewrite Hn, elem_of_side_nodes. simpl. intros Hin.
  destruct (Ha a Hin) as (_ & HL & HR). destruct side; eauto.
Qed.

Lemma reach_graph_seed (y : Node) i :
  seed G y i <-> y = (L, i) /\ i ∈ dkeys s.
Proof.
  destruct (build_reachability_graph_spec s G Hwf Hbuild) as (_ & Ha & Ho & _).
  unfold seed. destruct y as [side u]. destruct (decide (u ∈ dkeys s)) as [Hu|Hu].
  - destruct (Ha u Hu) as (Hpos & HL & HR). destruct side.
    + rewrite HL. split.
      * intros (a0 & [= <-] & Hb). rewrite Z.shiftl_1_l, Z.pow2_bits_eqb in Hb by done.
        apply Z.eqb_eq in Hb as ->. done.
      * intros [[= ->] _]. eexists. split; [done|].
        rewrite Z.shiftl_1_l, Z.pow2_bits_eqb by done. apply Z.eqb_refl.
    + rewrite HR. split; [|by intros [? _]].
      intros (a0 & [= <-] & Hb). by rewrite Z.bits_0 in Hb.
  - rewrite (Ho (side, u)) by done. split.
    + by intros (a0 & ? & _).
    + intros [[= -> ->] ?]. done.
Qed.

Lemma reach_graph_origins v i :
  origins G (R, v) i <-> i ∈ dkeys s /\ rtc (edge G) (L, i) (R, v).
Proof.
  unfold origins. split.
  - intros (y & [-> Hi]%reach_graph_seed & Hr). done.
  - intros [Hi Hr]. exists (L, i). split; [|done]. by apply reach_graph_seed.
Qed.

(** The bit count of the propagated set of [('r', v)] is the number of
    left-side ancestors of [('r', v)]. *)
Lemma bit_count_ancestors v bits :
  (forall i, Z.testbit bits i = true <-> origins G (R, v) i) ->
  bit_count bits
  = Z.of_nat (length (filter (fun n : Node => n.1 = L)
       (filter (fun n : Node =>
                  n <> (R, v) /\ reaches G (length (dg_nodes G)) n (R, v))
               (dg_nodes G)))).
Proof.
  intros Hbits.
  destruct (build_reachability_graph_spec s G Hwf Hbuild) as (Hn & _ & _ & _ & HwfG).
  assert (forall i, Z.testbit bits i = true -> i ∈ dkeys s) as Hin.
  { intros i Hb. apply Hbits, reach_graph_origins in Hb. tauto. }
  rewrite (bit_count_filter bits (dkeys s));
    [|by eapply nonneg_of_bits|apply (wf_nodup _ Hwf)|done].
  assert (forall u, u ∈ dkeys s -> (L, u) ∈ dg_nodes G) as HL.
  { intros u Hu. rewrite Hn. by apply elem_of_side_nodes. }
  set (k := length (dg_nodes G)). rewrite Hn, count_left_ancestors. do 2 f_equal.
  apply filter_ext_in. intros u Hu. rewrite Hbits, reach_graph_origins.
  rewrite Is_true_true. split.
  - intros [_ Hr]. apply rtc_reaches; [done|by apply HL|done].
  - intros Hr%reaches_rtc. done.
Qed.
End Reachability.

(** C5: on a graph without customer-provider cycle, for every AS [v] of the
    graph, [determine_reachability_one(v)] is the entry for [v] of
    [determine_reachability_all()]: both return the same count (or both
    raise the [ValueError] of a negative AS number), and a count is returned
    when no AS number is negative. *)
Theorem reachability_one_eq_all graph pol g v :
  reachable graph pol g ->
  any_customer_provider_cycles g = false ->
  v ∈ dkeys (asyss g) ->
  determine_reachability_one g v
  = (counts ← determine_reachability_all g; of_option KeyError (dget v counts))
  /\ ((forall a, a ∈ dkeys (asyss g) -> 0 <= a) ->
      exists c, determine_reachability_one g v = Ok c).
Proof.
  intros [Hwf _]%reachable_wf Hdag Hv.
  unfold any_customer_provider_cycles in Hdag. apply negb_false_iff in Hdag.
  unfold determine_reachability_one, determine_reachability_all.
  destruct (_build_reachability_graph (asyss g)) as [G|e|] eqn:Hbuild; simpl.
  - pose proof (build_reachability_graph_spec _ G Hwf Hbuild)
      as (Hn & Ha & _ & _ & HwfG).
    pose proof (reachability_graph_acyclic _ G Hwf Hbuild Hdag) as Hac.
    destruct (topological_propagate_spec G HwfG
                (reach_graph_attr_total _ G Hwf Hbuild) Hac)
      as (attr & -> & Hattr).
    simpl.
    assert (forall a, a ∈ dkeys (asyss g) -> (R, a) ∈ dg_nodes G) as HR.
    { intros a Hin. rewrite Hn. by apply elem_of_side_nodes. }
    destruct (reachability_counts_spec attr (dkeys (asyss g)) [])
      as (counts & -> & Hcounts).
    { intros a Hin. destruct (Hattr _ (HR a Hin)) as (bits & -> & _). eauto. }
    simpl. rewrite Hcounts, decide_True by done.
    destruct (Hattr _ (HR v Hv)) as (bits & -> & Hbits). simpl.
    unfold ancestors. rewrite bool_decide_eq_true_2 by auto. simpl.
    split; [|by eexists]. f_equal. symmetry.
    by apply (bit_count_ancestors (asyss g) G Hwf Hbuild).
  - split; [done|]. intros Hpos.
    destruct (build_reachability_graph_ok _ Hwf Hpos) as [G HG]. congruence.
  - split; [done|]. intros Hpos.
    destruct (build_reachability_graph_ok _ Hwf Hpos) as [G HG]. congruence.
Qed.

Lemma reachability_one_eq_all_witness :
  determine_reachability_one chain4 1
  = (counts ← determine_reachability_all chain4; of_option KeyError (dget 1 counts))
  /\ ((forall a, a ∈ dkeys (asyss chain4) -> 0 <= a) ->
      exists c, determine_reachability_one chain4 1 = Ok c).
Proof.
  apply (reachability_one_eq_all chain4_graph DefaultPolicy chain4 1).
  - apply reach_init. reflexivity.
  - reflexivity.
  - vm_compute. repeat constructor.
Defined.

(** C6, at the failing input: the reachability queries have no cycle check.
    On the graph of the customer-provider cycle 1 -> 2 -> 3 -> 1, which
    [any_customer_provider_cycles] reports, neither query raises:
    [determine_reachability_one(1)] returns 3, and
    [determine_reachability_all()] returns the count 0 for every AS, which
    is neither the count of an AS that reaches itself nor what
    [determine_reachability_one] returns. *)
Theorem cycle_reachability_returns :
  reachable cycle_graph DefaultPolicy cycle3
  /\ any_customer_provider_cycles cycle3 = true
  /\ determine_reachability_one cycle3 1 = Ok 3
  /\ determine_reachability_all cycle3 = Ok [(1, 0); (2, 0); (3, 0)].
Proof.
  split; [apply reach_init; reflexivity|].
  repeat split; vm_compute; reflexivity.
Qed.

(** The chain of scenario 2: the reachability of 1 is 3, by either query. *)
Example chain_reachability :
  any_customer_provider_cycles chain = false
  /\ determine_reachability_one chain 1 = Ok 3
  /\ (counts ← determine_reachability_all chain; of_option KeyError (dget 1 counts))
     = Ok 3.
Proof. repeat split; vm_compute; reflexivity. Qed.

(** * Further properties *)

(** ** What propagation writes *)

Lemma Forall2_elem_of_r {A B} (P : A -> B -> Prop) (l : list A) (k : list B) y :
  Forall2 P l k -> y ∈ k -> exists x, x ∈ l /\ P x y.
Proof.
  intros HF (i & Hi)%list_elem_of_lookup_1.
  destruct (Forall2_lookup_r _ _ _ _ _ HF Hi) as (x & Hx & HP).
  exists x. split; [by eapply list_elem_of_lookup_2|done].
Qed.

(** An invariant of the store and of the queued routes that every step of
    the work-queue loop keeps holds when the loop stops. *)
Lemma propagate_invariant pol (I : Store -> Prop) (Q : Route -> Prop) :
  (forall s k asys route,
     I s -> Q route -> final route = Some k -> dget k s = Some asys ->
     I (learn_route pol s asys route).1
     /\ forall nb hop,
          nb ∈ (learn_route pol s asys route).2 ->
          dget nb (learn_route pol s asys route).1 = Some hop ->
          Q (forward_route route hop)) ->
  forall fuel s routes,
    I s -> Forall Q routes -> I (propagate fuel pol s routes).2.
Proof.
  intros Hstep. induction fuel as [|fuel IH]; intros s [|route rest] HI HQ;
    simpl; try done.
  destruct (final route ≫= _) as [asys|] eqn:Hfin; [|done].
  apply bind_Some in Hfin as (k & Hfin & Hget).
  apply Forall_cons in HQ as [Hq HQ].
  destruct (Hstep s k asys route HI Hq Hfin Hget) as [HI' Hfwd].
  destruct (learn_route pol s asys route) as [s' nbs]; simpl in *.
  destruct (mapM _ nbs) as [hops|] eqn:Hhops; simpl; [|done].
  apply IH; [done|]. apply Forall_app. split; [done|].
  apply mapM_Some_1 in Hhops. apply Forall_forall.
  intros r (hop & -> & Hhop)%list_elem_of_fmap_1.
  destruct (Forall2_elem_of_r _ _ _ _ Hhops Hhop) as (nb & Hnb & Hd). eauto.
Qed.

Lemma learn_route_out pol s self route nb :
  nb ∈ (learn_route pol s self route).2 -> nb ∈ dkeys (neighbors self).
Proof.
  unfold learn_route.
  destruct (decide (dest route = as_id self)); [by intros ?%elem_of_nil|].
  destruct (negb (accept_route pol s route)); [by intros ?%elem_of_nil|].
  destruct (match routing_table self !! dest route with
            | Some current => negb (prefer_route pol s current route)
            | None => false end); [by intros ?%elem_of_nil|].
  cbv zeta. unfold dkeys. intros (kv & -> & Hin)%list_elem_of_fmap_1.
  apply elem_of_filter_bool in Hin as [Hin _].
  by apply (list_elem_of_fmap_2 fst) in Hin.
Qed.

Lemma map_values_dset (f : AS -> AS) k (a a' : AS) (s : Store) :
  dget k s = Some a -> f a' = f a ->
  map (fun kv => (kv.1, f kv.2)) (dset k a' s)
  = map (fun kv => (kv.1, f kv.2)) s.
Proof.
  intros Hget Hr. induction s as [|[k0 a0] s IH]; simpl in *; [done|].
  destruct (decide (k = k0)) as [->|]; simpl.
  - simplify_eq. by rewrite Hr.
  - f_equal. auto.
Qed.

Lemma learn_route_keys_ok pol s k asys route :
  keys_ok s -> dget k s = Some asys -> keys_ok (learn_route pol s asys route).1.
Proof.
  intros Hk Hget. eapply keys_ok_links; [|done]. symmetry.
  by eapply learn_route_links.
Qed.

Lemma propagate_clear fuel pol s routes :
  keys_ok s ->
  map (fun kv => (kv.1, reset_routing_table kv.2)) (propagate fuel pol s routes).2
  = map (fun kv => (kv.1, reset_routing_table kv.2)) s.
Proof.
  intros Hk.
  apply (propagate_invariant pol
    (fun s' => keys_ok s'
       /\ map (fun kv => (kv.1, reset_routing_table kv.2)) s'
          = map (fun kv => (kv.1, reset_routing_table kv.2)) s)
    (fun _ => True)); [|done|by apply Forall_true].
  intros s1 k asys route [Hk1 Heq] _ Hfin Hget. split; [|done].
  split; [by eapply learn_route_keys_ok|].
  destruct (learn_route_store pol s1 asys route) as [->|(_ & _ & ->)]; [done|].
  rewrite <- Heq. rewrite (Hk1 _ _ Hget). by eapply (map_values_dset reset_routing_table).
Qed.

(** X1: the propagation operations write nothing but routing tables:
    clearing the tables after [find_routes_to] or [hijack_n_hops] (whether
    they returned, raised or were cut) gives the graph that clearing them
    before gives, with the same ASes in the same order, the same neighbor
    tables and the same flags. *)
Theorem clear_forgets_propagation graph pol g fuel rng target victim attacker n :
  reachable graph pol g ->
  clear_routing_tables (find_routes_to fuel g target).2 = clear_routing_tables g
  /\ clear_routing_tables (hijack_n_hops fuel rng g victim attacker n).2
     = clear_routing_tables g.
Proof.
  intros [Hwf _]%reachable_wf. pose proof (wf_keys _ Hwf) as Hk.
  unfold clear_routing_tables. split.
  - unfold find_routes_to. destruct (dget target (asyss g)) as [t|]; [|done].
    pose proof (propagate_clear fuel (policy g) (asyss g)
                  (map (originate_route t) (dkeys (neighbors t))) Hk) as Heq.
    destruct (propagate _ _ _ _) as [out s']. simpl in *. by rewrite Heq.
  - unfold hijack_n_hops.
    destruct (hijack_route _ _ _ _ _) as [bad| |]; try done.
    destruct (dget attacker (asyss g)) as [att|]; [|done].
    destruct (mapM _ _) as [hops|]; [|done].
    pose proof (propagate_clear fuel (policy g) (asyss g)
                  (map (forward_route bad) hops) Hk) as Heq.
    destruct (propagate _ _ _ _) as [out s']. simpl in *. by rewrite Heq.
Qed.

Lemma clear_forgets_propagation_witness :
  clear_routing_tables (find_routes_to 100 chain4 1).2 = clear_routing_tables chain4
  /\ clear_routing_tables (hijack_n_hops 100 rng0 chain4 1 2 3).2
     = clear_routing_tables chain4.
Proof.
  apply (clear_forgets_propagation chain4_graph DefaultPolicy).
  apply reach_init. reflexivity.
Defined.

(** The entry for [d] of the routing table held under [a]. *)
Lemma table_entry_store s pol a d :
  table_entry (mkASGraph s pol) a d = asys ← dget a s; routing_table asys !! d.
Proof. done. Qed.

(** A propagation of routes that all have destination [t] leaves every
    entry for another destination, and the whole table of the AS [t], as
    they were. *)
Lemma propagate_only_dest pol t fuel s routes :
  keys_ok s -> Forall (fun r => dest r = t) routes ->
  dget t (propagate fuel pol s routes).2 = dget t s
  /\ forall a d, d <> t ->
       (asys ← dget a (propagate fuel pol s routes).2; routing_table asys !! d)
       = (asys ← dget a s; routing_table asys !! d).
Proof.
  intros Hk HQ.
  apply (propagate_invariant pol
    (fun s' => keys_ok s' /\ dget t s' = dget t s
       /\ forall a d, d <> t ->
            (asys ← dget a s'; routing_table asys !! d)
            = (asys ← dget a s; routing_table asys !! d))
    (fun r => dest r = t)); [|done|done].
  intros s1 k asys route (Hk1 & Ht & Hother) Hd Hfin Hget.
  split; [|by intros nb hop _ _].
  split; [by eapply learn_route_keys_ok|].
  destruct (learn_route_store pol s1 asys route) as [->|(Hne & _ & ->)]; [done|].
  rewrite (Hk1 _ _ Hget) in *. rewrite Hd in *. split.
  - by rewrite dget_dset_ne.
  - intros a d Hdt. rewrite <- Hother by done. rewrite dget_dset.
    case_decide; [|done]. subst a. rewrite Hget. simpl.
    by rewrite lookup_insert_ne.
Qed.

(** X2: [find_routes_to(target)] writes entries for [target.id] only, and
    none in the table of the target itself. *)
Theorem find_routes_to_writes graph pol g fuel target a d :
  reachable graph pol g ->
  d <> target \/ a = target ->
  table_entry (find_routes_to fuel g target).2 a d = table_entry g a d.
Proof.
  intros [Hwf _]%reachable_wf Hor. pose proof (wf_keys _ Hwf) as Hk.
  unfold find_routes_to. destruct (dget target (asyss g)) as [t|] eqn:Ht; [|done].
  destruct (propagate_only_dest (policy g) target fuel (asyss g)
              (map (originate_route t) (dkeys (neighbors t))) Hk) as [Hsame Hother].
  { apply Forall_forall. intros r (nb & -> & _)%list_elem_of_fmap_1. simpl.
    by apply Hk. }
  destruct (propagate _ _ _ _) as [out s']. simpl in *.
  rewrite table_entry_store. destruct Hor as [Hd| ->].
  - by rewrite Hother.
  - unfold table_entry, get_asys, get_route. by rewrite Hsame.
Qed.

Lemma find_routes_to_writes_witness :
  table_entry (find_routes_to 100 (find_routes_to 100 chain4 1).2 3).2 4 1
  = table_entry (find_routes_to 100 chain4 1).2 4 1.
Proof.
  apply (find_routes_to_writes chain4_graph DefaultPolicy).
  - apply reach_find, reach_init. reflexivity.
  - left. lia.
Defined.

Lemma hijack_route_shape rng s victim attacker n r :
  hijack_route rng s victim attacker n = Ok r ->
  dest r = victim /\ last (path r) = Some attacker.
Proof.
  unfold hijack_route, hijack_path. intros Hr.
  destruct (decide (n < 0)); [done|].
  destruct (decide (n = 0)) as [->|]; [by simplify_eq/=|].
  destruct (decide (n = 1)) as [->|]; [by simplify_eq/=|].
  destruct (random_sample _ _ _) as [middle| |]; simplify_eq/=.
  split; [done|]. by rewrite last_cons, last_snoc.
Qed.

(** A route through [x] that comes back to [x] is not accepted by a policy
    that rejects loops. *)
Lemma rejects_cycles_return pol s r x :
  rejects_cycles pol -> x ∈ removelast (path r) -> final r = Some x ->
  accept_route pol s r = false.
Proof.
  intros Hpol Hin Hfin. destruct (accept_route pol s r) eqn:Hacc; [|done].
  apply Hpol, contains_cycle_NoDup in Hacc. exfalso.
  unfold final in Hfin. apply last_Some in Hfin as [p Hp]. rewrite Hp in *.
  rewrite removelast_last in Hin. apply NoDup_app in Hacc as (_ & Hd & _).
  apply (Hd x Hin). left.
Qed.

Lemma elem_of_removelast {A} (x : A) l : x ∈ removelast l -> x ∈ l.
Proof.
  induction l as [|y l IH]; simpl; [done|]. destruct l as [|z l].
  - by intros ?%elem_of_nil.
  - intros [->|Hin]%elem_of_cons; [left|right; auto].
Qed.

Lemma propagate_avoids pol x fuel s routes :
  rejects_cycles pol -> keys_ok s ->
  Forall (fun r => x ∈ removelast (path r)) routes ->
  dget x (propagate fuel pol s routes).2 = dget x s.
Proof.
  intros Hpol Hk HQ.
  apply (propagate_invariant pol
    (fun s' => keys_ok s' /\ dget x s' = dget x s)
    (fun r => x ∈ removelast (path r))); [|done|done].
  intros s1 k asys route (Hk1 & Hx) Hin Hfin Hget. split.
  - split; [by eapply learn_route_keys_ok|].
    destruct (learn_route_store pol s1 asys route) as [->|(_ & Hacc & ->)]; [done|].
    rewrite (Hk1 _ _ Hget). rewrite dget_dset_ne; [done|]. intros ->.
    by rewrite (rejects_cycles_return pol s1 route x) in Hacc.
  - intros nb hop _ _. simpl. rewrite removelast_last.
    by apply elem_of_removelast.
Qed.

(** X3: [hijack_n_hops] writes entries for [victim.as_id] only, none in the
    table of the victim and, when the policy rejects loops, none in the
    table of the attacker. *)
Theorem hijack_n_hops_writes graph pol g fuel rng victim attacker n a d :
  reachable graph pol g ->
  d <> victim \/ a = victim \/ (rejects_cycles pol /\ a = attacker) ->
  table_entry (hijack_n_hops fuel rng g victim attacker n).2 a d
  = table_entry g a d.
Proof.
  intros [Hwf Hpol]%reachable_wf Hor. pose proof (wf_keys _ Hwf) as Hk.
  unfold hijack_n_hops.
  destruct (hijack_route _ _ _ _ _) as [bad| |] eqn:Hbad; try done.
  apply hijack_route_shape in Hbad as [Hdest Hlast].
  destruct (dget attacker (asyss g)) as [att|]; [|done].
  destruct (mapM _ _) as [hops|]; [|done].
  destruct (propagate_only_dest (policy g) victim fuel (asyss g)
              (map (forward_route bad) hops) Hk) as [Hsame Hother].
  { apply Forall_forall. by intros r (hop & -> & _)%list_elem_of_fmap_1. }
  assert (rejects_cycles pol ->
          dget attacker (propagate fuel (policy g) (asyss g)
                           (map (forward_route bad) hops)).2
          = dget attacker (asyss g)) as Hatt.
  { intros Hrc. apply propagate_avoids; [by rewrite Hpol|done|].
    apply Forall_forall. intros r (hop & -> & _)%list_elem_of_fmap_1. simpl.
    rewrite removelast_last. by apply last_Some_elem_of. }
  destruct (propagate _ _ _ _) as [out s']. simpl in *.
  rewrite table_entry_store. destruct Hor as [Hd|[->|[Hrc ->]]].
  - by rewrite Hother.
  - unfold table_entry, get_asys, get_route. by rewrite Hsame.
  - unfold table_entry, get_asys, get_route. by rewrite Hatt.
Qed.

Lemma hijack_n_hops_writes_witness :
  table_entry (hijack_n_hops 100 rng0 (find_routes_to 100 chain4 1).2 1 2 3).2 2 1
  = table_entry (find_routes_to 100 chain4 1).2 2 1.
Proof.
  apply (hijack_n_hops_writes chain4_graph DefaultPolicy).
  - apply reach_find, reach_init. reflexivity.
  - right. right. split; [apply DefaultPolicy_rejects_cycles|reflexivity].
Defined.

(** ** Honest routes *)

Lemma linked_links s s' p : links s = links s' -> linked s p -> linked s' p.
Proof.
  intros Hl. induction p as [|x p IH]; [done|]. destruct p as [|y p]; [done|].
  intros [Hn Hp]. split; [by rewrite <- (nbr_links _ _ _ _ Hl)|auto].
Qed.

Lemma linked_snoc s p k nb :
  linked s p -> last p = Some k -> is_Some (nbr s k nb) -> linked s (p ++ [nb]).
Proof.
  intros Hp Hlast Hn. induction p as [|x p IH]; [done|].
  destruct p as [|y p].
  - simpl in *. by simplify_eq.
  - destruct Hp as [Hxy Hp]. split; [done|]. apply IH; [done|].
    by rewrite last_cons_cons in Hlast.
Qed.

Lemma legit_links s s' r : links s = links s' -> legit s r -> legit s' r.
Proof.
  intros Hl (Ho & Hoi & Hpe & Hp). repeat split; try done.
  by eapply linked_links.
Qed.

Lemma propagate_legit pol fuel s routes :
  keys_ok s ->
  (forall a asys d r,
     dget a s = Some asys -> routing_table asys !! d = Some r -> legit s r) ->
  Forall (legit s) routes ->
  forall a asys d r,
    dget a (propagate fuel pol s routes).2 = Some asys ->
    routing_table asys !! d = Some r -> legit s r.
Proof.
  intros Hk Htab HQ.
  apply (propagate_invariant pol
    (fun s' => keys_ok s' /\ links s' = links s
       /\ forall a asys d r,
            dget a s' = Some asys -> routing_table asys !! d = Some r ->
            legit s r)
    (legit s)); [|done|done].
  intros s1 k asys route (Hk1 & Hl1 & Htab1) Hleg Hfin Hget.
  pose proof (learn_route_links pol s1 k asys route Hk1 Hget) as Hl2.
  pose proof (learn_route_keys_ok pol s1 k asys route Hk1 Hget) as Hk2.
  split.
  - split; [done|]. split; [congruence|].
    destruct (learn_route_store pol s1 asys route) as [->|(_ & _ & ->)]; [done|].
    rewrite (Hk1 _ _ Hget). intros a x d r. rewrite dget_dset.
    case_decide; [|by apply Htab1]. intros [= <-]. simpl.
    destruct (decide (dest route = d)) as [<-|].
    + rewrite lookup_insert_eq. by intros [= <-].
    + rewrite lookup_insert_ne by done. by apply (Htab1 k).
  - intros nb hop Hnb Hhop. apply learn_route_out in Hnb.
    apply dkeys_dget in Hnb.
    destruct Hleg as (Ho & Hoi & Hpe & Hp). unfold legit, origin in *. simpl.
    destruct (path route) as [|x p] eqn:Hpath; [done|]. repeat split; try done.
    rewrite (Hk2 _ _ Hhop). rewrite <- Hpath in *.
    apply (linked_snoc _ _ k); [done|done|].
    rewrite <- (nbr_links _ _ _ _ Hl1). unfold nbr. by rewrite Hget.
Qed.

(** X4: honest propagation builds honest tables.  After
    [clear_routing_tables] every entry is a route that starts at the AS
    owning the destination, carries no invalidity flag and follows neighbor
    links, and [find_routes_to] keeps the tables so, whether it returns,
    raises or is cut. *)
Theorem find_routes_to_legit graph pol g fuel target :
  reachable graph pol g ->
  tables_legit (clear_routing_tables g)
  /\ (tables_legit g -> tables_legit (find_routes_to fuel g target).2).
Proof.
  intros [Hwf _]%reachable_wf. pose proof (wf_keys _ Hwf) as Hk. split.
  - intros a d r. unfold table_entry, get_asys, clear_routing_tables. simpl.
    rewrite dget_map_values. destruct (dget a (asyss g)) as [x|]; [|done].
    simpl. unfold get_route. simpl.
    intros [[<- <-]|[_ ?]]%lookup_insert_Some; [by repeat split|done].
  - intros Hleg. unfold find_routes_to.
    destruct (dget target (asyss g)) as [t|] eqn:Ht; [|done].
    pose proof (propagate_legit (policy g) fuel (asyss g)
                  (map (originate_route t) (dkeys (neighbors t))) Hk) as Hp.
    pose proof (propagate_links fuel (policy g) (asyss g)
                  (map (originate_route t) (dkeys (neighbors t))) Hk) as Hl.
    destruct (propagate _ _ _ _) as [out s']. simpl in *.
    intros a d r Hr. unfold table_entry, get_asys in Hr. simpl in *.
    destruct (dget a s') as [x|] eqn:Hx; [|done]. simpl in Hr.
    apply (legit_links (asyss g)); [done|]. refine (Hp _ _ a x d r Hx Hr).
    + intros a0 x0 d0 r0 H1 H2. apply (Hleg a0 d0).
      unfold table_entry, get_asys. by rewrite H1.
    + apply Forall_forall. intros r0 (nb & -> & Hnb)%list_elem_of_fmap_1.
      unfold legit. simpl. split_and!; try done.
      unfold nbr. rewrite (Hk _ _ Ht), Ht. simpl. by apply dkeys_dget.
Qed.

Lemma find_routes_to_legit_witness :
  tables_legit (find_routes_to 100 (clear_routing_tables chain4) 1).2.
Proof.
  apply (find_routes_to_legit chain4_graph DefaultPolicy
           (clear_routing_tables chain4) 100 1).
  - apply reach_clear, reach_init. reflexivity.
  - apply (find_routes_to_legit chain4_graph DefaultPolicy chain4 100 1).
    apply reach_init. reflexivity.
Defined.

(** ** Reachability *)

Lemma forallb_false {A} (f : A -> bool) l :
  forallb f l = false -> exists x, x ∈ l /\ f x = false.
Proof.
  induction l as [|x l IH]; simpl; [done|].
  destruct (f x) eqn:Hx; simpl.
  - intros (y & Hy & Hf)%IH. exists y. split; [by right|done].
  - intros _. exists x. split; [left|done].
Qed.

Lemma tc_iff {A} (R1 R2 : relation A) x y :
  (forall a b, R1 a b <-> R2 a b) -> tc R1 x y <-> tc R2 x y.
Proof.
  intros HR. split; induction 1 as [a b Hab|a b c Hab _ IH].
  - by apply tc_once, HR.
  - eapply tc_l; [by apply HR|done].
  - by apply tc_once, HR.
  - eapply tc_l; [by apply HR|done].
Qed.

Section Soundness.
Context {N : Type} `{Countable N}.
Variable G : DiGraph N.
Hypothesis Hwf : wf_digraph G.

(** Whatever the graph, a bit the traversal leaves in the attribute of a
    node comes from a node with a path to it. *)
Lemma topological_propagate_sound :
  attr_total G ->
  exists attr, topological_propagate G = Ok attr
    /\ forall x, x ∈ dg_nodes G ->
         exists a, attr !! x = Some a
           /\ forall i, Z.testbit a i = true -> origins G x i.
Proof.
  intros Htot. unfold topological_propagate.
  pose proof (traversal_init G Hwf Htot) as Hinit.
  destruct (count_in_edges G (dg_nodes G) ∅ []) as [rem q]. simpl in Hinit.
  destruct (traverse_spec G Hwf (length (dg_nodes G)) [] _ Hinit)
    as (P & t & -> & Hinv & Hq); [simpl; lia|].
  simpl. exists (reachable_from t). split; [done|]. intros x Hx.
  destruct (ti_attr _ _ _ Hinv x Hx) as (a & Ha & Hbits). exists a.
  split; [done|].
  intros i [Hs|(p & _ & He & (y & Hy & Hr))]%Hbits.
  - by exists x.
  - exists y. split; [done|]. by eapply rtc_r.
Qed.

Lemma not_dag_cycle :
  is_directed_acyclic_graph G = false -> exists x, tc (edge G) x x.
Proof.
  unfold is_directed_acyclic_graph.
  intros (x & _ & (z & Hz & Hr)%forallb_false)%forallb_false.
  apply negb_false_iff, reaches_rtc in Hr. exists x.
  eapply tc_rtc_r; [|done]. by apply tc_once.
Qed.
End Soundness.

(** X5: [any_customer_provider_cycles] answers [True] exactly when some AS
    is, through a chain of one or more customer links, its own customer. *)
Theorem any_customer_provider_cycles_iff graph pol g :
  reachable graph pol g ->
  any_customer_provider_cycles g = true
  <-> exists a, tc (fun x y => nbr (asyss g) x y = Some CUSTOMER) a a.
Proof.
  intros [Hwf _]%reachable_wf.
  destruct (customer_graph_spec _ Hwf) as [HwfG He].
  unfold any_customer_provider_cycles. rewrite negb_true_iff. split.
  - intros (a & Ha)%not_dag_cycle. exists a. by apply (tc_iff _ _ _ _ He).
  - intros (a & Ha). apply (tc_iff _ _ _ _ He) in Ha.
    destruct (is_directed_acyclic_graph _) eqn:Hdag; [|done].
    by apply is_directed_acyclic_graph_acyclic in Ha.
Qed.

Lemma any_customer_provider_cycles_iff_witness :
  any_customer_provider_cycles cycle3 = true
  <-> exists a, tc (fun x y => nbr (asyss cycle3) x y = Some CUSTOMER) a a.
Proof.
  apply (any_customer_provider_cycles_iff cycle_graph DefaultPolicy).
  apply reach_init. reflexivity.
Defined.

Section ValleyFree.
Variables (s : Store) (G : DiGraph Node).
Hypothesis Hwf : links_wf s.
Hypothesis Hbuild : _build_reachability_graph s = Ok G.

Lemma provider_closed u a :
  rtc (fun x y => nbr s x y = Some PROVIDER) u a -> u ∈ dkeys s -> a ∈ dkeys s.
Proof.
  induction 1 as [|x y z Hxy _ IH]; [done|]. intros _. apply IH.
  apply (wf_closed _ Hwf) in Hxy as [w Hw]. by eapply dget_Some_keys.
Qed.

Lemma provider_rtc u a :
  rtc (fun x y => nbr s x y = Some PROVIDER) u a -> rtc (edge G) (L, u) (L, a).
Proof.
  destruct (build_reachability_graph_spec s G Hwf Hbuild) as (_ & _ & _ & He & _).
  induction 1 as [|x y z Hxy _ IH]; [done|]. eapply rtc_l; [|done].
  apply He. do 3 right. by exists x, y.
Qed.

Lemma customer_rtc b v :
  rtc (fun x y => nbr s x y = Some CUSTOMER) b v -> rtc (edge G) (R, b) (R, v).
Proof.
  destruct (build_reachability_graph_spec s G Hwf Hbuild) as (_ & _ & _ & He & _).
  induction 1 as [|x y z Hxy _ IH]; [done|]. eapply rtc_l; [|done].
  apply He. right. left. by exists x, y.
Qed.

Lemma rtc_from_L u : forall y,
  rtc (edge G) (L, u) y ->
  match y.1 with
  | L => rtc (fun x y => nbr s x y = Some PROVIDER) u y.2
  | R => valley_free s u y.2
  end.
Proof.
  destruct (build_reachability_graph_spec s G Hwf Hbuild) as (_ & _ & _ & He & _).
  apply rtc_ind_r; [by simpl|]. intros y z _ Hyz IH.
  apply He in Hyz
    as [(a & _ & -> & ->)|[(a & b & Hn & -> & ->)
       |[(a & b & Hn & -> & ->)|(a & b & Hn & -> & ->)]]]; simpl in *.
  - exists a, a. split; [done|]. split; [by left|done].
  - destruct IH as (a' & b' & H1 & H2 & H3). exists a', b'.
    split; [done|]. split; [done|]. by eapply rtc_r.
  - exists a, b. split; [done|]. split; [by right|done].
  - by eapply rtc_r.
Qed.

Lemma valley_free_rtc u v :
  u ∈ dkeys s -> valley_free s u v -> rtc (edge G) (L, u) (R, v).
Proof.
  destruct (build_reachability_graph_spec s G Hwf Hbuild) as (_ & _ & _ & He & _).
  intros Hu (a & b & Hup & Hacross & Hdown).
  etrans; [by apply provider_rtc|]. eapply rtc_l; [|by apply customer_rtc].
  apply He. destruct Hacross as [<-|Hp].
  - left. exists a. split; [by eapply provider_closed|done].
  - right. right. left. by exists a, b.
Qed.

(** What [determine_reachability_one] counts. *)
Lemma reachability_one_count v :
  v ∈ dkeys s ->
  exists l,
    (anc ← ancestors G (R, v);
     Ok (Z.of_nat (length (filter (fun n : Node => n.1 = L) anc))))
    = Ok (Z.of_nat (length l))
    /\ NoDup l
    /\ forall u, u ∈ l <-> u ∈ dkeys s /\ valley_free s u v.
Proof.
  intros Hv.
  destruct (build_reachability_graph_spec s G Hwf Hbuild)
    as (Hn & _ & _ & He & HwfG).
  exists (filter (fun u => reaches G (length (dg_nodes G)) (L, u) (R, v)) (dkeys s)).
  split; [|split].
  - unfold ancestors. rewrite bool_decide_eq_true_2
      by (rewrite Hn; by apply elem_of_side_nodes).
    simpl. do 3 f_equal. set (k := length (dg_nodes G)).
    by rewrite Hn, count_left_ancestors.
  - apply NoDup_filter, (wf_nodup _ Hwf).
  - intros u. rewrite list_elem_of_filter, Is_true_true. split.
    + intros [Hr%reaches_rtc Hu]. split; [done|]. by apply rtc_from_L in Hr.
    + intros [Hu Hvf]. split; [|done].
      apply rtc_reaches; [done|rewrite Hn; by apply elem_of_side_nodes|].
      by apply valley_free_rtc.
Qed.
End ValleyFree.

(** X6: [determine_reachability_one(v)] is the number of ASes [u] of the
    graph with a valley-free route to [v]: up through providers of [u],
    across at most one peer link, down through customers to [v]. *)
Theorem determine_reachability_one_valley_free graph pol g v :
  reachable graph pol g ->
  (forall a, a ∈ dkeys (asyss g) -> 0 <= a) ->
  v ∈ dkeys (asyss g) ->
  exists l,
    determine_reachability_one g v = Ok (Z.of_nat (length l))
    /\ NoDup l
    /\ forall u, u ∈ l <-> u ∈ dkeys (asyss g) /\ valley_free (asyss g) u v.
Proof.
  intros [Hwf _]%reachable_wf Hpos Hv.
  destruct (build_reachability_graph_ok _ Hwf Hpos) as [G Hbuild].
  unfold determine_reachability_one. rewrite Hbuild.
  by apply reachability_one_count.
Qed.

Lemma determine_reachability_one_valley_free_witness :
  exists l,
    determine_reachability_one chain4 1 = Ok (Z.of_nat (length l))
    /\ NoDup l
    /\ forall u, u ∈ l <-> u ∈ dkeys (asyss chain4) /\ valley_free (asyss chain4) u 1.
Proof.
  apply (determine_reachability_one_valley_free chain4_graph DefaultPolicy).
  - apply reach_init. reflexivity.
  - intros a Ha. change (a ∈ [2; 1; 3; 4]) in Ha.
    repeat (apply elem_of_cons in Ha as [->|Ha]; [lia|]).
    by apply elem_of_nil in Ha.
  - vm_compute. repeat constructor.
Defined.

Lemma NoDup_subseteq_length {A} (l k : list A) :
  NoDup l -> l ⊆ k -> (length l <= length k)%nat.
Proof. intros Hnd Hsub. by apply submseteq_length, NoDup_submseteq. Qed.

(** X7: the count of [determine_reachability_one(v)] lies between 1 ([v]
    reaches itself) and the number of ASes, and a customer is reached by at
    least as many ASes as its provider. *)
Theorem determine_reachability_one_bounds graph pol g v :
  reachable graph pol g ->
  (forall a, a ∈ dkeys (asyss g) -> 0 <= a) ->
  v ∈ dkeys (asyss g) ->
  exists c,
    determine_reachability_one g v = Ok c
    /\ 1 <= c <= Z.of_nat (length (dkeys (asyss g)))
    /\ forall w, nbr (asyss g) v w = Some CUSTOMER ->
         exists c', determine_reachability_one g w = Ok c' /\ c <= c'.
Proof.
  intros [Hwf _]%reachable_wf Hpos Hv.
  destruct (build_reachability_graph_ok _ Hwf Hpos) as [G Hbuild].
  unfold determine_reachability_one. rewrite Hbuild.
  destruct (reachability_one_count _ G Hwf Hbuild v Hv) as (l & Hone & Hnd & Hl).
  exists (Z.of_nat (length l)). split; [exact Hone|]. split; [split|].
  - assert (v ∈ l) as Hin.
    { apply Hl. split; [done|]. exists v, v. split; [done|]. split; [by left|done]. }
    destruct l; [by apply elem_of_nil in Hin|]. simpl. lia.
  - apply inj_le, NoDup_subseteq_length; [done|]. intros u Hu. by apply Hl.
  - intros w Hw.
    assert (w ∈ dkeys (asyss g)) as Hwk.
    { apply (wf_closed _ Hwf) in Hw as [x Hx]. by eapply dget_Some_keys. }
    destruct (reachability_one_count _ G Hwf Hbuild w Hwk) as (l' & Hone' & _ & Hl').
    eexists. split; [exact Hone'|]. apply inj_le, NoDup_subseteq_length; [done|].
    intros u (Hu & a & b & H1 & H2 & H3)%Hl. apply Hl'. split; [done|].
    exists a, b. split; [done|]. split; [done|]. by eapply rtc_r.
Qed.

Lemma determine_reachability_one_bounds_witness :
  exists c,
    determine_reachability_one chain4 2 = Ok c
    /\ 1 <= c <= Z.of_nat (length (dkeys (asyss chain4)))
    /\ forall w, nbr (asyss chain4) 2 w = Some CUSTOMER ->
         exists c', determine_reachability_one chain4 w = Ok c' /\ c <= c'.
Proof.
  apply (determine_reachability_one_bounds chain4_graph DefaultPolicy).
  - apply reach_init. reflexivity.
  - intros a Ha. change (a ∈ [2; 1; 3; 4]) in Ha.
    repeat (apply elem_of_cons in Ha as [->|Ha]; [lia|]).
    by apply elem_of_nil in Ha.
  - vm_compute. repeat constructor.
Defined.

Lemma reachability_nodes_negative vals : forall G,
  (exists asys, asys ∈ vals /\ as_id asys < 0) ->
  reachability_nodes vals G = Raise ValueError.
Proof.
  induction vals as [|x vals IH]; intros G (asys & Hin & Hneg); simpl.
  - by apply elem_of_nil in Hin.
  - unfold lshift1. destruct (decide (as_id x < 0)); [done|]. simpl.
    apply IH. apply elem_of_cons in Hin as [->|Hin]; [lia|]. by exists asys.
Qed.

(** X8: the errors of the reachability queries.  A negative AS number in the
    graph makes both queries raise the [ValueError] of the shift
    [1 << as_id]; otherwise [determine_reachability_one] raises networkx's
    error exactly for an AS number that is not in the graph. *)
Theorem reachability_errors graph pol g v :
  reachable graph pol g ->
  ((exists a, a ∈ dkeys (asyss g) /\ a < 0) ->
   determine_reachability_one g v = Raise ValueError
   /\ determine_reachability_all g = Raise ValueError)
  /\ ((forall a, a ∈ dkeys (asyss g) -> 0 <= a) ->
      determine_reachability_one g v = Raise NetworkXError
      <-> v ∉ dkeys (asyss g)).
Proof.
  intros [Hwf _]%reachable_wf. split.
  - intros (a & Ha & Hneg).
    assert (_build_reachability_graph (asyss g) = Raise ValueError) as Hb.
    { unfold _build_reachability_graph.
      rewrite (reachability_nodes_negative (dvalues (asyss g)) dg_empty); [done|].
      apply dkeys_dget in Ha as [asys Hasys]. exists asys.
      pose proof (wf_keys _ Hwf _ _ Hasys) as Hid. split; [|by rewrite Hid].
      apply elem_of_dvalues; [apply Hwf..|]. by rewrite Hid. }
    unfold determine_reachability_one, determine_reachability_all.
    by rewrite Hb.
  - intros Hpos.
    destruct (build_reachability_graph_ok _ Hwf Hpos) as [G Hbuild].
    destruct (build_reachability_graph_spec _ G Hwf Hbuild) as (Hn & _).
    unfold determine_reachability_one, ancestors. rewrite Hbuild. simpl.
    case_bool_decide as Hin; rewrite Hn, elem_of_side_nodes in Hin; simpl in Hin.
    + split; [done|]. by intros [].
    + done.
Qed.

Lemma reachability_errors_witness :
  (determine_reachability_one negative 3 = Raise ValueError
   /\ determine_reachability_all negative = Raise ValueError)
  /\ (determine_reachability_one chain4 7 = Raise NetworkXError
      <-> 7 ∉ dkeys (asyss chain4)).
Proof.
  split.
  - apply (reachability_errors negative_graph DefaultPolicy negative 3).
    + apply reach_init. reflexivity.
    + exists (-5). split; [|lia]. vm_compute. repeat constructor.
  - apply (reachability_errors chain4_graph DefaultPolicy chain4 7).
    + apply reach_init. reflexivity.
    + intros a Ha. change (a ∈ [2; 1; 3; 4]) in Ha.
      repeat (apply elem_of_cons in Ha as [->|Ha]; [lia|]).
      by apply elem_of_nil in Ha.
Defined.

Lemma reachability_counts_keys attr ids : forall acc counts,
  reachability_counts attr ids acc = Ok counts ->
  NoDup ids -> (forall a, a ∈ ids -> a ∉ dkeys acc) ->
  dkeys counts = dkeys acc ++ ids.
Proof.
  induction ids as [|a ids IH]; intros acc counts Hc Hnd Hnew; simpl in *.
  - simplify_eq. by rewrite app_nil_r.
  - destruct (attr !! (R, a)) as [bits|]; [|done]. simpl in Hc.
    apply NoDup_cons in Hnd as [Ha Hnd].
    rewrite (IH _ _ Hc Hnd).
    + rewrite dkeys_dset_absent by (apply Hnew; left). by rewrite <- app_assoc.
    + intros b Hb. rewrite elem_of_dkeys_dset. intros [->|Hin]; [done|].
      by apply (Hnew b); [right|].
Qed.

Lemma length_filter_impl {A} (P Q : A -> Prop)
    `{forall x, Decision (P x)} `{forall x, Decision (Q x)} (l : list A) :
  (forall x, x ∈ l -> P x -> Q x) ->
  (length (filter P l) <= length (filter Q l))%nat.
Proof.
  induction l as [|x l IH]; intros HPQ; [done|].
  rewrite !filter_cons.
  assert (length (filter P l) <= length (filter Q l))%nat as Hle.
  { apply IH. intros y Hy. apply HPQ. by right. }
  destruct (decide (P x)) as [HP|].
  - rewrite decide_True by (apply HPQ; [left|done]). simpl. lia.
  - destruct (decide (Q x)); simpl; lia.
Qed.

(** X9: [determine_reachability_all] returns, whatever the graph, one count
    per AS in the order of the graph, and never more than
    [determine_reachability_one] gives for that AS; a customer-provider
    cycle can only make it count less. *)
Theorem determine_reachability_all_sound graph pol g :
  reachable graph pol g ->
  (forall a, a ∈ dkeys (asyss g) -> 0 <= a) ->
  exists counts,
    determine_reachability_all g = Ok counts
    /\ dkeys counts = dkeys (asyss g)
    /\ forall v c, dget v counts = Some c ->
         exists c', determine_reachability_one g v = Ok c' /\ 0 <= c <= c'.
Proof.
  intros [Hwf _]%reachable_wf Hpos.
  destruct (build_reachability_graph_ok _ Hwf Hpos) as [G Hbuild].
  pose proof (build_reachability_graph_spec _ G Hwf Hbuild)
    as (Hn & Ha & _ & He & HwfG).
  assert (forall a, a ∈ dkeys (asyss g) -> (R, a) ∈ dg_nodes G) as HR.
  { intros a Hin. rewrite Hn. by apply elem_of_side_nodes. }
  unfold determine_reachability_one, determine_reachability_all.
  rewrite Hbuild. simpl.
  destruct (topological_propagate_sound G HwfG
              (reach_graph_attr_total _ G Hwf Hbuild)) as (attr & -> & Hattr).
  simpl.
  destruct (reachability_counts_spec attr (dkeys (asyss g)) [])
    as (counts & Hc & Hcounts).
  { intros a Hin. destruct (Hattr _ (HR a Hin)) as (bits & -> & _). eauto. }
  exists counts. split; [done|]. split.
  { apply (reachability_counts_keys _ _ _ _ Hc); [apply Hwf|].
    by intros a _ ?%elem_of_nil. }
  intros v c. rewrite Hcounts. case_decide as Hv; [|done].
  destruct (Hattr _ (HR v Hv)) as (bits & -> & Hbits). simpl. intros [= <-].
  unfold ancestors. rewrite bool_decide_eq_true_2 by auto. simpl.
  eexists. split; [done|].
  assert (forall i, Z.testbit bits i = true ->
            i ∈ dkeys (asyss g) /\ rtc (edge G) (L, i) (R, v)) as Hor.
  { intros i Hi%Hbits. by apply (reach_graph_origins _ G Hwf Hbuild) in Hi. }
  assert (0 <= bits) as Hnn.
  { apply (nonneg_of_bits bits (dkeys (asyss g))). intros i Hi. by apply Hor. }
  rewrite (bit_count_filter bits (dkeys (asyss g)) Hnn);
    [|apply Hwf|intros i Hi; by apply Hor].
  split; [lia|]. apply inj_le.
  set (k := length (dg_nodes G)). rewrite Hn, count_left_ancestors.
  apply length_filter_impl. intros i Hi Hb. apply Is_true_true.
  apply rtc_reaches; [done|rewrite Hn; by apply elem_of_side_nodes|].
  by apply Hor.
Qed.

Lemma determine_reachability_all_sound_witness :
  exists counts,
    determine_reachability_all cycle3 = Ok counts
    /\ dkeys counts = dkeys (asyss cycle3)
    /\ forall v c, dget v counts = Some c ->
         exists c', determine_reachability_one cycle3 v = Ok c' /\ 0 <= c <= c'.
Proof.
  apply (determine_reachability_all_sound cycle_graph DefaultPolicy).
  - apply reach_init. reflexivity.
  - intros a Ha. change (a ∈ [1; 2; 3]) in Ha.
    repeat (apply elem_of_cons in Ha as [->|Ha]; [lia|]).
    by apply elem_of_nil in Ha.
Defined.

(** ** From the file to the neighbor tables *)

Lemma dget_set_adj u v c adj a :
  dget a (set_adj u v c adj)
  = if decide (u = a) then Some (dset v c (default [] (dget u adj)))
    else dget a adj.
Proof. unfold set_adj. apply dget_dset. Qed.

Lemma edge_customer_set_adj u v c adj a b :
  is_Some (dget u adj) ->
  (nbrs ← dget a (set_adj u v c adj); dget b nbrs)
  = if decide (a = u /\ b = v) then Some c else nbrs ← dget a adj; dget b nbrs.
Proof.
  intros [x Hx]. rewrite dget_set_adj, Hx. simpl.
  destruct (decide (u = a)) as [<-|Hne]; simpl.
  - rewrite dget_dset, Hx. simpl. repeat case_decide; naive_solver.
  - rewrite decide_False by naive_solver. done.
Qed.

Lemma inner_set_adj u v c adj :
  (forall a nbrs, dget a adj = Some nbrs -> NoDup (dkeys nbrs)) ->
  forall a nbrs, dget a (set_adj u v c adj) = Some nbrs -> NoDup (dkeys nbrs).
Proof.
  intros Hin a nbrs. rewrite dget_set_adj. case_decide; [|apply Hin].
  intros [= <-]. apply NoDup_dkeys_dset.
  destruct (dget u adj) as [x|] eqn:Hx; simpl; [by eapply Hin|apply NoDup_nil_2].
Qed.

Lemma inner_add_node n G :
  (forall a nbrs, dget a (nx_adj G) = Some nbrs -> NoDup (dkeys nbrs)) ->
  forall a nbrs, dget a (nx_adj (add_node n G)) = Some nbrs -> NoDup (dkeys nbrs).
Proof.
  intros Hin a nbrs. unfold add_node. destruct (nx_contains G n); [apply Hin|].
  simpl. rewrite dget_dset. case_decide; [|apply Hin].
  intros [= <-]. apply NoDup_nil_2.
Qed.

Lemma add_node_spec n G :
  dkeys (nx_adj G) = nx_nodes G -> NoDup (nx_nodes G) ->
  dkeys (nx_adj (add_node n G)) = nx_nodes (add_node n G)
  /\ NoDup (nx_nodes (add_node n G))
  /\ (forall m, m ∈ nx_nodes (add_node n G) <-> m = n \/ m ∈ nx_nodes G)
  /\ forall a b, edge_customer (add_node n G) a b = edge_customer G a b.
Proof.
  intros Hk Hnd. unfold add_node, nx_contains. case_bool_decide as Hin.
  - split; [done|]. split; [done|]. split; [|done]. intros m. naive_solver.
  - simpl. rewrite <- Hk in Hin. split; [|split; [|split]].
    + rewrite dkeys_dset_absent by done. by rewrite Hk.
    + rewrite <- Hk in *. apply NoDup_app. split; [done|].
      split; [|apply NoDup_singleton].
      by intros x Hx ->%list_elem_of_singleton.
    + intros m. rewrite elem_of_app, list_elem_of_singleton. tauto.
    + intros a b. unfold edge_customer. simpl. rewrite dget_dset.
      case_decide as Ha; [|done]. subst a.
      apply dget_None_keys in Hin. by rewrite Hin.
Qed.

Lemma edge_customer_add_edge u v c G a b :
  dkeys (nx_adj G) = nx_nodes G -> NoDup (nx_nodes G) ->
  edge_customer (add_edge u v c G) a b
  = if decide ((a = u /\ b = v) \/ (a = v /\ b = u)) then Some c
    else edge_customer G a b.
Proof.
  intros Hk Hnd.
  destruct (add_node_spec u G Hk Hnd) as (Hk1 & Hnd1 & Hin1 & He1).
  destruct (add_node_spec v (add_node u G) Hk1 Hnd1) as (Hk2 & Hnd2 & Hin2 & He2).
  assert (is_Some (dget u (nx_adj (add_node v (add_node u G))))) as Hu.
  { apply dkeys_dget. rewrite Hk2. apply Hin2. right. apply Hin1. by left. }
  assert (is_Some (dget v (nx_adj (add_node v (add_node u G))))) as Hv.
  { apply dkeys_dget. rewrite Hk2. apply Hin2. by left. }
  unfold add_edge, edge_customer at 1. simpl.
  rewrite edge_customer_set_adj.
  - rewrite edge_customer_set_adj by done.
    specialize (He2 a b). specialize (He1 a b). unfold edge_customer in *.
    rewrite He2, He1. repeat case_decide; naive_solver.
  - rewrite dget_set_adj. case_decide; [done|]. done.
Qed.

Lemma nodes_add_edge u v c G :
  nx_nodes (add_edge u v c G) = nx_nodes (add_node v (add_node u G)).
Proof. done. Qed.

Lemma dkeys_set_adj u v c adj :
  u ∈ dkeys adj -> dkeys (set_adj u v c adj) = dkeys adj.
Proof. intros Hu. unfold set_adj. by apply dkeys_dset_present. Qed.

Lemma nx_wf_add_edge u v c G :
  nx_wf G -> c = None \/ c = Some u \/ c = Some v -> nx_wf (add_edge u v c G).
Proof.
  intros [Hk Hnd Hcl Hsym Hcu Hinner] Hc.
  destruct (add_node_spec u G Hk Hnd) as (Hk1 & Hnd1 & Hin1 & He1).
  destruct (add_node_spec v (add_node u G) Hk1 Hnd1) as (Hk2 & Hnd2 & Hin2 & He2).
  assert (forall a b, edge_customer (add_edge u v c G) a b
            = if decide ((a = u /\ b = v) \/ (a = v /\ b = u)) then Some c
              else edge_customer G a b) as He.
  { intros a b. by apply edge_customer_add_edge. }
  split.
  - rewrite nodes_add_edge. unfold add_edge. simpl.
    rewrite !dkeys_set_adj; [done| |].
    + rewrite Hk2. apply Hin2. right. apply Hin1. by left.
    + rewrite dkeys_set_adj; rewrite Hk2; apply Hin2; [by left|].
      right. apply Hin1. by left.
  - by rewrite nodes_add_edge.
  - intros a b. rewrite He, nodes_add_edge, Hin2, Hin1.
    case_decide as Hab; [naive_solver|]. intros ?%Hcl. auto.
  - intros a b. rewrite !He. repeat case_decide; naive_solver.
  - intros a b x. rewrite He. case_decide; [naive_solver|]. apply Hcu.
  - unfold add_edge. simpl. do 2 apply inner_set_adj.
    by do 2 apply inner_add_node.
Qed.

Lemma nx_wf_empty : nx_wf nx_empty.
Proof.
  split; try done.
  - apply NoDup_nil_2.
  - by intros a b [x Hx].
Qed.

Lemma contained_add_node n G :
  (if nx_contains G n then G else add_node n G) = add_node n G.
Proof. unfold add_node. by destruct (nx_contains G n). Qed.

(** What a line does to the graph. *)
Lemma parse_line_spec filename line G G' :
  parse_line filename line G = Ok G' ->
  (line_fields line = None /\ G' = G)
  \/ exists as1 as2 rel,
       line_fields line = Some (as1, as2, rel)
       /\ G' = add_edge as1 as2 (if decide (rel = -1) then Some as2 else None)
                 (add_node as2 (add_node as1 G)).
Proof.
  unfold parse_line, line_fields.
  destruct (startswith_hash line); [intros [= <-]; by left|].
  destruct (negb _); [done|].
  destruct (int <$> split "|"%char line) as [|[a1|] [|[a2|] [|[a3|] [|]]]];
    try done.
  rewrite !contained_add_node. intros [= <-]. right. by exists a1, a2, a3.
Qed.

Lemma nx_wf_add_node n G : nx_wf G -> nx_wf (add_node n G).
Proof.
  intros [Hk Hnd Hcl Hsym Hcu Hinner].
  destruct (add_node_spec n G Hk Hnd) as (Hk1 & Hnd1 & Hin1 & He1).
  split; try done.
  - intros a b. rewrite He1, Hin1. intros ?%Hcl. by right.
  - intros a b. by rewrite !He1.
  - intros a b c. rewrite He1. apply Hcu.
  - by apply inner_add_node.
Qed.

Lemma parse_line_wf filename line G G' :
  parse_line filename line G = Ok G' -> nx_wf G -> nx_wf G'.
Proof.
  intros [[_ ->]|(as1 & as2 & rel & _ & ->)]%parse_line_spec Hwf; [done|].
  apply nx_wf_add_edge; [by do 2 apply nx_wf_add_node|].
  case_decide; auto.
Qed.

Lemma parse_lines_wf filename lines : forall G G',
  parse_lines filename lines G = Ok G' -> nx_wf G -> nx_wf G'.
Proof.
  induction lines as [|line lines IH]; simpl; intros G G' Hp Hwf.
  - by simplify_eq.
  - destruct (parse_line filename line G) as [G1| |] eqn:Hl; try done.
    eapply IH; [done|]. by eapply parse_line_wf.
Qed.

Lemma parse_line_customer filename line G G' a b :
  parse_line filename line G = Ok G' -> nx_wf G ->
  edge_customer G' a b
  = match line_fields line with
    | Some (as1, as2, rel) =>
        if decide ((a = as1 /\ b = as2) \/ (a = as2 /\ b = as1))
        then Some (if decide (rel = -1) then Some as2 else None)
        else edge_customer G a b
    | None => edge_customer G a b
    end.
Proof.
  intros [[-> ->]|(as1 & as2 & rel & -> & ->)]%parse_line_spec Hwf; [done|].
  pose proof (nx_wf_add_node as2 _ (nx_wf_add_node as1 _ Hwf)) as [Hk Hnd _ _ _ _].
  rewrite edge_customer_add_edge by done.
  destruct (add_node_spec as1 G (nx_keys _ Hwf) (nx_nodup _ Hwf))
    as (Hk1 & Hnd1 & _ & He1).
  destruct (add_node_spec as2 (add_node as1 G) Hk1 Hnd1) as (_ & _ & _ & He2).
  by rewrite He2, He1.
Qed.

Lemma parse_lines_unnamed filename lines a b : forall G G',
  parse_lines filename lines G = Ok G' -> nx_wf G ->
  Forall (fun l => ~ names a b l) lines ->
  edge_customer G' a b = edge_customer G a b.
Proof.
  induction lines as [|line lines IH]; simpl; intros G G' Hp Hwf Hno.
  - by simplify_eq.
  - destruct (parse_line filename line G) as [G1| |] eqn:Hl; try done.
    apply Forall_cons in Hno as [Hn Hno].
    rewrite (IH G1 G') by (done || by eapply parse_line_wf).
    rewrite (parse_line_customer _ _ _ _ a b Hl Hwf).
    destruct (line_fields line) as [[[as1 as2] rel]|] eqn:Hf; [|done].
    rewrite decide_False; [done|]. intros Hab. apply Hn.
    exists as1, as2, rel. split; [done|]. naive_solver.
Qed.

Lemma elem_of_nx_edges_from adj : forall seen a b,
  NoDup (dkeys adj) -> (a, b) ∈ nx_edges_from adj seen ->
  is_Some (nbrs ← dget a adj; dget b nbrs).
Proof.
  induction adj as [|[n nbrs] adj IH]; simpl; intros seen a b Hnd Hin.
  - by apply elem_of_nil in Hin.
  - apply NoDup_cons in Hnd as [Hn Hnd]. apply elem_of_app in Hin as [Hin|Hin].
    + apply list_elem_of_fmap_1 in Hin as (x & Heq & Hx). simplify_eq.
      rewrite decide_True by done. simpl. apply dkeys_dget.
      by apply elem_of_filter_bool in Hx as [Hx _].
    + specialize (IH _ _ _ Hnd Hin). destruct (decide (a = n)) as [->|]; [|done].
      exfalso. destruct IH as [x Hx].
      by apply bind_Some in Hx as (y & Hy%dget_Some_keys & _).
Qed.

Lemma nx_edges_from_complete adj : forall seen a b,
  is_Some (nbrs ← dget a adj; dget b nbrs) ->
  is_Some (nbrs ← dget b adj; dget a nbrs) ->
  a ∉ seen -> b ∉ seen ->
  (a, b) ∈ nx_edges_from adj seen \/ (b, a) ∈ nx_edges_from adj seen.
Proof.
  induction adj as [|[n nbrs] adj IH]; simpl; intros seen a b Hab Hba Ha Hb.
  - by destruct Hab.
  - destruct (decide (a = n)) as [->|Han].
    + left. apply elem_of_app. left. simpl in Hab.
      apply (list_elem_of_fmap_2 (fun nbr => (n, nbr))).
      apply elem_of_filter_bool. split; [|by apply bool_decide_eq_true_2].
      destruct Hab as [x Hx]. by eapply dget_Some_keys.
    + destruct (decide (b = n)) as [->|Hbn].
      * right. apply elem_of_app. left. simpl in Hba.
        apply (list_elem_of_fmap_2 (fun nbr => (n, nbr))).
        apply elem_of_filter_bool. split; [|by apply bool_decide_eq_true_2].
        destruct Hba as [x Hx]. by eapply dget_Some_keys.
      * destruct (IH (n :: seen) a b) as [H|H]; try done.
        -- by apply not_elem_of_cons.
        -- by apply not_elem_of_cons.
        -- left. apply elem_of_app. by right.
        -- right. apply elem_of_app. by right.
Qed.

Lemma elem_of_nx_edges G a b :
  nx_wf G ->
  (a, b) ∈ nx_edges G \/ (b, a) ∈ nx_edges G <-> is_Some (edge_customer G a b).
Proof.
  intros Hwf.
  assert (NoDup (dkeys (nx_adj G))) as Hnd.
  { rewrite (nx_keys _ Hwf). apply Hwf. }
  unfold nx_edges. split.
  - intros [H|H]; apply elem_of_nx_edges_from in H; try done.
    by rewrite (nx_sym _ Hwf).
  - intros Hab. apply nx_edges_from_complete; try done.
    + by rewrite (nx_sym _ Hwf) in Hab.
    + apply not_elem_of_nil.
    + apply not_elem_of_nil.
Qed.

Lemma init_nodes_spec nodes : forall s,
  NoDup (dkeys s ++ nodes) -> (forall a b, nbr s a b = None) ->
  dkeys (fold_left (fun s id => dset id (AS_init id) s) nodes s) = dkeys s ++ nodes
  /\ forall a b,
       nbr (fold_left (fun s id => dset id (AS_init id) s) nodes s) a b = None.
Proof.
  induction nodes as [|id nodes IH]; simpl; intros s Hnd Hnone.
  - by rewrite app_nil_r.
  - assert (id ∉ dkeys s) as Hid.
    { apply NoDup_app in Hnd as (_ & Hd & _). intros Hin.
      apply (Hd _ Hin). left. }
    destruct (IH (dset id (AS_init id) s)) as [Hk Hn].
    + rewrite dkeys_dset_absent by done. by rewrite <- app_assoc.
    + intros a b. unfold nbr. rewrite dget_dset. case_decide; [done|].
      apply Hnone.
    + split; [|done]. rewrite Hk, dkeys_dset_absent by done.
      by rewrite <- app_assoc.
Qed.

(** Both assignments of one edge of [__init__], read through [nbr]. *)
Lemma init_edge_spec graph s u v c :
  is_Some (dget u s) -> is_Some (dget v s) ->
  edge_customer graph u v = Some c ->
  c = None \/ c = Some u \/ c = Some v ->
  exists s', init_edge graph s (u, v) = Some s'
    /\ dkeys s' = dkeys s
    /\ forall a b,
         nbr s' a b = if decide ((a = u /\ b = v) \/ (a = v /\ b = u))
                      then Some (relation_of b c) else nbr s a b.
Proof.
  intros Hu Hv Hc Hends. unfold init_edge.
  destruct Hu as [x Hx]. destruct Hv as [y Hy]. rewrite Hx, Hy, Hc. simpl.
  assert (forall r1 r2 a b,
            nbr (link u v r1 r2 s) a b =
            if decide (a = v /\ b = u) then Some r2
            else if decide (a = u /\ b = v) then Some r1 else nbr s a b) as Hl.
  { intros r1 r2 a b. apply nbr_link; eauto. }
  assert (forall r1 r2, dkeys (link u v r1 r2 s) = dkeys s) as Hkeys.
  { intros r1 r2. unfold link. by rewrite !dkeys_mutate. }
  unfold relation_of. destruct c as [c|].
  - destruct (decide (c = u)) as [->|Hcu].
    + exists (link u v PROVIDER CUSTOMER s).
      split; [done|]. split; [apply (Hkeys PROVIDER CUSTOMER)|].
      intros a b. rewrite (Hl PROVIDER CUSTOMER a b).
      repeat case_decide; naive_solver.
    + destruct (decide (c = v)) as [->|Hcv]; [|naive_solver].
      exists (link u v CUSTOMER PROVIDER s).
      split; [done|]. split; [apply (Hkeys CUSTOMER PROVIDER)|].
      intros a b. rewrite (Hl CUSTOMER PROVIDER a b).
      repeat case_decide; naive_solver.
  - exists (link u v PEER PEER s).
    split; [done|]. split; [apply (Hkeys PEER PEER)|].
    intros a b. rewrite (Hl PEER PEER a b). repeat case_decide; naive_solver.
Qed.

Lemma init_edges_spec graph es : forall s,
  nx_wf graph -> dkeys s = nx_nodes graph ->
  (forall u v, (u, v) ∈ es -> is_Some (edge_customer graph u v)) ->
  exists s', init_edges graph s es = Some s'
    /\ dkeys s' = dkeys s
    /\ forall a b,
         nbr s' a b = if decide ((a, b) ∈ es \/ (b, a) ∈ es)
                      then relation_of b <$> edge_customer graph a b
                      else nbr s a b.
Proof.
  induction es as [|e es IH]; intros s Hwf Hk Hes.
  - exists s. split; [done|]. split; [done|]. intros a b.
    rewrite decide_False; [done|]. by intros [?%elem_of_nil|?%elem_of_nil].
  - destruct e as [u v].
    destruct (Hes u v) as [c Hc]; [left|].
    assert (u ∈ nx_nodes graph /\ v ∈ nx_nodes graph) as [Hu Hv].
    { split; [|by apply (nx_closed _ Hwf u v)].
      apply (nx_closed _ Hwf v u). by rewrite (nx_sym _ Hwf). }
    destruct (init_edge_spec graph s u v c) as (s1 & Hs1 & Hk1 & Hn1); try done.
    { apply dkeys_dget. by rewrite Hk. }
    { apply dkeys_dget. by rewrite Hk. }
    { destruct c as [c|]; [|by left]. right.
      destruct (nx_cust _ Hwf _ _ _ Hc) as [->| ->]; auto. }
    destruct (IH s1) as (s' & Hs' & Hk' & Hn'); try done.
    { congruence. }
    { intros a b Hab. apply Hes. by right. }
    exists s'. split; [cbn [init_edges]; by rewrite Hs1|]. split; [congruence|].
    intros a b. rewrite Hn', Hn1.
    pose proof (nx_sym _ Hwf u v) as Hsym. rewrite Hc in Hsym.
    destruct (decide ((a, b) ∈ es \/ (b, a) ∈ es)) as [Hin|Hnin].
    + rewrite decide_True; [done|]. destruct Hin; [left|right]; by right.
    + destruct (decide ((a = u /\ b = v) \/ (a = v /\ b = u))) as [Heq|Hne].
      * rewrite decide_True.
        -- destruct Heq as [[-> ->]|[-> ->]]; by rewrite <- ?Hsym, ?Hc.
        -- destruct Heq as [[-> ->]|[-> ->]]; [left|right]; left.
      * rewrite decide_False; [done|].
        intros [[Heq|?]%elem_of_cons|[Heq|?]%elem_of_cons]; naive_solver.
Qed.

(** The constructor on a well-formed graph: it returns, with one AS per
    node in the order of the nodes and the neighbor tables the edge
    attributes prescribe. *)
Lemma ASGraph_init_spec graph pol :
  nx_wf graph ->
  exists g, ASGraph_init graph pol = Some g
    /\ dkeys (asyss g) = nx_nodes graph
    /\ forall a b,
         nbr (asyss g) a b = relation_of b <$> edge_customer graph a b.
Proof.
  intros Hwf. unfold ASGraph_init.
  destruct (init_nodes_spec (nx_nodes graph) []) as [Hk0 Hn0];
    [apply Hwf|done|].
  destruct (init_edges_spec graph (nx_edges graph) (init_nodes (nx_nodes graph)))
    as (s & -> & Hk & Hn); [done|done| |].
  { intros u v Huv. apply elem_of_nx_edges; [done|by left]. }
  simpl. eexists. split; [done|]. simpl. split; [by rewrite Hk|].
  intros a b. rewrite Hn. unfold init_nodes. rewrite Hn0.
  case_decide as Hin; [done|].
  destruct (edge_customer graph a b) eqn:He; [|done].
  exfalso. apply Hin. apply elem_of_nx_edges; [done|]. by rewrite He.
Qed.

Lemma reachable_links graph pol g :
  reachable graph pol g ->
  exists g0, ASGraph_init graph pol = Some g0
    /\ links (asyss g) = links (asyss g0).
Proof.
  induction 1 as [g Hinit|g Hr (g0 & Hg0 & Hl)|g id b Hr (g0 & Hg0 & Hl)
                 |g fuel target Hr (g0 & Hg0 & Hl)
                 |g fuel rng v a n Hr (g0 & Hg0 & Hl)].
  - by exists g.
  - exists g0. split; [done|]. by rewrite clear_links.
  - exists g0. split; [done|]. by rewrite flag_links.
  - exists g0. split; [done|]. rewrite find_routes_to_links; [done|].
    by apply reachable_wf in Hr as [[] _].
  - exists g0. split; [done|]. rewrite hijack_n_hops_links; [done|].
    by apply reachable_wf in Hr as [[] _].
Qed.

Lemma nx_nodes_add_node n G :
  nx_nodes (add_node n G)
  = if bool_decide (n ∈ nx_nodes G) then nx_nodes G else nx_nodes G ++ [n].
Proof. unfold add_node, nx_contains. by case_bool_decide. Qed.

Lemma elem_of_nx_nodes_add_node n m G :
  m ∈ nx_nodes (add_node n G) <-> m = n \/ m ∈ nx_nodes G.
Proof.
  rewrite nx_nodes_add_node. case_bool_decide; [naive_solver|].
  rewrite elem_of_app, list_elem_of_singleton. tauto.
Qed.

Lemma nx_nodes_add_node_in n G :
  n ∈ nx_nodes G -> nx_nodes (add_node n G) = nx_nodes G.
Proof. intros Hn. by rewrite nx_nodes_add_node, bool_decide_eq_true_2. Qed.

(** The nodes of the loaded graph are the AS numbers of the relationship
    lines, each entered when the loader first meets it. *)
Lemma parse_lines_nodes filename lines : forall G G',
  parse_lines filename lines G = Ok G' ->
  nx_nodes G'
  = fold_left (fun seen a => if bool_decide (a ∈ seen) then seen else seen ++ [a])
              (line_numbers lines) (nx_nodes G).
Proof.
  induction lines as [|line lines IH]; intros G G' Hp.
  - simpl in Hp. by simplify_eq.
  - cbn [parse_lines] in Hp.
    destruct (parse_line filename line G) as [G1| |] eqn:Hl; try done.
    simpl in Hp. rewrite (IH _ _ Hp). unfold line_numbers. cbn [flat_map].
    rewrite fold_left_app. f_equal.
    apply parse_line_spec in Hl as [[-> ->]|(as1 & as2 & rel & -> & ->)]; [done|].
    rewrite nodes_add_edge. cbn [fold_left]. rewrite <- !nx_nodes_add_node.
    rewrite (nx_nodes_add_node_in as2), (nx_nodes_add_node_in as1); [done|..];
      rewrite !elem_of_nx_nodes_add_node; auto.
Qed.

Lemma filter_filter_seen (seen : list AS_ID) a (l : list AS_ID) :
  a ∈ seen ->
  filter (fun x => x ∉ seen) (filter (fun x => x <> a) l)
  = filter (fun x => x ∉ seen) l.
Proof.
  intros Ha. induction l as [|x l IH]; [done|].
  rewrite (filter_cons (fun x => x <> a)), (filter_cons (fun x => x ∉ seen) x l).
  destruct (decide (x <> a)) as [Hne|Heq%dec_stable].
  - rewrite filter_cons. by rewrite IH.
  - subst x. rewrite decide_False by (intros H; by apply H). done.
Qed.

Lemma filter_filter_snoc (seen : list AS_ID) a (l : list AS_ID) :
  filter (fun x => x ∉ seen) (filter (fun x => x <> a) l)
  = filter (fun x => x ∉ seen ++ [a]) l.
Proof.
  induction l as [|x l IH]; [done|].
  rewrite (filter_cons (fun x => x <> a)), (filter_cons (fun x => x ∉ seen ++ [a])).
  destruct (decide (x <> a)) as [Hne|Heq%dec_stable].
  - rewrite filter_cons. rewrite IH.
    destruct (decide (x ∉ seen)) as [Hx|Hx].
    + rewrite decide_True; [done|].
      rewrite elem_of_app, list_elem_of_singleton. tauto.
    + rewrite decide_False; [done|].
      rewrite elem_of_app, list_elem_of_singleton. tauto.
  - subst x. rewrite decide_False; [done|].
    intros H. apply H, elem_of_app. right. left.
Qed.

Lemma fold_first_appearances l : forall seen,
  fold_left (fun seen a => if bool_decide (a ∈ seen) then seen else seen ++ [a])
            l seen
  = seen ++ filter (fun x => x ∉ seen) (first_appearances l).
Proof.
  induction l as [|a l IH]; intros seen; simpl.
  - by rewrite app_nil_r.
  - rewrite IH. case_bool_decide as Ha.
    + rewrite filter_cons, decide_False by (intros H; by apply H).
      by rewrite filter_filter_seen.
    + rewrite filter_cons, decide_True by done.
      by rewrite <- app_assoc, filter_filter_snoc.
Qed.

Lemma filter_not_in_nil (l : list AS_ID) : filter (fun x => x ∉ []) l = l.
Proof.
  induction l as [|x l IH]; [done|].
  rewrite filter_cons, decide_True by apply not_elem_of_nil. by rewrite IH.
Qed.

(** X10: a loaded file always builds.  [ASGraph(parse_as_rel_file(f))] raises
    no [KeyError]; it holds one AS per AS number of the relationship lines
    of the file, in the order in which the numbers first appear in the
    file, and each neighbor table holds exactly the edges of the loaded
    graph: [b] is a CUSTOMER of [a] when the edge's customer is [b], a
    PROVIDER when it is [a], a PEER when the edge has none. *)
Theorem loaded_graph_builds filename lines graph pol :
  parse_as_rel_file filename lines = Ok graph ->
  exists g, ASGraph_init graph pol = Some g
    /\ dkeys (asyss g) = first_appearances (line_numbers lines)
    /\ forall a b,
         nbr (asyss g) a b = relation_of b <$> edge_customer graph a b.
Proof.
  intros Hp.
  destruct (ASGraph_init_spec graph pol) as (g & Hg & Hk & Hn).
  { eapply parse_lines_wf; [done|]. apply nx_wf_empty. }
  exists g. split; [done|]. split; [|done].
  rewrite Hk, (parse_lines_nodes _ _ _ _ Hp), fold_first_appearances.
  apply filter_not_in_nil.
Qed.

Lemma loaded_graph_builds_witness :
  exists g, ASGraph_init chain4_graph DefaultPolicy = Some g
    /\ dkeys (asyss g)
       = first_appearances (line_numbers (chain_lines ++ [("3|4|0" ++ nl)%string]))
    /\ forall a b,
         nbr (asyss g) a b = relation_of b <$> edge_customer chain4_graph a b.
Proof.
  apply (loaded_graph_builds "as-rel.txt" (chain_lines ++ [("3|4|0" ++ nl)%string])).
  reflexivity.
Defined.

Lemma loaded_nbr filename lines graph pol g a b :
  parse_as_rel_file filename lines = Ok graph ->
  reachable graph pol g ->
  nbr (asyss g) a b = relation_of b <$> edge_customer graph a b.
Proof.
  intros Hp (g0 & Hg0 & Hl)%reachable_links.
  assert (nx_wf graph) as Hwf.
  { eapply parse_lines_wf; [done|]. apply nx_wf_empty. }
  destruct (ASGraph_init_spec graph pol Hwf) as (g1 & Hg1 & _ & Hn).
  rewrite (nbr_links _ _ a b Hl). by simplify_eq.
Qed.

(** X11: the last line that names a pair decides.  When a relationship line
    [as1|as2|rel] is followed by no other line for the same two ASes, then
    in every state of the graph built from the file [as2] is a CUSTOMER of
    [as1] and [as1] a PROVIDER of [as2] when [rel] is -1, and the two are
    PEERs for any other [rel]; earlier lines for the pair are overridden. *)
Theorem last_line_decides filename pre line post graph pol g as1 as2 rel :
  parse_as_rel_file filename (pre ++ line :: post) = Ok graph ->
  reachable graph pol g ->
  line_fields line = Some (as1, as2, rel) ->
  Forall (fun l => ~ names as1 as2 l) post ->
  nbr (asyss g) as1 as2 = Some (if decide (rel = -1) then CUSTOMER else PEER)
  /\ (as1 <> as2 ->
      nbr (asyss g) as2 as1 = Some (if decide (rel = -1) then PROVIDER else PEER)).
Proof.
  intros Hp Hr Hf Hpost.
  rewrite !(loaded_nbr _ _ _ _ _ _ _ Hp Hr).
  unfold parse_as_rel_file in Hp. rewrite parse_lines_app in Hp.
  destruct (parse_lines filename pre nx_empty) as [G0| |] eqn:Hpre; try done.
  simpl in Hp.
  destruct (parse_line filename line G0) as [G1| |] eqn:Hline; try done.
  simpl in Hp.
  assert (nx_wf G0) as Hwf0.
  { eapply parse_lines_wf; [done|]. apply nx_wf_empty. }
  assert (nx_wf G1) as Hwf1 by (by eapply parse_line_wf).
  assert (nx_wf graph) as Hwf by (by eapply parse_lines_wf).
  rewrite <- (nx_sym _ Hwf as1 as2).
  rewrite (parse_lines_unnamed _ _ as1 as2 _ _ Hp Hwf1 Hpost).
  rewrite (parse_line_customer _ _ _ _ as1 as2 Hline Hwf0), Hf.
  rewrite decide_True by auto. simpl. unfold relation_of.
  split; [|intros Hne]; repeat case_decide; naive_solver.
Qed.

Lemma last_line_decides_witness :
  nbr (asyss (find_routes_to 100 chain4 1).2) 3 2 = Some CUSTOMER
  /\ (3 <> 2 -> nbr (asyss (find_routes_to 100 chain4 1).2) 2 3 = Some PROVIDER).
Proof.
  apply (last_line_decides "as-rel.txt" [("2|1|-1" ++ nl)%string]
           ("3|2|-1" ++ nl) [("3|4|0" ++ nl)%string] chain4_graph DefaultPolicy
           (find_routes_to 100 chain4 1).2 3 2 (-1)).
  - reflexivity.
  - apply reach_find, reach_init. reflexivity.
  - reflexivity.
  - apply Forall_cons. split; [|apply Forall_nil_2].
    intros (x & y & r & Hx & Hxy). vm_compute in Hx. simplify_eq. lia.
Defined.

(** X12: two ASes that no relationship line names together are not
    neighbors, in any state of the graph built from the file. *)
Theorem unnamed_pair_unlinked filename lines graph pol g a b :
  parse_as_rel_file filename lines = Ok graph ->
  reachable graph pol g ->
  Forall (fun l => ~ names a b l) lines ->
  nbr (asyss g) a b = None.
Proof.
  intros Hp Hr Hno. rewrite (loaded_nbr _ _ _ _ _ _ _ Hp Hr).
  unfold parse_as_rel_file in Hp.
  by rewrite (parse_lines_unnamed _ _ a b _ _ Hp nx_wf_empty Hno).
Qed.

Lemma unnamed_pair_unlinked_witness :
  nbr (asyss (find_routes_to 100 chain 1).2) 1 3 = None.
Proof.
  apply (unnamed_pair_unlinked "as-rel.txt" chain_lines chain_graph DefaultPolicy).
  - reflexivity.
  - apply reach_find, reach_init. reflexivity.
  - repeat (apply Forall_cons; split; [|]); [..|apply Forall_nil_2];
      intros (x & y & r & Hx & Hxy); vm_compute in Hx; simplify_eq; lia.
Defined.

(** X13: a comment line changes nothing, wherever it stands in the file. *)
Theorem comment_line_ignored filename pre line post :
  startswith_hash line = true ->
  parse_as_rel_file filename (pre ++ line :: post)
  = parse_as_rel_file filename (pre ++ post).
Proof.
  intros Hc. unfold parse_as_rel_file. rewrite !parse_lines_app.
  destruct (parse_lines filename pre nx_empty); try done. simpl.
  unfold parse_line. by rewrite Hc.
Qed.

Lemma comment_line_ignored_witness :
  parse_as_rel_file "as-rel.txt"
    ([("2|1|-1" ++ nl)%string] ++ ("# source: test" ++ nl)%string
       :: [("3|2|-1" ++ nl)%string])
  = parse_as_rel_file "as-rel.txt"
      ([("2|1|-1" ++ nl)%string] ++ [("3|2|-1" ++ nl)%string]).
Proof. by apply (comment_line_ignored "as-rel.txt"). Defined.

(** ** Providers, neighbor counts and top ISPs *)

Lemma elem_of_get_providers s a asys p :
  links_wf s -> dget a s = Some asys ->
  p ∈ get_providers asys <-> nbr s a p = Some PROVIDER.
Proof.
  intros Hwf Ha. rewrite <- (elem_of_neighbors s a asys p PROVIDER Hwf Ha).
  unfold get_providers, dkeys. split.
  - intros ([k r] & -> & Hin)%list_elem_of_fmap_1.
    apply elem_of_filter_bool in Hin as [Hin Hr]. simpl in *.
    by apply bool_decide_eq_true_1 in Hr as ->.
  - intros Hin. apply (list_elem_of_fmap_2' fst _ (p, PROVIDER)); [|done].
    apply elem_of_filter_bool. split; [done|]. by apply bool_decide_eq_true_2.
Qed.

Lemma NoDup_dkeys_filter {K V} (f : K * V -> bool) (d : dict K V) :
  NoDup (dkeys d) -> NoDup (dkeys (List.filter f d)).
Proof.
  unfold dkeys. induction d as [|kv d IH]; simpl; [done|].
  intros [Hn Hnd]%NoDup_cons. destruct (f kv); simpl; [|auto].
  apply NoDup_cons. split; [|auto].
  intros (kv' & Hk & Hin)%list_elem_of_fmap_1.
  apply elem_of_filter_bool in Hin as [Hin _]. apply Hn. rewrite Hk.
  by apply (list_elem_of_fmap_2 fst).
Qed.

(** X14: [AS.get_providers] lists each provider once: exactly the ASes, other
    than the AS itself, that hold it as a CUSTOMER. *)
Theorem get_providers_spec graph pol g a asys :
  reachable graph pol g ->
  dget a (asyss g) = Some asys ->
  NoDup (get_providers asys)
  /\ forall p, p ∈ get_providers asys
       <-> p <> a /\ nbr (asyss g) p a = Some CUSTOMER.
Proof.
  intros [Hwf _]%reachable_wf Ha. split.
  - apply NoDup_dkeys_filter. by apply (wf_nbr_nodup _ Hwf a).
  - intros p. rewrite (elem_of_get_providers _ a asys p Hwf Ha). split.
    + intros Hp. assert (a <> p) as Hne.
      { intros ->. by apply (wf_self _ Hwf p). }
      split; [done|]. by apply (wf_mirror _ Hwf a p PROVIDER).
    + intros [Hne Hc]. by apply (wf_mirror _ Hwf p a CUSTOMER).
Qed.

Lemma get_providers_spec_witness :
  NoDup (get_providers (default (AS_init 1) (get_asys chain4 1)))
  /\ forall p, p ∈ get_providers (default (AS_init 1) (get_asys chain4 1))
       <-> p <> 1 /\ nbr (asyss chain4) p 1 = Some CUSTOMER.
Proof.
  apply (get_providers_spec chain4_graph DefaultPolicy).
  - apply reach_init. reflexivity.
  - reflexivity.
Defined.

Lemma elem_of_fold_union (l : list AS_ID) : forall (X : gset AS_ID) p,
  p ∈ fold_left (fun providers p_id => providers ∪ {[p_id]}) l X
  <-> p ∈ X \/ p ∈ l.
Proof.
  induction l as [|x l IH]; simpl; intros X p.
  - rewrite elem_of_nil. tauto.
  - rewrite IH, elem_of_union, elem_of_singleton, elem_of_cons. tauto.
Qed.

Lemma collect_providers_spec s ids : forall X,
  links_wf s ->
  (Forall (fun a => a ∈ dkeys s) ids ->
   exists ps, collect_providers s ids X = Ok ps
     /\ forall p, p ∈ ps
          <-> p ∈ X \/ exists a, a ∈ ids /\ nbr s a p = Some PROVIDER)
  /\ (Exists (fun a => a ∉ dkeys s) ids ->
      collect_providers s ids X = Raise KeyError).
Proof.
  induction ids as [|id ids IH]; intros X Hwf; simpl.
  - split.
    + intros _. exists X. split; [done|]. intros p. split; [auto|].
      intros [?|(a & ?%elem_of_nil & _)]; done.
    + by intros ?%Exists_nil.
  - destruct (dget id s) as [asys|] eqn:Hid; simpl.
    + destruct (IH (fold_left (fun providers p_id => providers ∪ {[p_id]})
                              (get_providers asys) X) Hwf) as [IH1 IH2].
      split.
      * intros [_ Hall]%Forall_cons. destruct (IH1 Hall) as (ps & -> & Hps).
        exists ps. split; [done|]. intros p.
        rewrite Hps, elem_of_fold_union, (elem_of_get_providers s id asys p Hwf Hid).
        split.
        -- intros [[?|?]|(a & Ha & Hp)]; [by left|right..].
           ++ exists id. split; [left|done].
           ++ exists a. split; [by right|done].
        -- intros [?|(a & [->|Ha]%elem_of_cons & Hp)]; [by left; left|by left; right|].
           right. by exists a.
      * intros [Hn|Hex]%Exists_cons; [|by apply IH2].
        exfalso. apply Hn. by eapply dget_Some_keys.
    + split.
      * intros [Hin _]%Forall_cons. apply dkeys_dget in Hin as [x Hx]. congruence.
      * done.
Qed.

(** X15: [ASGraph.get_providers(ids)] collects exactly the ASes that one of
    [ids] holds as a PROVIDER, and raises [KeyError] as soon as one of [ids]
    is no AS of the graph. *)
Theorem ASGraph_get_providers_spec graph pol g ids :
  reachable graph pol g ->
  (Forall (fun a => a ∈ dkeys (asyss g)) ids ->
   exists ps, ASGraph_get_providers g ids = Ok ps
     /\ forall p, p ∈ ps
          <-> exists a, a ∈ ids /\ nbr (asyss g) a p = Some PROVIDER)
  /\ (Exists (fun a => a ∉ dkeys (asyss g)) ids ->
      ASGraph_get_providers g ids = Raise KeyError).
Proof.
  intros [Hwf _]%reachable_wf.
  destruct (collect_providers_spec (asyss g) ids ∅ Hwf) as [H1 H2].
  split; [|done]. intros Hall. destruct (H1 Hall) as (ps & Hps & Hin).
  exists ps. split; [done|]. intros p. rewrite Hin. split; [|auto].
  by intros [?%elem_of_empty|?].
Qed.

Lemma ASGraph_get_providers_spec_witness :
  (exists ps, ASGraph_get_providers chain4 [1; 2] = Ok ps
     /\ forall p, p ∈ ps
          <-> exists a, a ∈ [1; 2] /\ nbr (asyss chain4) a p = Some PROVIDER)
  /\ ASGraph_get_providers chain4 [1; 9] = Raise KeyError.
Proof.
  split.
  - apply (ASGraph_get_providers_spec chain4_graph DefaultPolicy chain4 [1; 2]).
    + apply reach_init. reflexivity.
    + repeat (apply Forall_cons; split; [vm_compute; repeat constructor|]).
      apply Forall_nil_2.
  - apply (ASGraph_get_providers_spec chain4_graph DefaultPolicy chain4 [1; 9]).
    + apply reach_init. reflexivity.
    + apply Exists_cons_tl, Exists_cons_hd. intros Hin.
      change (9 ∈ [2; 1; 3; 4]) in Hin.
      repeat (apply elem_of_cons in Hin as [Hin|Hin]; [lia|]).
      by apply elem_of_nil in Hin.
Defined.

Lemma count_relations_spec d : forall c p r,
  count_relations (dvalues d) [(CUSTOMER, c); (PEER, p); (PROVIDER, r)]
  = Ok [(CUSTOMER, c + count_relation CUSTOMER d);
        (PEER, p + count_relation PEER d);
        (PROVIDER, r + count_relation PROVIDER d)].
Proof.
  unfold count_relation.
  induction d as [|[k rel] d IH]; intros c p r.
  - simpl. by rewrite !Z.add_0_r.
  - cbn [dvalues map snd count_relations dget dset List.filter].
    fold (dvalues d).
    destruct rel;
      repeat (first [rewrite decide_True by done|rewrite decide_False by done
                    |rewrite bool_decide_eq_true_2 by done
                    |rewrite bool_decide_eq_false_2 by done
                    |progress cbn [of_option mbind result_bind rbind]]);
      rewrite IH; cbn [length];
      by rewrite Nat2Z.inj_succ, <- Z.add_1_l, Z.add_assoc.
Qed.

Lemma count_relation_sum d :
  count_relation CUSTOMER d + count_relation PEER d + count_relation PROVIDER d
  = Z.of_nat (length d).
Proof.
  unfold count_relation. induction d as [|[k []] d IH]; [done|..];
    cbn [List.filter snd];
    repeat (first [rewrite bool_decide_eq_true_2 by done
                  |rewrite bool_decide_eq_false_2 by done]);
    cbn [length]; lia.
Qed.

(** X16: [AS.neighbor_counts_by_relation] never raises; it returns, in the
    order of the enumeration, the number of neighbors held under each
    relation, and the three counts add up to the number of neighbors. *)
Theorem neighbor_counts_by_relation_spec (asys : AS) :
  neighbor_counts_by_relation asys
  = Ok [(CUSTOMER, count_relation CUSTOMER (neighbors asys));
        (PEER, count_relation PEER (neighbors asys));
        (PROVIDER, count_relation PROVIDER (neighbors asys))]
  /\ count_relation CUSTOMER (neighbors asys)
     + count_relation PEER (neighbors asys)
     + count_relation PROVIDER (neighbors asys)
     = Z.of_nat (length (neighbors asys)).
Proof.
  split; [|apply count_relation_sum].
  unfold neighbor_counts_by_relation. simpl map.
  by rewrite count_relations_spec.
Qed.

Section SortBy.
Context {A : Type}.
Variable key : A -> Z.

Lemma insert_by_perm x l : insert_by key x l ≡ₚ x :: l.
Proof.
  induction l as [|y l IH]; simpl; [done|]. case_decide; [done|].
  rewrite IH. apply Permutation_swap.
Qed.

Lemma sort_by_perm l : sort_by key l ≡ₚ l.
Proof.
  induction l as [|x l IH]; simpl; [done|]. by rewrite insert_by_perm, IH.
Qed.

Lemma insert_by_sorted x l :
  StronglySorted (fun a b => key a <= key b) l ->
  StronglySorted (fun a b => key a <= key b) (insert_by key x l).
Proof.
  induction 1 as [|y l Hs IH Hy]; simpl.
  - by repeat constructor.
  - case_decide as Hxy.
    + constructor; [by constructor|]. constructor; [done|].
      eapply Forall_impl; [done|]. simpl. intros; lia.
    + constructor; [done|]. rewrite insert_by_perm.
      constructor; [lia|done].
Qed.

Lemma sort_by_sorted l : StronglySorted (fun a b => key a <= key b) (sort_by key l).
Proof.
  induction l as [|x l IH]; simpl; [constructor|]. by apply insert_by_sorted.
Qed.

(** The sort is stable: elements with equal keys keep their order. *)
Lemma insert_by_stable c x l :
  filter (fun a => key a = c) (insert_by key x l)
  = filter (fun a => key a = c) (x :: l).
Proof.
  induction l as [|y l IH]; simpl; [done|]. case_decide as Hxy; [done|].
  rewrite filter_cons, IH, !filter_cons.
  repeat case_decide; try done; lia.
Qed.

Lemma sort_by_stable c l :
  filter (fun a => key a = c) (sort_by key l) = filter (fun a => key a = c) l.
Proof.
  induction l as [|x l IH]; simpl; [done|].
  by rewrite insert_by_stable, !filter_cons, IH.
Qed.
End SortBy.

Lemma sort_by_map {A B} (key : B -> Z) (f : A -> B) l :
  sort_by key (map f l) = map f (sort_by (fun a => key (f a)) l).
Proof.
  induction l as [|x l IH]; simpl; [done|]. rewrite IH.
  generalize (sort_by (fun a => key (f a)) l). intros k.
  induction k as [|y k IHk]; simpl; [done|]. case_decide; [done|].
  by rewrite IHk.
Qed.

Lemma slice_to_map {A B} (f : A -> B) n l :
  slice_to n (map f l) = map f (slice_to n l).
Proof.
  unfold slice_to. rewrite length_map. case_decide; symmetry; apply fmap_take.
Qed.

Lemma mapM_Ok {A B} (f : A -> result B) (h : A -> B) l :
  (forall x, x ∈ l -> f x = Ok (h x)) -> mapM f l = Ok (map h l).
Proof.
  intros Hf. induction l as [|x l IH]; simpl; [done|].
  rewrite Hf by left. simpl. rewrite IH; [done|]. intros y Hy. apply Hf. by right.
Qed.

Lemma StronglySorted_impl {A} (R1 R2 : A -> A -> Prop) l :
  (forall x y, R1 x y -> R2 x y) -> StronglySorted R1 l -> StronglySorted R2 l.
Proof.
  intros HR. induction 1 as [|x l Hs IH Hx]; constructor; [done|].
  eapply Forall_impl; [done|]. auto.
Qed.

(** [identify_top_isps] in closed form. *)
Lemma identify_top_isps_eq g n :
  identify_top_isps g n
  = Ok (slice_to n (sort_by (fun asys => - customers asys) (dvalues (asyss g)))).
Proof.
  unfold identify_top_isps.
  rewrite (mapM_Ok _ (fun asys =>
             (asys, [(CUSTOMER, count_relation CUSTOMER (neighbors asys));
                     (PEER, count_relation PEER (neighbors asys));
                     (PROVIDER, count_relation PROVIDER (neighbors asys))]))).
  2:{ intros asys _. unfold neighbor_counts_by_relation. simpl map.
      by rewrite count_relations_spec. }
  cbn [mbind result_bind rbind].
  rewrite (mapM_Ok _ (fun pair : AS * dict Relation Z =>
             (pair, - default 0 (dget CUSTOMER pair.2)))).
  2:{ intros pair (asys & -> & _)%list_elem_of_fmap_1.
      cbn [snd dget]. by rewrite decide_True. }
  cbn [mbind result_bind rbind]. f_equal.
  rewrite map_map, sort_by_map, slice_to_map, map_map. cbn [fst].
  by rewrite map_id.
Qed.

(** X17: [identify_top_isps(n)] never raises.  It returns a prefix of the
    ASes sorted by descending number of customers, ASes with equally many
    customers staying in the order of the graph: the first [n] for [n >= 0]
    (all of them when there are fewer), all but the last [-n] for [n < 0]. *)
Theorem identify_top_isps_spec g n :
  exists top rest,
    identify_top_isps g n = Ok top
    /\ length top
       = (if decide (0 <= n)
          then (Z.to_nat n `min` length (dvalues (asyss g)))%nat
          else (length (dvalues (asyss g)) - Z.to_nat (- n))%nat)
    /\ top ++ rest ≡ₚ dvalues (asyss g)
    /\ StronglySorted (fun x y => customers y <= customers x) (top ++ rest)
    /\ forall c, filter (fun asys => customers asys = c) (top ++ rest)
                 = filter (fun asys => customers asys = c) (dvalues (asyss g)).
Proof.
  rewrite identify_top_isps_eq.
  set (key := fun asys => - customers asys).
  set (sorted := sort_by key (dvalues (asyss g))).
  assert (length sorted = length (dvalues (asyss g))) as Hlen.
  { apply Permutation_length, sort_by_perm. }
  assert (exists k, slice_to n sorted = take k sorted
            /\ length (take k sorted)
               = (if decide (0 <= n)
                  then (Z.to_nat n `min` length (dvalues (asyss g)))%nat
                  else (length (dvalues (asyss g)) - Z.to_nat (- n))%nat))
    as (k & Hk & Hlk).
  { unfold slice_to. case_decide; eexists; (split; [done|]);
      rewrite length_take, Hlen; lia. }
  exists (take k sorted), (drop k sorted). rewrite take_drop.
  split; [by rewrite Hk|]. split; [done|]. split; [apply sort_by_perm|].
  split.
  - apply (StronglySorted_impl (fun a b => key a <= key b)); [|apply sort_by_sorted].
    unfold key. intros; lia.
  - intros c.
    assert (forall l : list AS,
              filter (fun asys => customers asys = c) l
              = filter (fun asys => key asys = - c) l) as Hf.
    { intros l. apply list_filter_iff. unfold key. intros; lia. }
    rewrite !Hf. apply sort_by_stable.
Qed.

Lemma elem_of_dkeys_filter {K V} `{EqDecision K} (f : K * V -> bool)
    (d : dict K V) k :
  NoDup (dkeys d) ->
  k ∈ dkeys (List.filter f d) <-> exists v, dget k d = Some v /\ f (k, v) = true.
Proof.
  intros Hnd. unfold dkeys at 1. split.
  - intros ([k' v] & -> & Hin)%list_elem_of_fmap_1.
    apply elem_of_filter_bool in Hin as [Hin Hf]. exists v.
    split; [by apply dget_elem_NoDup|done].
  - intros (v & Hv%dget_Some_elem & Hf).
    apply (list_elem_of_fmap_2' fst _ (k, v)); [|done].
    by apply elem_of_filter_bool.
Qed.

Lemma length_filter_keys {K V} (f : K * V -> bool) (d : dict K V) :
  length (List.filter f d) = length (dkeys (List.filter f d)).
Proof. unfold dkeys. by rewrite length_map. Qed.

(** The customers of a node in the loaded graph are the customers of its AS
    in the graph built from it. *)
Lemma customer_count_customers filename lines graph pol g a asys :
  parse_as_rel_file filename lines = Ok graph ->
  reachable graph pol g ->
  dget a (asyss g) = Some asys ->
  customer_count graph a = Ok (customers asys).
Proof.
  intros Hp Hr Ha.
  assert (nx_wf graph) as Hwf.
  { eapply parse_lines_wf; [done|]. apply nx_wf_empty. }
  pose proof Hr as [Hlw _]%reachable_wf.
  pose proof Hr as (g0 & Hg0 & Hl)%reachable_links.
  destruct (ASGraph_init_spec graph pol Hwf) as (g1 & Hg1 & Hk1 & _).
  assert (a ∈ dkeys (nx_adj graph)) as Hin.
  { rewrite (nx_keys _ Hwf), <- Hk1. simplify_eq.
    rewrite <- (dkeys_eq_links _ _ Hl). by eapply dget_Some_keys. }
  apply dkeys_dget in Hin as [nbrs Hnbrs].
  unfold customer_count, customers, count_relation. rewrite Hnbrs. simpl.
  do 2 f_equal. rewrite !length_filter_keys.
  apply Permutation_length, NoDup_Permutation.
  - apply NoDup_dkeys_filter. by apply (nx_inner _ Hwf a).
  - apply NoDup_dkeys_filter. by apply (wf_nbr_nodup _ Hlw a).
  - intros b.
    rewrite !elem_of_dkeys_filter
      by (by apply (nx_inner _ Hwf a) || by apply (wf_nbr_nodup _ Hlw a)).
    pose proof (loaded_nbr _ _ _ _ _ a b Hp Hr) as Hn.
    unfold nbr, edge_customer in Hn. rewrite Ha, Hnbrs in Hn. simpl in Hn.
    rewrite Hn. split.
    + intros (c & -> & Hc). apply bool_decide_eq_true_1 in Hc. simpl in *.
      subst c. exists CUSTOMER. split; [|done]. simpl.
      by rewrite decide_True.
    + intros (rel & Hrel & Hc). apply bool_decide_eq_true_1 in Hc. simpl in *.
      subst rel. destruct (dget b nbrs) as [[c|]|]; simplify_eq/=.
      case_decide; simplify_eq. eexists. split; [done|].
      by apply bool_decide_eq_true_2.
Qed.

Lemma select_by_customer_count_spec graph g lo hi nodes :
  (forall a, a ∈ nodes ->
     exists asys, get_asys g a = Some asys
                  /\ customer_count graph a = Ok (customers asys)) ->
  select_by_customer_count graph nodes lo hi
  = Ok (List.filter
          (fun a => match get_asys g a with
                    | Some asys =>
                        (lo <=? customers asys)
                        && match hi with
                           | None => true
                           | Some m => m >=? customers asys
                           end
                    | None => false
                    end)
          nodes).
Proof.
  induction nodes as [|a nodes IH]; intros Hall; simpl; [done|].
  destruct (Hall a) as (asys & -> & ->); [left|]. simpl.
  rewrite IH by (intros b Hb; apply Hall; by right). simpl.
  by destruct (_ && _).
Qed.

(** X18: [asyss_by_customer_count] on a loaded graph never raises and yields,
    in the order of the graph, exactly the ASes whose number of CUSTOMER
    neighbors in the graph built from it lies within the bounds: the count
    it takes from the edge attributes is the one
    [neighbor_counts_by_relation] takes from the neighbor table. *)
Theorem asyss_by_customer_count_spec filename lines graph pol g lo hi :
  parse_as_rel_file filename lines = Ok graph ->
  reachable graph pol g ->
  asyss_by_customer_count graph lo hi
  = Ok (List.filter
          (fun a => match get_asys g a with
                    | Some asys =>
                        (lo <=? customers asys)
                        && match hi with
                           | None => true
                           | Some m => m >=? customers asys
                           end
                    | None => false
                    end)
          (dkeys (asyss g))).
Proof.
  intros Hp Hr.
  assert (nx_wf graph) as Hwf.
  { eapply parse_lines_wf; [done|]. apply nx_wf_empty. }
  pose proof Hr as (g0 & Hg0 & Hl)%reachable_links.
  destruct (ASGraph_init_spec graph pol Hwf) as (g1 & Hg1 & Hk1 & _).
  assert (dkeys (asyss g) = nx_nodes graph) as Hk.
  { simplify_eq. by rewrite (dkeys_eq_links _ _ Hl). }
  unfold asyss_by_customer_count. rewrite Hk.
  apply select_by_customer_count_spec. intros a Ha.
  rewrite <- Hk in Ha. apply dkeys_dget in Ha as [asys Hasys].
  exists asys. split; [done|]. by eapply customer_count_customers.
Qed.

Lemma asyss_by_customer_count_spec_witness :
  asyss_by_customer_count chain4_graph 1 None
  = Ok (List.filter
          (fun a => match get_asys (find_routes_to 100 chain4 1).2 a with
                    | Some asys => (1 <=? customers asys) && true
                    | None => false
                    end)
          (dkeys (asyss (find_routes_to 100 chain4 1).2))).
Proof.
  apply (asyss_by_customer_count_spec "as-rel.txt"
           (chain_lines ++ [("3|4|0" ++ nl)%string]) chain4_graph DefaultPolicy).
  - reflexivity.
  - apply reach_find, reach_init. reflexivity.
Defined.

(** ** Routes and bit sets *)

Lemma not_NoDup_dup {A} `{EqDecision A} (l : list A) :
  ~ NoDup l ->
  exists i j x, (i < j)%nat /\ l !! i = Some x /\ l !! j = Some x.
Proof.
  induction l as [|x l IH]; intros Hn.
  - destruct Hn. constructor.
  - destruct (decide (x ∈ l)) as [Hin|Hnin].
    + apply list_elem_of_lookup_1 in Hin as [j Hj].
      exists 0%nat, (S j), x. split; [lia|done].
    + destruct IH as (i & j & y & Hij & Hi & Hj).
      { intros Hnd. apply Hn. by constructor. }
      exists (S i), (S j), y. split; [lia|done].
Qed.

(** X19: [Route.contains_cycle] answers [True] exactly when some AS stands at
    two positions of the path. *)
Theorem contains_cycle_iff (r : Route) :
  contains_cycle r = true
  <-> exists i j a, (i < j)%nat /\ path r !! i = Some a /\ path r !! j = Some a.
Proof.
  split.
  - intros Hc. apply not_NoDup_dup. intros Hnd%contains_cycle_NoDup. congruence.
  - intros (i & j & a & Hij & Hi & Hj).
    destruct (contains_cycle r) eqn:Hc; [done|].
    apply contains_cycle_NoDup in Hc.
    pose proof (proj1 (NoDup_alt _) Hc i j a Hi Hj). lia.
Qed.

(** X20: [bit_count] is the population count of the magnitude: for any
    duplicate-free enumeration of the positions of the bits set in [|x|],
    it returns the length of the enumeration. *)
Theorem bit_count_popcount (x : Z) (bits : list Z) :
  NoDup bits ->
  (forall i, i ∈ bits <-> Z.testbit (Z.abs x) i = true) ->
  bit_count x = Z.of_nat (length bits).
Proof.
  intros Hnd Hbits. unfold bit_count.
  assert (forall p, Z.abs x = Z.pos p ->
            count "1"%char (bin_digits p) = Z.of_nat (length bits)) as Hp.
  { intros p Hx. rewrite count_bin_digits. f_equal.
    apply Permutation_length, NoDup_Permutation; [apply NoDup_set_bits|done|].
    intros i. by rewrite elem_of_set_bits, Hbits, Hx. }
  destruct x as [|p|p].
  - destruct bits as [|i bits]; [done|]. exfalso.
    assert (Z.testbit (Z.abs 0) i = true) as Hi by (apply Hbits; left).
    simpl in Hi. by rewrite Z.bits_0 in Hi.
  - change (bin (Z.pos p)) with ("0b" ++ bin_digits p)%string.
    rewrite count_app. simpl count at 1. by rewrite (Hp p).
  - change (bin (Z.neg p)) with ("-0b" ++ bin_digits p)%string.
    rewrite count_app. simpl count at 1. by rewrite (Hp p).
Qed.

Lemma bit_count_popcount_witness : bit_count (-5) = Z.of_nat (length [0; 2]).
Proof.
  apply (bit_count_popcount (-5) [0; 2]).
  - apply NoDup_cons. split; [|apply NoDup_singleton].
    intros Hin%list_elem_of_singleton. lia.
  - intros i. change (Z.abs (-5)) with 5. split.
    + intros [->|[->|Hin]%elem_of_cons]%elem_of_cons; [done|done|].
      by apply elem_of_nil in Hin.
    + intros Hb. destruct (decide (i < 0)) as [Hneg|Hpos].
      { by rewrite Z.testbit_neg_r in Hb. }
      destruct (decide (2 < i)) as [Hbig|Hsmall].
      { rewrite Z.bits_above_log2 in Hb; [done|lia|]. by change (Z.log2 5) with 2. }
      assert (i = 0 \/ i = 1 \/ i = 2) as [->|[->| ->]] by lia.
      * left.
      * done.
      * right. left.
Defined.

(** ** What a hijack installs *)

(** X21: every routing-table entry found after [hijack_n_hops] was either
    there before or descends from the forged route: it is an entry for the
    victim whose path starts with the forged path, it carries the forged
    route's invalidity flags, and it is not authenticated. *)
Theorem hijack_n_hops_entries graph pol g fuel rng victim attacker n a d r :
  reachable graph pol g ->
  table_entry (hijack_n_hops fuel rng g victim attacker n).2 a d = Some r ->
  table_entry g a d = Some r
  \/ exists bad,
       hijack_route rng (asyss g) victim attacker n = Ok bad
       /\ d = victim /\ dest r = victim
       /\ path bad `prefix_of` path r
       /\ origin_invalid r = bool_decide (n = 0)
       /\ path_end_invalid r = bool_decide (n <= 1)
       /\ authenticated r = false.
Proof.
  intros [Hwf _]%reachable_wf. pose proof (wf_keys _ Hwf) as Hk.
  unfold hijack_n_hops.
  destruct (hijack_route _ _ _ _ _) as [bad| |] eqn:Hbad; try (by left).
  destruct (dget attacker (asyss g)) as [att|]; [|by left].
  destruct (mapM _ _) as [hops|]; [|by left].
  set (Q := fun r : Route =>
         dest r = victim /\ path bad `prefix_of` path r
         /\ origin_invalid r = bool_decide (n = 0)
         /\ path_end_invalid r = bool_decide (n <= 1)
         /\ authenticated r = false).
  assert (dest bad = victim /\ origin_invalid bad = bool_decide (n = 0)
          /\ path_end_invalid bad = bool_decide (n <= 1)
          /\ authenticated bad = false) as (Hb1 & Hb2 & Hb3 & Hb4).
  { unfold hijack_route in Hbad.
    destruct (hijack_path _ _ _ _ _); by simplify_eq/=. }
  assert (keys_ok (propagate fuel (policy g) (asyss g)
                     (map (forward_route bad) hops)).2
          /\ forall a asys d r,
               dget a (propagate fuel (policy g) (asyss g)
                         (map (forward_route bad) hops)).2 = Some asys ->
               routing_table asys !! d = Some r ->
               (asys0 ← dget a (asyss g); routing_table asys0 !! d) = Some r
               \/ (d = victim /\ Q r)) as [_ Hfinal].
  { apply (propagate_invariant (policy g)
      (fun s' => keys_ok s'
         /\ forall a asys d r,
              dget a s' = Some asys -> routing_table asys !! d = Some r ->
              (asys0 ← dget a (asyss g); routing_table asys0 !! d) = Some r
              \/ (d = victim /\ Q r))
      Q).
    - intros s1 k asys route (Hk1 & Htab1) HQ Hfin Hget. split.
      + split; [by eapply learn_route_keys_ok|].
        destruct (learn_route_store (policy g) s1 asys route)
          as [->|(_ & _ & ->)]; [done|].
        rewrite (Hk1 _ _ Hget). intros a0 x d0 r0. rewrite dget_dset.
        destruct (decide (k = a0)) as [<-|]; [|by apply Htab1].
        intros [= <-]. simpl.
        destruct (decide (dest route = d0)) as [<-|].
        * rewrite lookup_insert_eq. intros [= <-]. right.
          split; [apply HQ|done].
        * rewrite lookup_insert_ne by done. by apply (Htab1 k).
      + intros nb hop _ _. destruct HQ as (H1 & H2 & H3 & H4 & H5).
        unfold Q. simpl. split; [done|]. split; [by apply prefix_app_r|].
        split; [done|]. split; [done|]. by rewrite H5.
    - split; [done|]. intros a0 x d0 r0 H1 H2. left. by rewrite H1.
    - apply Forall_forall. intros r0 (hop & -> & _)%list_elem_of_fmap_1.
      unfold Q. simpl. split; [done|]. split; [by apply prefix_app_r|].
      split; [done|]. split; [done|]. by rewrite Hb4. }
  destruct (propagate _ _ _ _) as [out s']. simpl in *.
  unfold table_entry, get_asys. simpl. intros Hr.
  destruct (dget a s') as [x|] eqn:Hx; [|done]. simpl in Hr.
  destruct (Hfinal a x d r Hx Hr) as [Hold|[-> HQ]]; [by left|].
  right. exists bad. split; [done|]. split; [done|]. apply HQ.
Qed.

Lemma hijack_n_hops_entries_witness :
  table_entry (find_routes_to 100 chain4 1).2 3 1
  = Some (mkRoute 1 [2; 3] true true false)
  \/ exists bad,
       hijack_route rng0 (asyss (find_routes_to 100 chain4 1).2) 1 2 0 = Ok bad
       /\ 1 = 1 /\ dest (mkRoute 1 [2; 3] true true false) = 1
       /\ path bad `prefix_of` path (mkRoute 1 [2; 3] true true false)
       /\ origin_invalid (mkRoute 1 [2; 3] true true false) = bool_decide (0 = 0)
       /\ path_end_invalid (mkRoute 1 [2; 3] true true false) = bool_decide (0 <= 1)
       /\ authenticated (mkRoute 1 [2; 3] true true false) = false.
Proof.
  apply (hijack_n_hops_entries chain4_graph DefaultPolicy
           (find_routes_to 100 chain4 1).2 100 rng0 1 2 0 3 1).
  - apply reach_find, reach_init. reflexivity.
  - vm_compute. reflexivity.
Defined.

(** ** Valley-free routing *)

Lemma rtc_nbr_links s s' rel x y :
  links s = links s' ->
  rtc (fun a b => nbr s a b = Some rel) x y ->
  rtc (fun a b => nbr s' a b = Some rel) x y.
Proof.
  intros Hl. induction 1 as [|a b c Hab _ IH]; [done|].
  eapply rtc_l; [|done]. simpl. by rewrite <- (nbr_links _ _ _ _ Hl).
Qed.

Lemma valley_free_links s s' a d :
  links s = links s' -> valley_free s a d -> valley_free s' a d.
Proof.
  intros Hl (x & y & H1 & H2 & H3). exists x, y.
  split; [by eapply rtc_nbr_links|]. split; [|by eapply rtc_nbr_links].
  by rewrite <- (nbr_links _ _ _ _ Hl).
Qed.

Lemma learned_from_nbr s r a h :
  final r = Some a -> first_hop r = Some h -> learned_from s r = nbr s a h.
Proof. intros Hf Hh. unfold learned_from, nbr. by rewrite Hf, Hh. Qed.

Lemma learned_from_links s s' r :
  links s = links s' -> learned_from s r = learned_from s' r.
Proof.
  intros Hl. unfold learned_from.
  destruct (final r) as [a|] eqn:Hf; [|done]. simpl.
  destruct (first_hop r) as [h|] eqn:Hh.
  - apply (nbr_links _ _ a h Hl).
  - by destruct (dget a s), (dget a s').
Qed.

Lemma learn_route_forward pol s self route nb :
  nb ∈ (learn_route pol s self route).2 ->
  accept_route pol s route = true
  /\ exists rel, (nb, rel) ∈ neighbors self
       /\ forward_to pol (learn_route pol s self route).1 route rel = true.
Proof.
  unfold learn_route.
  destruct (decide (dest route = as_id self)); [by intros ?%elem_of_nil|].
  destruct (accept_route pol s route); [|by intros ?%elem_of_nil].
  destruct (match routing_table self !! dest route with
            | Some current => negb (prefer_route pol s current route)
            | None => false end); [by intros ?%elem_of_nil|].
  cbv zeta. unfold dkeys. cbn [fst snd negb].
  intros ([k rel] & -> & Hin)%list_elem_of_fmap_1.
  apply elem_of_filter_bool in Hin as [Hin Hf].
  apply bool_decide_eq_true_1, elem_of_filter_bool in Hf as [_ Hf].
  split; [done|]. by exists rel.
Qed.

Lemma hops_links s s' rel p : links s = links s' -> hops s rel p -> hops s' rel p.
Proof.
  intros Hl. induction p as [|x p IH]; [done|]. destruct p as [|y p]; [done|].
  intros [Hn Hp]. split; [by rewrite <- (nbr_links _ _ _ _ Hl)|auto].
Qed.

Lemma hops_snoc s rel p k nb :
  hops s rel p -> last p = Some k -> nbr s nb k = Some rel ->
  hops s rel (p ++ [nb]).
Proof.
  intros Hp Hlast Hn. induction p as [|x p IH]; [done|].
  destruct p as [|y p].
  - simpl in *. by simplify_eq.
  - destruct Hp as [Hxy Hp]. split; [done|]. apply IH; [done|].
    by rewrite last_cons_cons in Hlast.
Qed.

(** Along hops of one kind the last AS reaches the first through links of
    that kind. *)
Lemma hops_rtc s rel p : forall x z,
  hops s rel p -> head p = Some x -> last p = Some z ->
  rtc (fun u v => nbr s u v = Some rel) z x.
Proof.
  induction p as [|x0 p IH]; intros x z Hp Hx Hz; [done|].
  destruct p as [|y p]; simpl in *; simplify_eq; [done|].
  destruct Hp as [Hyx Hp]. eapply rtc_r; [|done]. by apply IH.
Qed.

Lemma valley_free_path_links s s' p :
  links s = links s' -> valley_free_path s p -> valley_free_path s' p.
Proof.
  intros Hl (up & down & -> & Hu & Hd & Hj). exists up, down.
  split; [done|]. split; [by eapply hops_links|]. split; [by eapply hops_links|].
  destruct (last up), (head down); try done.
  by rewrite <- !(nbr_links _ _ _ _ Hl).
Qed.

(** The AS that holds a valley-free route is one the reachability analysis
    counts for the origin of the route. *)
Lemma valley_free_path_reach s p d a :
  valley_free_path s p -> head p = Some d -> last p = Some a ->
  valley_free s a d.
Proof.
  intros (up & down & -> & Hu & Hd & Hj) Hhead Hlast.
  destruct up as [|u0 up]; [|destruct down as [|y down]].
  - exists d, d. split; [|split; [by left|done]].
    by apply (hops_rtc s PROVIDER down).
  - rewrite app_nil_r in *. exists a, a. split; [done|]. split; [by left|].
    by apply (hops_rtc s CUSTOMER (u0 :: up)).
  - destruct (last (u0 :: up)) as [b|] eqn:Hb; [|by apply last_None in Hb].
    simpl in Hhead. simplify_eq.
    rewrite last_app in Hlast. simpl head in Hj.
    assert (last (y :: down) = Some a) as Hla
      by (destruct (last (y :: down)) eqn:E; [done|by apply last_None in E]).
    pose proof (hops_rtc s PROVIDER (y :: down) y a Hd eq_refl Hla) as Hup.
    pose proof (hops_rtc s CUSTOMER (d :: up) d b Hu eq_refl Hb) as Hdown.
    destruct Hj as [Hpeer|Hprov].
    + exists y, b. split; [done|]. split; [by right|done].
    + exists b, b. split; [by eapply rtc_r|]. split; [by left|done].
Qed.

(** One more hop on a route that has only climbed, whatever the hop. *)
Lemma valley_free_path_snoc_up s p k nb rel :
  hops s CUSTOMER p -> last p = Some k -> nbr s nb k = Some rel ->
  valley_free_path s (p ++ [nb]).
Proof.
  intros Hp Hlast Hn. destruct rel.
  - exists (p ++ [nb]), []. rewrite app_nil_r. split; [done|].
    split; [by apply (hops_snoc _ _ _ k)|]. split; [done|]. by destruct (last (p ++ [nb])).
  - exists p, [nb]. split; [done|]. split; [done|]. split; [done|].
    rewrite Hlast. simpl. by left.
  - exists p, [nb]. split; [done|]. split; [done|]. split; [done|].
    rewrite Hlast. simpl. by right.
Qed.

(** One more hop down on a valley-free route. *)
Lemma valley_free_path_snoc_down s p k nb :
  valley_free_path s p -> last p = Some k -> nbr s nb k = Some PROVIDER ->
  valley_free_path s (p ++ [nb]).
Proof.
  intros (up & down & -> & Hu & Hd & Hj) Hlast Hn.
  destruct down as [|y down].
  - rewrite app_nil_r in *. by eapply valley_free_path_snoc_up.
  - exists up, ((y :: down) ++ [nb]). split; [by rewrite app_assoc|].
    split; [done|]. split; [|done].
    apply (hops_snoc _ _ _ k); [done| |done].
    rewrite last_app in Hlast.
    by destruct (last (y :: down)) eqn:E; [|apply last_None in E].
Qed.

Lemma propagate_valley_free pol fuel s routes :
  rejects_cycles pol -> exports_valley_free pol -> links_wf s ->
  (forall a asys d r,
     dget a s = Some asys -> routing_table asys !! d = Some r ->
     origin r = Some d /\ final r = Some a /\ valley_free_path s (path r)) ->
  Forall (route_valley_free s) routes ->
  forall a asys d r,
    dget a (propagate fuel pol s routes).2 = Some asys ->
    routing_table asys !! d = Some r ->
    origin r = Some d /\ final r = Some a /\ valley_free_path s (path r).
Proof.
  intros Hrc Hex Hwf Htab HQ.
  apply (propagate_invariant pol
    (fun s' => links_wf s' /\ links s' = links s
       /\ forall a asys d r,
            dget a s' = Some asys -> routing_table asys !! d = Some r ->
            origin r = Some d /\ final r = Some a
            /\ valley_free_path s (path r))
    (route_valley_free s)); [|done|done].
  intros s1 k asys route (Hwf1 & Hl1 & Htab1) Hvf Hfin Hget.
  pose proof (wf_keys _ Hwf1) as Hk1.
  pose proof (learn_route_links pol s1 k asys route Hk1 Hget) as Hl2.
  assert (links_wf (learn_route pol s1 asys route).1) as Hwf2.
  { eapply links_wf_links; [|done]. by symmetry. }
  split.
  - split; [done|]. split; [congruence|].
    destruct (learn_route_store pol s1 asys route) as [->|(_ & Hacc & ->)]; [done|].
    rewrite (Hk1 _ _ Hget). intros a x d r. rewrite dget_dset.
    destruct (decide (k = a)) as [<-|]; [|by apply Htab1].
    intros [= <-]. simpl.
    destruct (decide (dest route = d)) as [<-|].
    + rewrite lookup_insert_eq. intros [= <-].
      destruct Hvf as (Ho & Hp & _); [by apply contains_cycle_NoDup, (Hrc s1)|].
      done.
    + rewrite lookup_insert_ne by done. by apply (Htab1 k).
  - intros nb hop Hnb Hhop.
    apply learn_route_forward in Hnb as (Hacc & rel & Hrel & Hfwd).
    pose proof (wf_keys _ Hwf2 _ _ Hhop) as Hid.
    intros Hnd. simpl in Hnd. rewrite Hid in Hnd.
    apply NoDup_app in Hnd as (Hnd & Hdisj & _).
    assert (k <> nb) as Hne.
    { intros ->. apply (Hdisj nb); [by apply last_Some_elem_of|left]. }
    destruct (Hvf Hnd) as (Ho & Hp & Hup).
    assert (nbr s k nb = Some rel) as Hkn.
    { rewrite <- (nbr_links _ _ _ _ Hl1).
      by apply (elem_of_neighbors s1 k asys). }
    pose proof (wf_mirror _ Hwf k nb rel Hne Hkn) as Hnk.
    assert (learned_from s (forward_route route hop) = Some (mirror rel)) as Hlf.
    { rewrite (learned_from_nbr s _ nb k); [done| |].
      - unfold final. simpl. by rewrite last_snoc, Hid.
      - unfold first_hop. simpl. by rewrite removelast_last. }
    rewrite Hlf.
    apply Hex in Hfwd.
    rewrite (learned_from_links _ _ route Hl2), (learned_from_links _ _ route Hl1)
      in Hfwd.
    unfold origin in *. simpl. rewrite Hid.
    split; [by destruct (path route)|].
    destruct rel; simpl in *.
    + split; [|done]. by apply (valley_free_path_snoc_down _ _ k).
    + destruct Hfwd as [Hc|?]; [|done]. specialize (Hup Hc).
      split; [|done]. by apply (valley_free_path_snoc_up _ _ k _ PEER).
    + destruct Hfwd as [Hc|?]; [|done]. specialize (Hup Hc).
      split; [by apply (valley_free_path_snoc_up _ _ k _ CUSTOMER)|].
      intros _. by apply (hops_snoc _ _ _ k).
Qed.

(** X22: valley-free routing.  Under a policy that rejects loops and exports
    to peers and providers only what it learned from a customer, the tables
    hold valley-free routes only.  After [clear_routing_tables], and after
    every [find_routes_to] from such tables, the path of every entry runs
    from the AS of the destination to the AS that holds the entry, first
    only climbing (each AS learned the route from a customer), then only
    descending (each AS learned it from a provider), with at most one hop
    across a peer link in between.  The holder of such an entry is among
    the ASes that [determine_reachability_one] counts for the
    destination. *)
Theorem find_routes_to_valley_free graph pol g fuel target :
  reachable graph pol g ->
  rejects_cycles pol -> exports_valley_free pol ->
  tables_valley_free (clear_routing_tables g)
  /\ (tables_valley_free g ->
      tables_valley_free (find_routes_to fuel g target).2)
  /\ (tables_valley_free g ->
      forall a d r, table_entry g a d = Some r -> valley_free (asyss g) a d).
Proof.
  intros [Hwf Hpol]%reachable_wf Hrc Hex.
  pose proof (wf_keys _ Hwf) as Hk. split; [|split].
  - intros a d r. unfold table_entry, get_asys, clear_routing_tables. simpl.
    rewrite dget_map_values. destruct (dget a (asyss g)) as [x|] eqn:Hx; [|done].
    simpl. unfold get_route. simpl.
    intros [[<- <-]|[_ ?]]%lookup_insert_Some; [|done].
    rewrite (Hk _ _ Hx). split; [done|]. split; [done|].
    by exists [a], [].
  - intros Hvf. unfold find_routes_to.
    destruct (dget target (asyss g)) as [t|] eqn:Ht; [|done].
    pose proof (propagate_valley_free (policy g) fuel (asyss g)
                  (map (originate_route t) (dkeys (neighbors t)))) as Hp.
    pose proof (propagate_links fuel (policy g) (asyss g)
                  (map (originate_route t) (dkeys (neighbors t))) Hk) as Hl.
    destruct (propagate _ _ _ _) as [out s']. simpl in *.
    intros a d r Hr. unfold table_entry, get_asys in Hr. simpl in *.
    destruct (dget a s') as [x|] eqn:Hx; [|done]. simpl in Hr.
    assert (origin r = Some d /\ final r = Some a
            /\ valley_free_path (asyss g) (path r)) as (Ho & Hf & Hpath).
    { refine (Hp _ _ Hwf _ _ a x d r Hx Hr); [by rewrite Hpol..| |].
      - intros a0 x0 d0 r0 H1 H2. apply (Hvf a0 d0 r0).
        unfold table_entry, get_asys. by rewrite H1.
      - apply Forall_forall. intros r0 (nb & -> & Hnb)%list_elem_of_fmap_1.
        pose proof (Hk _ _ Ht) as Hid.
        intros Hnd. simpl in *. rewrite Hid in *.
        assert (target <> nb) as Hne.
        { intros ->. apply NoDup_cons in Hnd as [Hn _]. apply Hn. left. }
        apply dkeys_dget in Hnb as [rel Hrel].
        assert (nbr (asyss g) target nb = Some rel) as Htn.
        { unfold nbr. by rewrite Ht. }
        pose proof (wf_mirror _ Hwf target nb rel Hne Htn) as Hnt.
        rewrite (learned_from_nbr _ _ nb target); [|done|by rewrite <- Hid].
        rewrite Hnt. unfold origin. simpl. rewrite Hid. split; [done|].
        split.
        + by apply (valley_free_path_snoc_up _ [target] target nb (mirror rel)).
        + intros Hc. by split.
    }
    split; [done|]. split; [done|]. by apply (valley_free_path_links (asyss g)).
  - intros Hvf a d r Hr. destruct (Hvf a d r Hr) as (Ho & Hf & Hp).
    by apply (valley_free_path_reach _ (path r)).
Qed.

Lemma DefaultPolicy_exports_valley_free : exports_valley_free DefaultPolicy.
Proof.
  intros s r rel. simpl. intros [H|H]%orb_true_iff.
  - left. by apply bool_decide_eq_true_1 in H.
  - right. by apply bool_decide_eq_true_1 in H.
Qed.

Lemma find_routes_to_valley_free_witness :
  tables_valley_free (find_routes_to 100 (clear_routing_tables chain4) 1).2
  /\ valley_free (asyss (find_routes_to 100 (clear_routing_tables chain4) 1).2) 4 1.
Proof.
  assert (reachable chain4_graph DefaultPolicy (clear_routing_tables chain4)) as Hr
    by (apply reach_clear, reach_init; reflexivity).
  assert (tables_valley_free (find_routes_to 100 (clear_routing_tables chain4) 1).2)
    as Htab.
  { apply (find_routes_to_valley_free chain4_graph DefaultPolicy
             (clear_routing_tables chain4) 100 1 Hr
             DefaultPolicy_rejects_cycles DefaultPolicy_exports_valley_free).
    apply (find_routes_to_valley_free chain4_graph DefaultPolicy chain4 100 1).
    - apply reach_init. reflexivity.
    - apply DefaultPolicy_rejects_cycles.
    - apply DefaultPolicy_exports_valley_free. }
  split; [done|].
  apply (find_routes_to_valley_free chain4_graph DefaultPolicy
           (find_routes_to 100 (clear_routing_tables chain4) 1).2 100 1
           (reach_find _ _ _ 100 1 Hr)
           DefaultPolicy_rejects_cycles DefaultPolicy_exports_valley_free)
    with (r := mkRoute 1 [1; 2; 3; 4] false false false); [done|].
  reflexivity.
Defined.

(** ** Termination of the propagation *)

Lemma potential_dset rank bound target k asys asys' s :
  dget k s = Some asys ->
  (potential rank bound target (dset k asys' s) + entry_rank rank bound target asys
   = potential rank bound target s + entry_rank rank bound target asys')%nat.
Proof.
  unfold potential. induction s as [|[k0 a0] s IH]; simpl; [done|].
  destruct (decide (k = k0)) as [->|]; simpl.
  - intros [= ->]. lia.
  - intros Hget%IH. lia.
Qed.

Lemma degree_le s a asys :
  dget a s = Some asys -> (length (neighbors asys) <= degree_sum s)%nat.
Proof.
  unfold degree_sum. induction s as [|[k0 a0] s IH]; simpl; [done|].
  destruct (decide (a = k0)) as [->|].
  - intros [= ->]. lia.
  - intros Hget%IH. lia.
Qed.

Lemma degree_sum_links s s' : links s = links s' -> degree_sum s = degree_sum s'.
Proof.
  unfold degree_sum, links. revert s'.
  induction s as [|[k a] s IH]; intros [|[k' a'] s']; simpl; try done.
  intros [= _ _ Hn Hl]. rewrite Hn. f_equal. by apply IH.
Qed.

Lemma length_filter_bool_le {A} (f : A -> bool) l :
  (length (List.filter f l) <= length l)%nat.
Proof. induction l as [|x l IH]; simpl; [done|]. destruct (f x); simpl; lia. Qed.

(** What [learn_route] returns: nothing changed and nothing to forward, or
    the route installed as a better one and at most every neighbor to
    forward it to. *)
Lemma learn_route_cases pol s self route :
  learn_route pol s self route = (s, [])
  \/ (accept_route pol s route = true
      /\ match routing_table self !! dest route with
         | Some current => prefer_route pol s current route = true
         | None => True
         end
      /\ (learn_route pol s self route).1
         = dset (as_id self)
             (with_routing_table self (<[dest route := route]> (routing_table self)))
             s
      /\ (length (learn_route pol s self route).2 <= length (neighbors self))%nat).
Proof.
  unfold learn_route.
  destruct (decide (dest route = as_id self)); [by left|].
  destruct (accept_route pol s route); [|by left]. cbn [negb].
  destruct (routing_table self !! dest route) as [current|].
  - destruct (prefer_route pol s current route); [|by left]. right.
    split; [done|]. split; [done|]. split; [done|]. cbn [negb snd].
    unfold dkeys. rewrite length_map. apply length_filter_bool_le.
  - right. split; [done|]. split; [done|]. split; [done|]. cbn [snd].
    unfold dkeys. rewrite length_map. apply length_filter_bool_le.
Qed.

Section Termination.
Variables (pol : RoutingPolicy) (s0 : Store) (rank : Route -> nat).
Variables (bound : nat) (target : AS_ID).
Hypothesis Hwf0 : links_wf s0.
Hypothesis Hrank : ranked pol s0 rank bound.

Lemma propagate_returns fuel : forall s routes,
  links s = links s0 -> Forall (queued s0 target) routes ->
  (length routes + (degree_sum s0 + 1) * potential rank bound target s <= fuel)%nat ->
  (propagate fuel pol s routes).1 = Ok ().
Proof.
  induction fuel as [|fuel IH]; intros s [|route rest] Hl HQ Hfuel; simpl;
    try done; [simpl in Hfuel; lia|].
  apply Forall_cons in HQ as [(Hdest & Hsub & [k Hfin]) HQ].
  assert (links_wf s) as Hwf by (eapply links_wf_links; [|done]; by symmetry).
  pose proof (wf_keys _ Hwf) as Hk.
  assert (k ∈ dkeys s) as Hks.
  { rewrite (dkeys_eq_links _ _ Hl). apply Hsub. by apply last_Some_elem_of. }
  apply dkeys_dget in Hks as [asys Hget]. rewrite Hfin. simpl. rewrite Hget.
  pose proof (learn_route_links pol s k asys route Hk Hget) as Hl'.
  pose proof (learn_route_forward pol s asys route) as Hfwd.
  destruct (learn_route_cases pol s asys route) as [Hsame|(Hacc & Hpref & Hs' & Hlen)].
  - rewrite Hsame. simpl. rewrite app_nil_r. apply IH; [done|done|].
    simpl in Hfuel. lia.
  - destruct (learn_route pol s asys route) as [s' nbs] eqn:Hlearn. simpl in *.
    assert (links_wf s') as Hwf' by (eapply links_wf_links; [|done]; by symmetry).
    assert (is_Some (mapM (fun id => dget id s') nbs)) as [hops Hhops].
    { apply mapM_is_Some, Forall_forall. intros nb Hnb. simpl.
      destruct (Hfwd nb Hnb) as (_ & rel & Hrel & _).
      apply (wf_closed _ Hwf' k nb rel). rewrite (nbr_links _ _ _ _ Hl').
      by apply (elem_of_neighbors s k asys). }
    rewrite Hhops. apply mapM_Some_1 in Hhops.
    apply IH.
    + congruence.
    + apply Forall_app. split; [done|]. apply Forall_forall.
      intros r (hop & -> & Hhop)%list_elem_of_fmap_1.
      destruct (Forall2_elem_of_r _ _ _ _ Hhops Hhop) as (nb & Hnb & Hd).
      split; [done|]. simpl. split.
      * intros x [Hx|Hx%list_elem_of_singleton]%elem_of_app; [by apply Hsub|].
        subst x. rewrite (wf_keys _ Hwf' _ _ Hd).
        rewrite <- (dkeys_eq_links _ _ Hl), <- (dkeys_eq_links _ _ Hl').
        by eapply dget_Some_keys.
      * unfold final. simpl. rewrite last_snoc. eauto.
    + pose proof (Forall2_length _ _ _ Hhops) as Hlh.
      pose proof (degree_le s k asys Hget) as Hdeg.
      rewrite (degree_sum_links _ _ Hl) in Hdeg.
      pose proof (potential_dset rank bound target k asys
                    (with_routing_table asys
                       (<[dest route := route]> (routing_table asys))) s Hget)
        as Hpot.
      rewrite (Hk _ _ Hget) in Hs'. rewrite <- Hs' in Hpot.
      destruct (Hrank s (default route (routing_table asys !! target)) route
                  Hl Hsub Hacc) as [Hb Hp].
      assert (entry_rank rank bound target
                (with_routing_table asys
                   (<[dest route := route]> (routing_table asys)))
              < entry_rank rank bound target asys)%nat as Hlt.
      { unfold entry_rank. simpl. rewrite Hdest, lookup_insert_eq.
        rewrite Hdest in Hpref.
        destruct (routing_table asys !! target) as [cur|]; [by apply Hp|done]. }
      rewrite length_app, length_map. simpl in Hfuel. nia.
Qed.
End Termination.

(** X23: [find_routes_to] returns.  For a policy whose route preference is a
    ranking (what it prefers ranks strictly lower, in a bounded range), the
    work-queue loop stops: with a large enough step bound the model of
    [find_routes_to] returns normally, for every AS of the graph in every
    state of the graph; it resolves every AS it meets and never runs out
    of steps. *)
Theorem find_routes_to_returns graph pol g target rank bound :
  reachable graph pol g ->
  target ∈ dkeys (asyss g) ->
  ranked pol (asyss g) rank bound ->
  exists fuel0, forall fuel,
    (fuel0 <= fuel)%nat -> (find_routes_to fuel g target).1 = Ok ().
Proof.
  intros [Hwf Hpol]%reachable_wf [t Ht]%dkeys_dget Hrank.
  exists (length (neighbors t)
          + (degree_sum (asyss g) + 1) * potential rank bound target (asyss g))%nat.
  intros fuel Hfuel. unfold find_routes_to. rewrite Ht.
  pose proof (propagate_returns (policy g) (asyss g) rank bound target Hwf) as Hp.
  rewrite Hpol in Hp.
  specialize (Hp Hrank fuel (asyss g)
                (map (originate_route t) (dkeys (neighbors t))) eq_refl).
  rewrite Hpol. destruct (propagate _ _ _ _) as [out s']. simpl in *.
  apply Hp.
  - apply Forall_forall. intros r (nb & -> & Hnb)%list_elem_of_fmap_1.
    split; [by apply (wf_keys _ Hwf)|]. simpl. split; [|by eexists].
    rewrite (wf_keys _ Hwf _ _ Ht).
    intros x [->|[->|Hx]%elem_of_cons]%elem_of_cons.
    + by eapply dget_Some_keys.
    + apply dkeys_dget in Hnb as [rel Hrel].
      destruct (wf_closed _ Hwf target nb rel) as [y Hy];
        [unfold nbr; by rewrite Ht|]. by eapply dget_Some_keys.
    + by apply elem_of_nil in Hx.
  - rewrite length_map. unfold dkeys. rewrite length_map. lia.
Qed.

Lemma before_le s h : (before s h <= length (dkeys s))%nat.
Proof. destruct h; simpl; [apply length_filter|lia]. Qed.

Lemma before_lt s h1 h2 :
  h1 ∈ dkeys s -> h1 < h2 -> (before s (Some h1) < before s (Some h2))%nat.
Proof.
  simpl. generalize (dkeys s). intros l. induction l as [|k l IH]; intros Hin Hlt.
  - by apply elem_of_nil in Hin.
  - rewrite !filter_cons. apply elem_of_cons in Hin as [<-|Hin].
    + rewrite decide_False by lia. rewrite decide_True by lia. simpl.
      apply Nat.lt_succ_r, length_filter_impl. intros; lia.
    + specialize (IH Hin Hlt). unfold AS_ID in *.
      repeat case_decide; simpl; lia.
Qed.

Lemma first_hop_elem_of r h : first_hop r = Some h -> h ∈ path r.
Proof.
  unfold first_hop. intros Hh%last_Some_elem_of. by apply elem_of_removelast.
Qed.

Lemma relation_rank_range rel : 1 <= relation_rank rel <= 4.
Proof. destruct rel as [[]|]; simpl; lia. Qed.

Lemma DefaultPolicy_ranked s :
  links_wf s ->
  ranked DefaultPolicy s (DefaultPolicy_rank s)
         (4 * S (length (dkeys s)) * S (length (dkeys s))).
Proof.
  intros Hwf s' current new Hl Hsub Hacc. simpl in Hacc.
  apply negb_true_iff, contains_cycle_NoDup in Hacc.
  pose proof (NoDup_subseteq_length _ _ Hacc Hsub) as Hlen.
  unfold DefaultPolicy_rank.
  pose proof (before_le s (first_hop new)) as Hb1.
  pose proof (before_le s (first_hop current)) as Hb2.
  pose proof (relation_rank_range (learned_from s new)) as Hr1.
  pose proof (relation_rank_range (learned_from s current)) as Hr2.
  set (n := S (length (dkeys s))) in *.
  assert (length (dkeys s) < n)%nat as Hn by (unfold n; lia).
  split; [nia|]. simpl. unfold route_length.
  rewrite !(learned_from_links s' s) by done.
  destruct (decide (_ < _)) as [H1|H1]; [intros _; nia|].
  destruct (decide (_ < _)) as [H2|H2]; [done|].
  assert (length (path new) = length (path current)) as -> by lia.
  destruct (decide (_ < _)) as [H3|H3]; [intros _; nia|].
  destruct (decide (_ < _)) as [H4|H4]; [done|].
  assert (relation_rank (learned_from s new)
          = relation_rank (learned_from s current)) as -> by lia.
  destruct (first_hop new) as [hn|] eqn:Hn1; [|done].
  destruct (first_hop current) as [hc|] eqn:Hn2; [|done].
  intros Hlt%bool_decide_eq_true_1.
  assert (before s (Some hn) < before s (Some hc))%nat; [|lia].
  apply before_lt; [|done]. by apply Hsub, first_hop_elem_of.
Qed.

Lemma find_routes_to_returns_witness :
  exists fuel0, forall fuel,
    (fuel0 <= fuel)%nat -> (find_routes_to fuel chain4 1).1 = Ok ().
Proof.
  apply (find_routes_to_returns chain4_graph DefaultPolicy chain4 1
           (DefaultPolicy_rank (asyss chain4))
           (4 * S (length (dkeys (asyss chain4)))
              * S (length (dkeys (asyss chain4))))).
  - apply reach_init. reflexivity.
  - vm_compute. repeat constructor.
  - apply DefaultPolicy_ranked.
    apply (ASGraph_init_wf chain4_graph DefaultPolicy). reflexivity.
Defined.

Lemma hijack_route_path_keys rng s victim attacker n r :
  hijack_route rng s victim attacker n = Ok r ->
  victim ∈ dkeys s -> attacker ∈ dkeys s -> path r ⊆ dkeys s.
Proof.
  unfold hijack_route, hijack_path. intros Hr Hv Ha.
  destruct (decide (n < 0)); [done|].
  destruct (decide (n = 0)) as [->|].
  { simplify_eq/=. by intros x ->%list_elem_of_singleton. }
  destruct (decide (n = 1)) as [->|].
  { simplify_eq/=. intros x [->|Hx%list_elem_of_singleton]%elem_of_cons;
      by subst. }
  unfold random_sample in Hr.
  destruct (length _ <? _)%nat; [done|]. simplify_eq/=.
  intros x [->|[Hx|Hx%list_elem_of_singleton]%elem_of_app]%elem_of_cons;
    [done| |by subst].
  apply draw_subseteq in Hx. by apply elem_of_hijack_population in Hx as [? _].
Qed.

(** X24: [hijack_n_hops] returns.  For a policy whose route preference is a
    ranking, a victim and an attacker of the graph, a hop count that is not
    negative and enough other ASes for the forged path, the propagation of
    the forged route stops: with a large enough step bound the model of
    [hijack_n_hops] returns normally. *)
Theorem hijack_n_hops_returns graph pol g rng victim attacker n rank bound :
  reachable graph pol g ->
  victim ∈ dkeys (asyss g) -> attacker ∈ dkeys (asyss g) ->
  ranked pol (asyss g) rank bound ->
  0 <= n ->
  n - 1 <= Z.of_nat (length (hijack_population (asyss g) victim attacker)) ->
  exists fuel0, forall fuel,
    (fuel0 <= fuel)%nat ->
    (hijack_n_hops fuel rng g victim attacker n).1 = Ok ().
Proof.
  intros [Hwf Hpol]%reachable_wf Hv [att Hatt]%dkeys_dget Hrank Hn Hpop.
  exists (length (neighbors att)
          + (degree_sum (asyss g) + 1) * potential rank bound victim (asyss g))%nat.
  intros fuel Hfuel. unfold hijack_n_hops.
  pose proof (hijack_route_outcome rng (asyss g) victim attacker n) as Hout.
  destruct (hijack_route _ _ _ _ _) as [bad|e|] eqn:Hbad; [| |done].
  2:{ destruct Hout as [_ [?|?]]; lia. }
  rewrite Hatt.
  assert (is_Some (mapM (fun id => dget id (asyss g)) (dkeys (neighbors att))))
    as [hops Hhops].
  { apply mapM_is_Some, Forall_forall. intros nb Hnb. simpl.
    apply dkeys_dget in Hnb as [rel Hrel].
    apply (wf_closed _ Hwf attacker nb rel). unfold nbr. by rewrite Hatt. }
  rewrite Hhops. apply mapM_Some_1 in Hhops.
  pose proof (propagate_returns (policy g) (asyss g) rank bound victim Hwf) as Hp.
  rewrite Hpol in Hp.
  specialize (Hp Hrank fuel (asyss g) (map (forward_route bad) hops) eq_refl).
  rewrite Hpol. destruct (propagate _ _ _ _) as [out s']. simpl in *.
  apply Hp.
  - apply Forall_forall. intros r (hop & -> & Hhop)%list_elem_of_fmap_1.
    destruct (Forall2_elem_of_r _ _ _ _ Hhops Hhop) as (nb & Hnb & Hd).
    split; [by apply hijack_route_shape in Hbad as [? _]|]. simpl. split.
    + intros x [Hx|Hx%list_elem_of_singleton]%elem_of_app.
      * apply (hijack_route_path_keys _ _ _ _ _ _ Hbad Hv); [|done].
        by eapply dget_Some_keys.
      * subst x. rewrite (wf_keys _ Hwf _ _ Hd). by eapply dget_Some_keys.
    + unfold final. simpl. rewrite last_snoc. eauto.
  - rewrite length_map, <- (Forall2_length _ _ _ Hhops).
    unfold dkeys. rewrite length_map. lia.
Qed.

Lemma hijack_n_hops_returns_witness :
  exists fuel0, forall fuel,
    (fuel0 <= fuel)%nat -> (hijack_n_hops fuel rng0 chain4 1 2 3).1 = Ok ().
Proof.
  apply (hijack_n_hops_returns chain4_graph DefaultPolicy chain4 rng0 1 2 3
           (DefaultPolicy_rank (asyss chain4))
           (4 * S (length (dkeys (asyss chain4)))
              * S (length (dkeys (asyss chain4))))).
  - apply reach_init. reflexivity.
  - vm_compute. repeat constructor.
  - vm_compute. repeat constructor.
  - apply DefaultPolicy_ranked.
    apply (ASGraph_init_wf chain4_graph DefaultPolicy). reflexivity.
  - lia.
  - vm_compute. discriminate.
Defined.
